(** * statichtmx: the IMDb suggestion aggregator of [assets/imdb.js]

    A shallow embedding of the query expansion, the JSONP loader, the
    concurrent loader, the normalizer and the submit flow of
    [assets/imdb.js], together with the properties the specification
    states about them.

    Conventions of the embedding.
    - A JavaScript string is a [string]; each [ascii] stands for one UTF-16
      code unit below 256 (ASCII and Latin-1 text), so case mapping and
      the regular expressions of the source act on single code units.
      Module [Utf16] has the strings of 16-bit code units for what
      differs beyond 255: [encodeURIComponent] raises on a lone
      surrogate, which rejects the promise of [loadSuggest], and
      [toLowerCase] can lengthen a string.
    - A raw item has its [id] as an optional string and its [rank] as an
      optional integer ([Raw]); module [Loose] has the identifiers and
      ranks of any other kind, on which [normalize] neither removes
      repetitions nor sorts as it does on those.
    - The storage of [App] either takes every [setItem] or refuses every
      one; [Page.setRoom] changes that between two calls, and
      [Page.autosaveWith], [Page.saveWith] and [Page.sessionWith] are
      [autosave], [save] and a session on a storage that decides about
      each [setItem] on its own.  A stored history is an array of history
      entries, or a value that is not an array, on which [pushHistory]
      raises; module [LooseHistory] has the loop of [pushHistory] on an
      array of any values.
    - [CONFIG] is the constant of the source.  The functions that read it
      take the configuration record as their first argument, so that
      statements can speak of "the configured cap".
    - Numbers that the source only counts with are [nat]; numbers that
      come from the remote payload (year, rank, image sizes) are [Z]; the
      progress percentage is computed on IEEE 754 binary64 numbers.
    - Asynchronous code is a state and the turns of the event loop that
      act on it: a function of the source that awaits is one step
      function per stretch between two [await]s. *)

From Stdlib Require Import Ascii String ZArith Lia Floats.SpecFloat.
From stdpp Require Import base decidable option numbers list sets gmap strings sorting.

Set Warnings "-abstract-large-number,-clear-no-such-hyp".

(** ** Configuration *)

Record Config := {
  maxQueriesSearch : nat;
  maxQueriesDiscover : nat;
  concurrency : nat;
  perRequestTimeoutMs : nat;
  globalTimeoutMs : nat;
  interRequestDelayMs : nat;
  historyLimit : nat
}.

Definition CONFIG : Config := {|
  maxQueriesSearch := 40;
  maxQueriesDiscover := 40;
  concurrency := 6;
  perRequestTimeoutMs := 2500;
  globalTimeoutMs := 12000;
  interRequestDelayMs := 30;
  historyLimit := 15
|}.

(** ** Strings *)

Module Str.

Definition unit_in (lo hi : N) (c : ascii) : bool :=
  let n := N_of_ascii c in ((lo <=? n) && (n <=? hi))%N.

(** [/[a-z0-9]/] on one code unit. *)
Definition isLowerAlnum (c : ascii) : bool :=
  unit_in 97 122 c || unit_in 48 57 c.

(** [String.prototype.toLowerCase] on one code unit below 256: the
    letters A-Z, and the Latin-1 capitals U+00C0..U+00DE other than the
    multiplication sign U+00D7, move up by 32. *)
Definition lowerUnit (c : ascii) : ascii :=
  if unit_in 65 90 c || (unit_in 192 222 c && negb (N_of_ascii c =? 215)%N)
  then ascii_of_N (N_of_ascii c + 32)
  else c.

Fixpoint mapUnits (f : ascii -> ascii) (s : string) : string :=
  match s with
  | EmptyString => EmptyString
  | String c s' => String (f c) (mapUnits f s')
  end.

Fixpoint filterUnits (p : ascii -> bool) (s : string) : string :=
  match s with
  | EmptyString => EmptyString
  | String c s' => if p c then String c (filterUnits p s') else filterUnits p s'
  end.

Definition toLowerCase (s : string) : string := mapUnits lowerUnit s.

(** [s.replace(/[^a-z0-9]/g, "_")]. *)
Definition replaceNonAlnum (s : string) : string :=
  mapUnits (fun c => if isLowerAlnum c then c else "_"%char) s.

(** White space of [String.prototype.trim] among the code units below
    256: TAB, LF, VT, FF, CR, SPACE and NBSP. *)
Definition isSpace (c : ascii) : bool :=
  unit_in 9 13 c || (N_of_ascii c =? 32)%N || (N_of_ascii c =? 160)%N.

Fixpoint trimStart (s : string) : string :=
  match s with
  | EmptyString => EmptyString
  | String c s' => if isSpace c then trimStart s' else s
  end.

Fixpoint trimEnd (s : string) : string :=
  match s with
  | EmptyString => EmptyString
  | String c s' =>
      match trimEnd s' with
      | EmptyString => if isSpace c then EmptyString else String c EmptyString
      | t => String c t
      end
  end.

Definition trim (s : string) : string := trimEnd (trimStart s).

(** [s.charAt(0)]: the first code unit as a string, or the empty string. *)
Definition charAt0 (s : string) : string :=
  match s with
  | EmptyString => EmptyString
  | String c _ => String c EmptyString
  end.

(** The one-unit strings a [for (const ch of "...")] loop visits. *)
Fixpoint chars (s : string) : list string :=
  match s with
  | EmptyString => []
  | String c s' => String c EmptyString :: chars s'
  end.

(** Truthiness of a string: only the empty string is falsy. *)
Definition truthy (s : string) : bool :=
  match s with EmptyString => false | _ => true end.

Definition hexDigit (n : N) : ascii :=
  if (n <? 10)%N then ascii_of_N (48 + n) else ascii_of_N (55 + n).

Definition percent (n : N) : string :=
  String "%" (String (hexDigit (n / 16)) (String (hexDigit (n mod 16)) EmptyString)).

(** Characters [encodeURIComponent] leaves alone. *)
Definition isUnreserved (c : ascii) : bool :=
  unit_in 65 90 c || unit_in 97 122 c || unit_in 48 57 c
  || existsb (Ascii.eqb c) (list_ascii_of_string "-_.!~*'()").

(** [encodeURIComponent] on code units below 256: every other unit is
    written as the percent-escaped bytes of its UTF-8 form. *)
Fixpoint encodeURIComponent (s : string) : string :=
  match s with
  | EmptyString => EmptyString
  | String c s' =>
      let n := N_of_ascii c in
      (if isUnreserved c then String c EmptyString
       else if (n <? 128)%N then percent n
       else percent (192 + n / 64) +:+ percent (128 + n mod 64))
      +:+ encodeURIComponent s'
  end.

End Str.

(** ** Utilities of the source *)

Definition urlencode (s : string) : string := Str.encodeURIComponent s.

(** [x || d] on strings. *)
Definition orElse (s d : string) : string := if Str.truthy s then s else d.

Definition buildJSONPUrl (q : string) : string :=
  let first := orElse (Str.toLowerCase (Str.charAt0 (Str.trim q))) "a" in
  let encoded := urlencode q in
  "https://sg.media-imdb.com/suggests/" +:+ first +:+ "/" +:+ encoded +:+ ".json".

Definition jsonpCallbackName (q : string) : string :=
  "imdb$" +:+ Str.replaceNonAlnum (Str.toLowerCase q).


(** ** Query expansion *)

(** The iteration order of [new Set(xs)], generalised to a key: an
    element is kept when its key has not been seen before. *)
Fixpoint firstSeen {A} (key : A -> string) (seen : gset string) (xs : list A) : list A :=
  match xs with
  | [] => []
  | x :: xs' =>
      if decide (key x ∈ seen) then firstSeen key seen xs'
      else x :: firstSeen key ({[key x]} ∪ seen) xs'
  end.

(** [[...new Set(q)]]. *)
Definition spreadSet (q : list string) : list string := firstSeen (fun s => s) ∅ q.

(** [for (const ch of s) q.push(f(ch))]. *)
Definition pushEach (f : string -> string) (s : string) (q : list string) : list string :=
  fold_left (fun q ch => q ++ [f ch]) (Str.chars s) q.

Definition expandQueries (cfg : Config) (base : string) (useVariations : bool) : list string :=
  let q := [] in
  if Str.truthy base then
    let q := q ++ [base] in
    let q :=
      if useVariations then
        let q := q ++ [base +:+ " movie"; base +:+ " series"; base +:+ " season"] in
        let q := pushEach (fun ch => base +:+ " " +:+ ch) "abcdefghijklmnopqrstuvwxyz" q in
        pushEach (fun d => base +:+ " " +:+ d) "0123456789" q
      else q in
    take (maxQueriesSearch cfg) (spreadSet q)
  else
    let q := q ++ ["the"; "new"; "best"; "top"; "movie"; "series"; "2024"; "2025"] in
    let q := pushEach (fun ch => ch) "abcdefghijklmnopqrstuvwxyz" q in
    take (maxQueriesDiscover cfg) (spreadSet q).

(** The variants of a term in the order the specification lists them. *)
Definition suffixes : list string :=
  [" movie"; " series"; " season"]
  ++ map (fun ch => " " +:+ ch) (Str.chars "abcdefghijklmnopqrstuvwxyz")
  ++ map (fun d => " " +:+ d) (Str.chars "0123456789").

Definition variants (term : string) : list string :=
  term :: map (fun s => term +:+ s) suffixes.

(** ** Remote data *)

(** A raw item of the remote payload.  Every field is optional; [None]
    stands for a field that is absent, [undefined] or [null].  A field
    that is present has the type the entries of the catalog give it; for
    an [id] or a [rank] of another kind see [Loose]. *)
Module Raw.

Record Image := {
  imageUrl : option string;
  width : option Z;
  height : option Z
}.

Record Fields := {
  id : option string;
  l : option string;
  q : option string;
  y : option Z;
  rank : option Z;
  i : option Image
}.

(** [NotObject] is any value for which [!it || typeof it !== "object"]
    holds: [null], [undefined], a number, a string, a boolean. *)
Inductive Item :=
| NotObject
| Obj (f : Fields).

End Raw.

(** The argument [{ d?: RawItem[] }] of the JSONP callback; [d = None]
    when the field is absent, falsy or not an array. *)
Record Suggestion := { d : option (list Raw.Item) }.

(** ** Normalized data *)

Module Entry.

Record t := {
  id : string;
  title : string;
  kind : string;
  year : option Z;
  rank : option Z;
  href : string;
  image_url : option string;
  image_width : option Z;
  image_height : option Z
}.

End Entry.

Record Catalog := { len : nat; titles : list Entry.t }.

(** ** JavaScript operators used by [normalize] *)

(** [v || ""] on an optional string. *)
Definition orEmpty (v : option string) : string :=
  match v with
  | Some s => orElse s ""
  | None => ""
  end.

(** [v || null] on an optional string: the empty string is falsy. *)
Definition strOrNull (v : option string) : option string :=
  match v with
  | Some s => if Str.truthy s then Some s else None
  | None => None
  end.

(** [v || null] on an optional number: zero is falsy. *)
Definition numOrNull (v : option Z) : option Z :=
  match v with
  | Some z => if (z =? 0)%Z then None else Some z
  | None => None
  end.

(** [/^tt/.test(id)]. *)
Definition startsWithTT (id : string) : bool := String.prefix "tt" id.

(** The numbers the comparator of [normalize] computes with. *)
Inductive Num :=
| Fin (z : Z)
| PosInf
| NegInf
| NaN.

(** [a - b]. *)
Definition numSub (a b : Num) : Num :=
  match a, b with
  | Fin x, Fin y => Fin (x - y)
  | NaN, _ | _, NaN => NaN
  | PosInf, PosInf | NegInf, NegInf => NaN
  | PosInf, _ | _, NegInf => PosInf
  | NegInf, _ | _, PosInf => NegInf
  end.

(** [v > 0]; false for [NaN]. *)
Definition isPositive (v : Num) : bool :=
  match v with
  | Fin z => (0 <? z)%Z
  | PosInf => true
  | NegInf | NaN => false
  end.

(** [Array.prototype.sort(comparefn)].  The sort of the language is stable
    and, for a comparator that orders its arguments consistently, its
    result does not depend on the algorithm; it is written here as an
    insertion sort, in which an element only moves behind a later one
    when [comparefn] of the two is positive. *)
Section ArraySort.
Context {A : Type} (comparefn : A -> A -> Num).

Fixpoint sortInsert (x : A) (ys : list A) : list A :=
  match ys with
  | [] => [x]
  | y :: ys' =>
      if isPositive (comparefn x y) then y :: sortInsert x ys'
      else x :: ys
  end.

Fixpoint arraySort (xs : list A) : list A :=
  match xs with
  | [] => []
  | x :: xs' => sortInsert x (arraySort xs')
  end.
End ArraySort.

(** ** Normalization *)

(** One turn of the first loop of [normalize]: the entry pushed for [it],
    or [None] when the loop continues without pushing. *)
Definition toEntry (wantImages : bool) (it : Raw.Item) : option Entry.t :=
  match it with
  | Raw.NotObject => None
  | Raw.Obj f =>
      match Raw.id f with
      | None => None
      | Some id =>
          if negb (Str.truthy id) || negb (startsWithTT id) then None
          else Some {|
            Entry.id := id;
            Entry.title := orEmpty (Raw.l f);
            Entry.kind := orEmpty (Raw.q f);
            Entry.year := Raw.y f;
            Entry.rank := Raw.rank f;
            Entry.href := "https://www.imdb.com/title/" +:+ id +:+ "/";
            Entry.image_url :=
              if wantImages then strOrNull (Raw.i f ≫= Raw.imageUrl) else None;
            Entry.image_width :=
              if wantImages then numOrNull (Raw.i f ≫= Raw.width) else None;
            Entry.image_height :=
              if wantImages then numOrNull (Raw.i f ≫= Raw.height) else None
          |}
      end
  end.

(** [a.rank ?? Number.POSITIVE_INFINITY]. *)
Definition rankOrInfinity (r : option Z) : Num :=
  match r with
  | Some z => Fin z
  | None => PosInf
  end.

Definition byRank (a b : Entry.t) : Num :=
  let ra := rankOrInfinity (Entry.rank a) in
  let rb := rankOrInfinity (Entry.rank b) in
  numSub ra rb.

Definition normalize (items : list Raw.Item) (wantImages : bool) : Catalog :=
  let out := omap (toEntry wantImages) items in
  let unique := firstSeen Entry.id ∅ out in
  let unique := arraySort byRank unique in
  {| len := length unique; titles := unique |}.

(** The entries [normalize] has before it sorts: the valid items in input
    order, each identifier at its first occurrence only. *)
Definition survivors (items : list Raw.Item) (wantImages : bool) : list Entry.t :=
  firstSeen Entry.id ∅ (omap (toEntry wantImages) items).

(** The raw equivalent of an entry: the raw item whose fields carry the
    values of the entry. *)
Definition rawOfEntry (e : Entry.t) : Raw.Item :=
  Raw.Obj {|
    Raw.id := Some (Entry.id e);
    Raw.l := Some (Entry.title e);
    Raw.q := Some (Entry.kind e);
    Raw.y := Entry.year e;
    Raw.rank := Entry.rank e;
    Raw.i := Some {|
      Raw.imageUrl := Entry.image_url e;
      Raw.width := Entry.image_width e;
      Raw.height := Entry.image_height e
    |}
  |}.

(** The order of a catalog: by rank, a missing rank after every number. *)
Definition rankLe (a b : Entry.t) : Prop :=
  match Entry.rank a, Entry.rank b with
  | Some x, Some y => (x <= y)%Z
  | _, None => True
  | None, Some _ => False
  end.

(** ** Raw items with identifiers and ranks of any kind *)

(** The fields [id] and [rank] of a raw item can hold any value the
    remote end sends.  [Raw.Fields] has them as an optional string and an
    optional integer; this module has the other values as well, as far as
    [normalize] tells them apart.  The other fields, which have no part
    in the removal of repetitions and in the order, are as in [Raw]. *)
Module Loose.

(** The value of [it.id]: absent, [undefined] or [null]; a string; an
    array or another object, given by which object it is and by the text
    [String(id)] the pattern and the link are made of; a number or a
    boolean. *)
Inductive IdValue :=
| IdNone
| IdStr (s : string)
| IdRef (ref : nat) (text : string)
| IdOther.

(** The value of [it.rank]: absent, [undefined] or [null]; an integer;
    any other value, given by the number [Number(rank)] the subtraction
    of the comparator turns it into ([NaN] for a text that is no
    numeral). *)
Inductive RankValue :=
| RankNone
| RankNum (z : Z)
| RankOther (n : Num).

Record Fields := {
  id : IdValue;
  l : option string;
  q : option string;
  y : option Z;
  rank : RankValue;
  i : option Raw.Image
}.

Inductive Item :=
| NotObject
| Obj (f : Fields).

Record Entry := {
  e_id : IdValue;
  title : string;
  kind : string;
  year : option Z;
  e_rank : RankValue;
  href : string;
  image_url : option string;
  image_width : option Z;
  image_height : option Z
}.

Record Catalog := { len : nat; titles : list Entry }.

(** The entry pushed for an item whose [id] passed the test, [text] being
    [String(id)]. *)
Definition entryOf (wantImages : bool) (f : Fields) (text : string) : Entry :=
  {| e_id := id f;
     title := orEmpty (l f);
     kind := orEmpty (q f);
     year := y f;
     e_rank := rank f;
     href := "https://www.imdb.com/title/" +:+ text +:+ "/";
     image_url := if wantImages then strOrNull (i f ≫= Raw.imageUrl) else None;
     image_width := if wantImages then numOrNull (i f ≫= Raw.width) else None;
     image_height := if wantImages then numOrNull (i f ≫= Raw.height) else None |}.

(** One turn of the first loop.  An object is truthy whatever it holds;
    the text of a number or of a boolean never starts with tt. *)
Definition toEntry (wantImages : bool) (it : Item) : option Entry :=
  match it with
  | NotObject => None
  | Obj f =>
      match id f with
      | IdNone | IdOther => None
      | IdStr s =>
          if negb (Str.truthy s) || negb (startsWithTT s) then None
          else Some (entryOf wantImages f s)
      | IdRef _ text =>
          if negb (startsWithTT text) then None
          else Some (entryOf wantImages f text)
      end
  end.

(** What [Set.prototype.has] compares: a string by its code units, an
    object by which object it is. *)
Definition sameKey (v : IdValue) : nat + string :=
  match v with
  | IdStr s => inr s
  | IdRef ref _ => inl ref
  | IdNone | IdOther => inr EmptyString
  end.

(** The second loop of [normalize]. *)
Fixpoint firstSeenBy (seen : list (nat + string)) (xs : list Entry) : list Entry :=
  match xs with
  | [] => []
  | x :: xs' =>
      if decide (sameKey (e_id x) ∈ seen) then firstSeenBy seen xs'
      else x :: firstSeenBy (sameKey (e_id x) :: seen) xs'
  end.

(** [a.rank ?? Number.POSITIVE_INFINITY] as the subtraction reads it. *)
Definition rankNumber (r : RankValue) : Num :=
  match r with
  | RankNone => PosInf
  | RankNum z => Fin z
  | RankOther n => n
  end.

Definition byRank (a b : Entry) : Num :=
  numSub (rankNumber (e_rank a)) (rankNumber (e_rank b)).

Definition normalize (items : list Item) (wantImages : bool) : Catalog :=
  let out := omap (toEntry wantImages) items in
  let unique := firstSeenBy [] out in
  let unique := arraySort byRank unique in
  {| len := length unique; titles := unique |}.

(** A raw item and an entry of the typed kind among these. *)
Definition ofRaw (it : Raw.Item) : Item :=
  match it with
  | Raw.NotObject => NotObject
  | Raw.Obj f =>
      Obj {| id := from_option IdStr IdNone (Raw.id f);
             l := Raw.l f; q := Raw.q f; y := Raw.y f;
             rank := from_option RankNum RankNone (Raw.rank f);
             i := Raw.i f |}
  end.

Definition ofEntry (e : Entry.t) : Entry :=
  {| e_id := IdStr (Entry.id e);
     title := Entry.title e; kind := Entry.kind e; year := Entry.year e;
     e_rank := from_option RankNum RankNone (Entry.rank e);
     href := Entry.href e;
     image_url := Entry.image_url e; image_width := Entry.image_width e;
     image_height := Entry.image_height e |}.

(** An item that holds an identifier and a rank and nothing else. *)
Definition item (v : IdValue) (r : RankValue) : Item :=
  Obj {| id := v; l := None; q := None; y := None; rank := r; i := None |}.

End Loose.

(** The place of the first item of the input whose [id] is the string
    [s]. *)
Definition hasId (s : string) (it : Raw.Item) : Prop :=
  match it with
  | Raw.Obj f => Raw.id f = Some s
  | Raw.NotObject => False
  end.

Definition firstAt (items : list Raw.Item) (s : string) (k : nat) : Prop :=
  (exists it, items !! k = Some it /\ hasId s it)
  /\ forall j it, j < k -> items !! j = Some it -> ~ hasId s it.

(** ** The JSONP loader, [loadSuggest] *)

(** What the remote script may pass to the callback. *)
Inductive CallbackArg :=
| ArgUndefined
| ArgNull
| ArgFalse
| ArgZero
| ArgEmptyString
| ArgObject (s : Suggestion).

(** [data || null]. *)
Definition orNull (data : CallbackArg) : option Suggestion :=
  match data with
  | ArgObject s => Some s
  | _ => None
  end.

Module Fetch.

(** The state one call of [loadSuggest] owns: the [done] flag, the state
    of the returned promise ([None] while pending, [Some v] once resolved
    with [v], where [v = None] is [null]), the pending timer, the entry
    [window[cbName]] and the script element in the document head. *)
Record t := {
  url : string;
  cbName : string;
  timeoutMs : nat;
  done : bool;
  promise : option (option Suggestion);
  timer : bool;
  callback : bool;
  script : bool
}.

Definition cleanup (st : t) : t :=
  {| url := url st; cbName := cbName st; timeoutMs := timeoutMs st;
     done := done st; promise := promise st;
     timer := false; callback := false; script := false |}.

Definition resolve (val : option Suggestion) (st : t) : t :=
  {| url := url st; cbName := cbName st; timeoutMs := timeoutMs st;
     done := done st;
     promise := match promise st with None => Some val | Some v => Some v end;
     timer := timer st; callback := callback st; script := script st |}.

Definition setDone (st : t) : t :=
  {| url := url st; cbName := cbName st; timeoutMs := timeoutMs st;
     done := true; promise := promise st;
     timer := timer st; callback := callback st; script := script st |}.

Definition finish (val : option Suggestion) (st : t) : t :=
  if done st then st else resolve val (cleanup (setDone st)).

(** The state when the executor of the promise has run, for a query of
    code units below 256, on which the executor does not raise (see
    [Utf16.loadSuggest] for the queries on which it does). *)
Definition loadSuggest (q : string) (timeoutMs : nat) : t :=
  {| url := buildJSONPUrl q; cbName := jsonpCallbackName q;
     timeoutMs := timeoutMs;
     done := false; promise := None;
     timer := true; callback := true; script := true |}.

(** What can happen to a call: its timer fires, the script element
    reports an error, the loaded script invokes the callback. *)
Inductive event :=
| TimerFires
| ScriptError
| CallbackInvoked (data : CallbackArg).

Definition handle (ev : event) (st : t) : t :=
  match ev with
  | TimerFires => finish None st
  | ScriptError => finish None st
  | CallbackInvoked data => finish (orNull data) st
  end.

Definition run (evs : list event) (st : t) : t :=
  fold_left (fun st ev => handle ev st) evs st.

(** The events that carry no data: the timer, an error of the script
    element, a callback with an absent or falsy argument. *)
Definition nonSuccess (ev : event) : Prop :=
  match ev with
  | TimerFires | ScriptError => True
  | CallbackInvoked data => orNull data = None
  end.

End Fetch.

(** ** Strings beyond code unit 255 *)

(** Elsewhere in this development a string is a sequence of code units
    below 256.  The strings of the language are sequences of 16-bit code
    units; this module has them for the two operations of the loader that
    behave differently beyond 255: [encodeURIComponent], which raises
    [URIError] on a surrogate that is not part of a pair, and
    [toLowerCase], whose result can be longer than its argument and which
    is a parameter here. *)
Module Utf16.

Definition t : Type := list N.

Definition ofString (s : string) : t := N_of_ascii <$> list_ascii_of_string s.

Definition isLeadSurrogate (u : N) : bool := ((55296 <=? u) && (u <=? 56319))%N.
Definition isTrailSurrogate (u : N) : bool := ((56320 <=? u) && (u <=? 57343))%N.

(** The octets of the UTF-8 form of a code point. *)
Definition utf8 (cp : N) : list N :=
  (if cp <? 128 then [cp]
   else if cp <? 2048 then [192 + cp / 64; 128 + cp mod 64]
   else if cp <? 65536
     then [224 + cp / 4096; 128 + (cp / 64) mod 64; 128 + cp mod 64]
   else [240 + cp / 262144; 128 + (cp / 4096) mod 64;
         128 + (cp / 64) mod 64; 128 + cp mod 64])%N.

(** What [encodeURIComponent] writes for one code point. *)
Definition escape (cp : N) : string :=
  if (cp <? 128)%N && Str.isUnreserved (ascii_of_N cp)
  then String (ascii_of_N cp) EmptyString
  else foldr (fun b acc => Str.percent b +:+ acc) EmptyString (utf8 cp).

(** [encodeURIComponent(s)]; [None] when it raises [URIError]. *)
Fixpoint encodeURIComponent (s : t) : option string :=
  match s with
  | [] => Some EmptyString
  | u :: s' =>
      if isTrailSurrogate u then None
      else if isLeadSurrogate u then
        match s' with
        | v :: s'' =>
            if isTrailSurrogate v
            then (fun rest => escape (65536 + (u - 55296) * 1024 + (v - 56320)) +:+ rest)
                   <$> encodeURIComponent s''
            else None
        | [] => None
        end
      else (fun rest => escape u +:+ rest) <$> encodeURIComponent s'
  end.

(** White space and line terminators, which [trim] removes. *)
Definition isSpace (u : N) : bool :=
  (((9 <=? u) && (u <=? 13)) || (u =? 32) || (u =? 160) || (u =? 5760)
   || ((8192 <=? u) && (u <=? 8202)) || (u =? 8232) || (u =? 8233)
   || (u =? 8239) || (u =? 8287) || (u =? 12288) || (u =? 65279))%N.

Fixpoint trimStart (s : t) : t :=
  match s with
  | [] => []
  | u :: s' => if isSpace u then trimStart s' else s
  end.

Fixpoint trimEnd (s : t) : t :=
  match s with
  | [] => []
  | u :: s' =>
      match trimEnd s' with
      | [] => if isSpace u then [] else [u]
      | r => u :: r
      end
  end.

Definition trim (s : t) : t := trimEnd (trimStart s).

Definition charAt0 (s : t) : t :=
  match s with
  | [] => []
  | u :: _ => [u]
  end.

Definition isLowerAlnum (u : N) : bool :=
  (((97 <=? u) && (u <=? 122)) || ((48 <=? u) && (u <=? 57)))%N.

(** [s.replace(/[^a-z0-9]/g, "_")]: without the flag [u] the pattern
    matches code unit by code unit. *)
Definition replaceNonAlnum (s : t) : t :=
  (fun u => if isLowerAlnum u then u else 95%N) <$> s.

(** How the promise of [loadSuggest] starts: rejected, when its executor
    raises, or pending, with the address of the script, the name of the
    callback and the timeout registered. *)
Inductive Promise :=
| Rejected
| Started (url cbName : t) (timeoutMs : nat).

Section Source.
Context (toLowerCase : t -> t).

(** [buildJSONPUrl(q)]; [None] when [urlencode(q)] raises. *)
Definition buildJSONPUrl (q : t) : option t :=
  let first := match toLowerCase (charAt0 (trim q)) with
               | [] => ofString "a"
               | f => f
               end in
  encoded ← encodeURIComponent q;
  Some (ofString "https://sg.media-imdb.com/suggests/" ++ first ++ ofString "/"
        ++ ofString encoded ++ ofString ".json").

Definition jsonpCallbackName (q : t) : t :=
  ofString "imdb$" ++ replaceNonAlnum (toLowerCase q).

(** [loadSuggest(q, timeoutMs)] up to the end of the executor.  The first
    statement of the executor is [const url = buildJSONPUrl(q)]; an
    exception in an executor rejects the promise, and nothing has been
    registered by then. *)
Definition loadSuggest (q : t) (timeoutMs : nat) : Promise :=
  match buildJSONPUrl q with
  | None => Rejected
  | Some url => Started url (jsonpCallbackName q) timeoutMs
  end.

End Source.

(** [toLowerCase] on the code units below 256, as [Str.lowerUnit] has it;
    other code units are left alone here. *)
Definition lowerLatin1 (s : t) : t :=
  (fun u => if (u <? 256)%N then N_of_ascii (Str.lowerUnit (ascii_of_N u)) else u) <$> s.

End Utf16.

(** ** Progress percentages *)

(** [Math.round((done / total) * 100)] on IEEE 754 binary64 numbers: the
    quotient and the product are rounded to nearest-even as the language
    does, and [Math.round] takes the exact value of the product to the
    nearest integer, a half going up. *)
Module Js.

Definition prec : Z := 53.
Definition emax : Z := 1024.

Definition ofNat (n : nat) : spec_float :=
  binary_normalize prec emax (Z.of_nat n) 0 false.

Definition div (x y : spec_float) : spec_float := SFdiv prec emax x y.
Definition mul (x y : spec_float) : spec_float := SFmul prec emax x y.

Definition mathRound (x : spec_float) : Z :=
  match x with
  | S754_finite s m e =>
      let v := if s then Z.neg m else Z.pos m in
      if (0 <=? e)%Z then (v * 2 ^ e)%Z
      else ((2 * v + 2 ^ (- e)) / 2 ^ (- e + 1))%Z
  | _ => 0%Z
  end.

End Js.

Definition pctOf (done total : nat) : Z :=
  Js.mathRound (Js.mul (Js.div (Js.ofNat done) (Js.ofNat total)) (Js.ofNat 100)).

Record ProgressEvent := { p_done : nat; total : nat; pct : Z }.

(** The event [{ done, total, pct }] of the [done]-th completed fetch. *)
Definition progressOf (total done : nat) : ProgressEvent :=
  {| p_done := done; total := total; pct := pctOf done total |}.

(** The percentages of a list of [total] queries, evaluated: they start
    at 0, do not decrease from one count to the next, and end at 100. *)
Definition pctAscending (total : nat) : bool :=
  (pctOf 0 total =? 0)%Z
  && forallb (fun k => (pctOf k total <=? pctOf (S k) total)%Z) (seq 0 total)
  && (pctOf total total =? 100)%Z.

(** The longest list [expandQueries] returns under [CONFIG]. *)
Definition maxQueries : nat :=
  maxQueriesSearch CONFIG `max` maxQueriesDiscover CONFIG.

(** The percentages of the counts below [total], evaluated: none of them
    is 100. *)
Definition pctBelow100 (total : nat) : bool :=
  forallb (fun k => (pctOf k total <? 100)%Z) (seq 0 total).

(** The largest total for which every count below the total has a
    percentage below 100: with 200 queries, [Math.round(199 / 200 * 100)]
    is already 100. *)
Definition maxTotal : nat := 199.

(** ** The concurrent loader, [loadAll] *)

Module Pool.

(** Where a worker stands: waiting for [loadSuggest(queries[my])],
    waiting for [sleep], or returned. *)
Inductive Worker :=
| Awaiting (my : nat) (fetch : Fetch.t)
| Sleeping
| Exited.

(** The variables of one [loadAll] call, the progress events handed to
    [onProgress] so far (oldest first) and the workers.  The progress bar
    element, which is optional and receives the same percentages, is left
    out, and so is the timer that hides it. *)
Record t := {
  results : list Raw.Item;
  i : nat;
  done : nat;
  canceled : bool;
  emitted : list ProgressEvent;
  workers : list Worker
}.

Definition isExited (w : Worker) : bool :=
  match w with Exited => true | _ => false end.

(** [Promise.all] over the workers has resolved. *)
Definition returned (st : t) : bool := forallb isExited (workers st).

Definition isAwaiting (w : Worker) : bool :=
  match w with Awaiting _ _ => true | _ => false end.

Fixpoint count (p : Worker -> bool) (ws : list Worker) : nat :=
  match ws with
  | [] => 0
  | w :: ws' => (if p w then 1 else 0) + count p ws'
  end.

(** The workers that have not returned, and those with a fetch under
    way. *)
Definition running (st : t) : nat :=
  count (fun w => negb (isExited w)) (workers st).

Definition inFlight (st : t) : nat := count isAwaiting (workers st).

Section Call.
Context (cfg : Config) (queries : list string).

(** The head of [while (!canceled && i < queries.length)] and, when
    the test passes, the body up to [await loadSuggest(q)]. *)
Definition enterLoop (st : t) : Worker * t :=
  if negb (canceled st) && (i st <? length queries) then
    let my := i st in
    let q := default "" (queries !! my) in
    (Awaiting my (Fetch.loadSuggest q (perRequestTimeoutMs cfg)),
     {| results := results st; i := S (i st); done := done st;
        canceled := canceled st; emitted := emitted st;
        workers := workers st |})
  else (Exited, st).

Definition setWorker (w : nat) (x : Worker) (st : t) : t :=
  {| results := results st; i := i st; done := done st;
     canceled := canceled st; emitted := emitted st;
     workers := <[w := x]> (workers st) |}.

(** One call [worker()] of [Array.from({ length: threads }, ...)]: the
    new worker runs up to its first [await]. *)
Definition spawn (st : t) : t :=
  let '(x, st') := enterLoop st in
  {| results := results st'; i := i st'; done := done st';
     canceled := canceled st'; emitted := emitted st';
     workers := workers st' ++ [x] |}.

Definition threads : nat := concurrency cfg `min` length queries.

(** The initial values of the variables of [loadAll]. *)
Definition fresh : t :=
  {| results := []; i := 0; done := 0; canceled := false;
     emitted := []; workers := [] |}.

(** The state when [loadAll] reaches [await Promise.all(...)]. *)
Definition start : t := Nat.iter threads spawn fresh.

(** The body of the loop after [await loadSuggest(q)], up to
    [await sleep(...)]. *)
Definition afterFetch (w : nat) (data : option Suggestion) (st : t) : t :=
  let results' :=
    match data with
    | Some {| d := Some items |} => results st ++ items
    | _ => results st
    end in
  let done' := S (done st) in
  let pct := pctOf done' (length queries) in
  {| results := results'; i := i st; done := done';
     canceled := canceled st;
     emitted := emitted st
                ++ [{| p_done := done'; total := length queries; pct := pct |}];
     workers := <[w := Sleeping]> (workers st) |}.

(** What the event loop can deliver to a running call: the global
    timer, an event of the fetch a worker waits for, the end of a
    worker's sleep. *)
Inductive event :=
| Deadline
| Transport (w : nat) (ev : Fetch.event)
| Wake (w : nat).

(** One turn of the event loop; [None] when the event cannot occur in
    this state (the timer is cleared once [loadAll] has returned). *)
Definition step (e : event) (st : t) : option t :=
  match e with
  | Deadline =>
      if canceled st || returned st then None
      else Some {| results := results st; i := i st; done := done st;
                   canceled := true; emitted := emitted st;
                   workers := workers st |}
  | Transport w ev =>
      match workers st !! w with
      | Some (Awaiting my f) =>
          let f' := Fetch.handle ev f in
          match Fetch.promise f' with
          | Some data => Some (afterFetch w data st)
          | None => Some (setWorker w (Awaiting my f') st)
          end
      | _ => None
      end
  | Wake w =>
      match workers st !! w with
      | Some Sleeping =>
          let '(x, st') := enterLoop st in
          Some (setWorker w x st')
      | _ => None
      end
  end.

Fixpoint exec (es : list event) (st : t) : option t :=
  match es with
  | [] => Some st
  | e :: es' =>
      match step e st with
      | Some st' => exec es' st'
      | None => None
      end
  end.

(** A worker that waits for a fetch waits for one that has not settled. *)
Definition fetchPending (x : Worker) : Prop :=
  match x with
  | Awaiting _ f => Fetch.done f = false /\ Fetch.promise f = None
  | _ => True
  end.

Definition isSleeping (w : Worker) : bool :=
  match w with Sleeping => true | _ => false end.

(** A bound on the events a call can still receive: two for each query
    not yet claimed, two for each fetch under way, one for each sleep, and
    one for the global timer while it is pending. *)
Definition remaining (st : t) : nat :=
  2 * (length queries - i st)
  + 2 * count isAwaiting (workers st)
  + count isSleeping (workers st)
  + (if canceled st || returned st then 0 else 1).

(** What holds of the variables whenever the event loop has control:
    the cursor stays within the list; every claimed query is either
    completed or under way; the events emitted so far are those of
    the counts 1, 2, ..., [done]; the number of workers is fixed; and
    a worker has only returned after cancellation or when no query
    was left. *)
Record Inv (st : t) : Prop := {
  inv_cursor : i st <= length queries;
  inv_done : done st + inFlight st = i st;
  inv_emitted : emitted st = progressOf (length queries) <$> seq 1 (done st);
  inv_workers : length (workers st) = threads;
  inv_exit : 0 < count isExited (workers st) ->
             canceled st = true \/ i st = length queries;
  inv_claimed : threads <= i st
}.

End Call.

End Pool.

(** ** The event loop with its clock *)

(** [loadAll] on an event loop whose timers fire when they are due, in
    the order of their due times and, among equal due times, of their
    registration.  The remote end answers each query as [net] says. *)
Module Timed.

Inductive Behaviour :=
| Answers (afterMs : nat) (data : CallbackArg)
| Fails (afterMs : nat)
| Silent.

(** The first event that reaches a call of [loadSuggest] and the delay
    after which it does: the remote end if it is faster than the timer
    of the call, the timer otherwise. *)
Definition firstEvent (timeoutMs : nat) (b : Behaviour) : nat * Fetch.event :=
  match b with
  | Answers afterMs data =>
      if afterMs <? timeoutMs then (afterMs, Fetch.CallbackInvoked data)
      else (timeoutMs, Fetch.TimerFires)
  | Fails afterMs =>
      if afterMs <? timeoutMs then (afterMs, Fetch.ScriptError)
      else (timeoutMs, Fetch.TimerFires)
  | Silent => (timeoutMs, Fetch.TimerFires)
  end.

Record Pending := { due : nat; ticket : nat; event : Pool.event }.

Record t := {
  pool : Pool.t;
  now : nat;
  agenda : list Pending;
  nextSeq : nat;
  trace : list Pool.event
}.

Definition earlier (a b : Pending) : bool :=
  (due a <? due b) || ((due a =? due b) && (ticket a <=? ticket b)).

(** The pending event that is due first, and the others. *)
Fixpoint popNext (ps : list Pending) : option (Pending * list Pending) :=
  match ps with
  | [] => None
  | p :: ps' =>
      match popNext ps' with
      | None => Some (p, [])
      | Some (m, rest) =>
          if earlier p m then Some (p, ps') else Some (m, p :: rest)
      end
  end.

Definition schedule (delay : nat) (e : Pool.event) (st : t) : t :=
  {| pool := pool st; now := now st;
     agenda := agenda st ++ [{| due := now st + delay; ticket := nextSeq st; event := e |}];
     nextSeq := S (nextSeq st); trace := trace st |}.

Section Call.
Context (cfg : Config) (queries : list string) (net : string -> Behaviour).

(** A worker that has just called [loadSuggest]: the first event of
    that call is put on the agenda. *)
Definition arm (w : nat) (st : t) : t :=
  match Pool.workers (pool st) !! w with
  | Some (Pool.Awaiting my f) =>
      let q := default "" (queries !! my) in
      let '(delay, ev) := firstEvent (Fetch.timeoutMs f) (net q) in
      schedule delay (Pool.Transport w ev) st
  | _ => st
  end.

(** A worker that has just called [sleep]. *)
Definition snooze (w : nat) (st : t) : t :=
  match Pool.workers (pool st) !! w with
  | Some Pool.Sleeping => schedule (interRequestDelayMs cfg) (Pool.Wake w) st
  | _ => st
  end.

(** [loadAll] up to [await Promise.all(...)]: the global timer is
    registered first, then each worker starts its first fetch. *)
Definition start : t :=
  let st := {| pool := Pool.start cfg queries; now := 0;
               agenda := []; nextSeq := 0; trace := [] |} in
  let st := schedule (globalTimeoutMs cfg) Pool.Deadline st in
  foldl (fun st w => arm w st) st (seq 0 (Pool.threads cfg queries)).

Definition fire (p : Pending) (rest : list Pending) (st : t) : t :=
  match Pool.step cfg queries (event p) (pool st) with
  | None =>
      {| pool := pool st; now := due p; agenda := rest;
         nextSeq := nextSeq st; trace := trace st |}
  | Some pool' =>
      let st' := {| pool := pool'; now := due p; agenda := rest;
                    nextSeq := nextSeq st; trace := trace st ++ [event p] |} in
      match event p with
      | Pool.Deadline => st'
      | Pool.Transport w _ => snooze w st'
      | Pool.Wake w => arm w st'
      end
  end.

(** The event loop: it stops when [loadAll] has returned (and cleared
    the global timer) or nothing is pending. *)
Fixpoint run (fuel : nat) (st : t) : t :=
  match fuel with
  | 0 => st
  | S fuel' =>
      if Pool.returned (pool st) then st
      else match popNext (agenda st) with
           | None => st
           | Some (p, rest) => run fuel' (fire p rest st)
           end
  end.

(** Each query is settled once and slept after once, and the global
    timer fires at most once. *)
Definition fuel : nat := 2 * length queries + 2.

(** The pending events that concern worker [w], and the global timer. *)
Definition forWorker (w : nat) (p : Pending) : bool :=
  match event p with
  | Pool.Deadline => false
  | Pool.Transport w' _ | Pool.Wake w' => w =? w'
  end.

Definition isDeadline (p : Pending) : bool :=
  match event p with Pool.Deadline => true | _ => false end.

Fixpoint countPending (f : Pending -> bool) (ps : list Pending) : nat :=
  match ps with
  | [] => 0
  | p :: ps' => (if f p then 1 else 0) + countPending f ps'
  end.

(** 1 when worker [w] exists and has not returned, else 0. *)
Definition live (ws : list Pool.Worker) (w : nat) : nat :=
  match ws !! w with
  | Some Pool.Exited | None => 0
  | Some _ => 1
  end.

(** A pending event can be delivered: the global timer while the call is
    not canceled, an event of a fetch to the worker that waits for it, the
    end of a sleep to the worker that sleeps. *)
Definition deliverable (st : Pool.t) (p : Pending) : Prop :=
  match event p with
  | Pool.Deadline => Pool.canceled st = false
  | Pool.Transport w _ => Pool.isAwaiting (default Pool.Exited (Pool.workers st !! w)) = true
  | Pool.Wake w => Pool.workers st !! w = Some Pool.Sleeping
  end.

(** The agenda matches the workers: each worker that has not returned
    has exactly one pending event, every pending event can be delivered,
    and the global timer is pending at most once. *)
Record Consistent (st : t) : Prop := {
  ag_live : forall w, countPending (forWorker w) (agenda st)
                      = live (Pool.workers (pool st)) w;
  ag_deliverable : Forall (deliverable (pool st)) (agenda st);
  ag_deadline : countPending isDeadline (agenda st) <= 1
}.

(** The events fired so far lead from the start of [loadAll] to the
    current state of its variables. *)
Definition traced (st : t) : Prop :=
  Pool.exec cfg queries (trace st) (Pool.start cfg queries) = Some (pool st).

(** The value [loadAll] returns and the progress events its callback
    received. *)
Definition loadAll : option (list Raw.Item * list ProgressEvent) :=
  let st := run fuel start in
  if Pool.returned (pool st)
  then Some (Pool.results (pool st), Pool.emitted (pool st))
  else None.

End Call.

End Timed.

(** ** The page: status line, result area, form fields, local storage *)

Module App.

(** The texts [onSubmit] writes to the status element, and any other. *)
Inductive StatusText :=
| Loading
| LoadingPct (pct : Z)
| Found (n : nat)
| ErrorLoading
| OtherStatus (s : string).

(** The markup of the result area, up to the text of the cards. *)
Inductive Markup :=
| Blank
| NoResults
| Cards (titles : list Entry.t)
| FailedToLoad
| OtherMarkup (s : string).

(** What [document.getElementById] finds: [None] when the page has no
    element of that id, else the property of the element the code uses. *)
Record Dom := {
  el_q : option string;
  el_variations : option bool;
  el_images : option bool;
  el_status : option StatusText;
  el_results : option Markup
}.

Record Meta := {
  query : string;
  variations : bool;
  images : bool;
  timestamp : Z
}.

Record HistEntry := { meta : Meta; results : nat }.

(** The values the code serializes, and [JOther] for any other JSON
    value that is not an array.  An array whose elements are not history
    entries is not among these values. *)
Inductive Json :=
| JCatalog (c : Catalog)
| JMeta (m : Meta)
| JHistory (h : list HistEntry)
| JOther.

(** An item of [localStorage]: text that [JSON.parse] accepts, or not. *)
Inductive Item :=
| Unparseable
| Parsed (v : Json).

(** [localStorage]; [full] when [setItem] raises, for lack of room,
    whatever is written; otherwise every [setItem] succeeds. *)
Record Storage := { items : gmap string Item; full : bool }.

Module STORAGE.
Definition lastResults : string := "imdb:last_results:v1".
Definition lastMeta : string := "imdb:last_meta:v1".
Definition history : string := "imdb:history:v1".
End STORAGE.

(** The locals of a call of [onSubmit] that is suspended at
    [await loadAll(...)]. *)
Record Frame := {
  f_q : string;
  f_wantVar : bool;
  f_wantImg : bool;
  f_qs : list string
}.

(** The state of the page and of the closure [imdbApp]. *)
Record t := {
  lastJSON : Catalog;
  busy : bool;
  dom : Dom;
  storage : Storage;
  frame : option Frame
}.

(** *** Computations that read and write the state and may throw *)

Inductive Outcome (A : Type) :=
| Ret (a : A)
| Throw.
Arguments Ret {A} a.
Arguments Throw {A}.

Definition M (A : Type) : Type := t -> Outcome A * t.

Definition ret {A} (a : A) : M A := fun s => (Ret a, s).
Definition throw {A} : M A := fun s => (Throw, s).
Definition bind {A B} (m : M A) (k : A -> M B) : M B :=
  fun s => match m s with
           | (Ret a, s') => k a s'
           | (Throw, s') => (Throw, s')
           end.

Notation "x <- m ;; k" := (bind m (fun x => k))
  (at level 100, m at next level, right associativity).
Notation "m >> k" := (bind m (fun _ => k))
  (at level 100, right associativity).

(** [try { body } catch (e) { handler } finally { final }]. *)
Definition tryCatchFinally (body handler final : M unit) : M unit :=
  fun s =>
    match body s with
    | (Ret _, s1) => final s1
    | (Throw, s1) =>
        match handler s1 with
        | (Ret _, s2) => final s2
        | (Throw, s2) => (final >> throw) s2
        end
    end.

Definition get {A} (f : t -> A) : M A := fun s => (Ret (f s), s).

Definition setBusy (b : bool) : M unit := fun s =>
  (Ret (), {| lastJSON := lastJSON s; busy := b; dom := dom s;
              storage := storage s; frame := frame s |}).

Definition setLastJSON (c : Catalog) : M unit := fun s =>
  (Ret (), {| lastJSON := c; busy := busy s; dom := dom s;
              storage := storage s; frame := frame s |}).

Definition setFrame (f : option Frame) : M unit := fun s =>
  (Ret (), {| lastJSON := lastJSON s; busy := busy s; dom := dom s;
              storage := storage s; frame := f |}).

Definition setDom (d : Dom) : M unit := fun s =>
  (Ret (), {| lastJSON := lastJSON s; busy := busy s; dom := d;
              storage := storage s; frame := frame s |}).

Definition setStorage (st : Storage) : M unit := fun s =>
  (Ret (), {| lastJSON := lastJSON s; busy := busy s; dom := dom s;
              storage := st; frame := frame s |}).

(** A property read off [document.getElementById(...)]: a [TypeError]
    when the element is missing. *)
Definition property {A} (f : Dom -> option A) : M A :=
  d <- get dom ;;
  match f d with
  | Some v => ret v
  | None => throw
  end.

(** [status.textContent = v]. *)
Definition setStatus (v : StatusText) : M unit :=
  _ <- property el_status ;;
  d <- get dom ;;
  setDom {| el_q := el_q d; el_variations := el_variations d;
            el_images := el_images d; el_status := Some v;
            el_results := el_results d |}.

(** [resultsEl.innerHTML = v]. *)
Definition setResults (v : Markup) : M unit :=
  _ <- property el_results ;;
  d <- get dom ;;
  setDom {| el_q := el_q d; el_variations := el_variations d;
            el_images := el_images d; el_status := el_status d;
            el_results := Some v |}.

Definition safeSet (key : string) (value : Json) : M bool :=
  st <- get storage ;;
  if full st then ret false
  else (setStorage {| items := <[key := Parsed value]> (items st); full := full st |} >>
        ret true).

(** [safeGet(key, fallback)]: the parsed item, or [None] for the
    fallback when the item is missing or does not parse. *)
Definition safeGet (key : string) : M (option Json) :=
  st <- get storage ;;
  match items st !! key with
  | Some (Parsed v) => ret (Some v)
  | Some Unparseable | None => ret None
  end.

Definition renderCards (model : Catalog) : Markup :=
  match titles model with
  | [] => NoResults
  | ts => Cards ts
  end.

Definition flag (b : bool) : string := if b then "1" else "0".

Definition historyKey (h : HistEntry) : string :=
  query (meta h) +:+ "::" +:+ flag (variations (meta h))
    +:+ "::" +:+ flag (images (meta h)).

Section WithConfig.
Context (cfg : Config).

(** The loop of [pushHistory], with its [break]. *)
Fixpoint dedupHistory (seen : gset string) (deduped hist : list HistEntry)
  : list HistEntry :=
  match hist with
  | [] => deduped
  | h :: rest =>
      let k := historyKey h in
      let '(seen', deduped') :=
        if decide (k ∈ seen) then (seen, deduped)
        else ({[k]} ∪ seen, deduped ++ [h]) in
      if historyLimit cfg <=? length deduped' then deduped'
      else dedupHistory seen' deduped' rest
  end.

(** [hist.unshift] raises unless the stored history is an array.  The
    arrays of this development are the arrays of history entries
    ([JHistory]); the other values ([JCatalog], [JMeta], [JOther]) are
    not arrays. *)
Definition pushHistory (entry : HistEntry) : M (list HistEntry) :=
  stored <- safeGet STORAGE.history ;;
  hist <- match stored with
         | None => ret []
         | Some (JHistory h) => ret h
         | Some _ => throw
         end ;;
  let hist := entry :: hist in
  let deduped := dedupHistory ∅ [] hist in
  _ <- safeSet STORAGE.history (JHistory deduped) ;;
  ret deduped.

(** The stored history is absent, does not parse, or is an array:
    the cases in which [pushHistory] does not raise. *)
Definition historyReadable (st : Storage) : Prop :=
  match items st !! STORAGE.history with
  | Some (Parsed (JHistory _)) | Some Unparseable | None => True
  | Some (Parsed _) => False
  end.

Definition autosave (m : Meta) : M bool :=
  last <- get lastJSON ;;
  ok1 <- safeSet STORAGE.lastResults (JCatalog last) ;;
  ok2 <- safeSet STORAGE.lastMeta (JMeta m) ;;
  let histEntry := {| meta := m; results := len last |} in
  _ <- pushHistory histEntry ;;
  ret (ok1 && ok2).

(** [onSubmit] up to [await loadAll(...)], after [evt.preventDefault()],
    which touches the event only.  The result is [false] when the call
    returned at the single-flight guard and [true] when it is suspended,
    with its locals in [frame]. *)
Definition onSubmit_enter : M bool :=
  b <- get busy ;;
  if b then ret false
  else
    (setBusy true >>
     v <- property el_q ;;
     let q := Str.trim v in
     wantVar <- property el_variations ;;
     wantImg <- property el_images ;;
     setStatus Loading >>
     setResults Blank >>
     let qs := expandQueries cfg q wantVar in
     setFrame (Some {| f_q := q; f_wantVar := wantVar;
                       f_wantImg := wantImg; f_qs := qs |}) >>
     ret true).

(** The progress callback [onSubmit] hands to [loadAll]. *)
Definition onProgress (ev : ProgressEvent) : M unit :=
  setStatus (LoadingPct (pct ev)).

(** How [await loadAll(...)] ends. *)
Inductive Awaited :=
| Fulfilled (raw : list Raw.Item)
| Rejected.

(** [onSubmit] from [await loadAll(...)] to its end; [now] is
    [Date.now()].  It runs on the locals the call left in [frame]; when no
    call is suspended there is nothing to run. *)
Definition onSubmit_resume (awaited : Awaited) (now : Z) : M unit :=
  fr <- get frame ;;
  match fr with
  | None => ret ()
  | Some f =>
      setFrame None >>
      tryCatchFinally
        (raw <- match awaited with
               | Fulfilled raw => ret raw
               | Rejected => throw
               end ;;
         let model := normalize raw (f_wantImg f) in
         setLastJSON model >>
         setResults (renderCards model) >>
         setStatus (Found (len model)) >>
         _ <- autosave {| query := f_q f; variations := f_wantVar f;
                         images := f_wantImg f; timestamp := now |} ;;
         ret ())
        (setStatus ErrorLoading >>
         setResults FailedToLoad)
        (setBusy false)
  end.

(** One whole session on the event loop with its clock: the submit,
    the calls of the progress callback in the order [loadAll] makes
    them, and the rest of [onSubmit].  The result is the progress
    events of the session, if one was started.  ([Timed.loadAll] always
    returns, see [timed_loadAll_returns]; the branch for [None] is there
    for the type only.) *)
Definition session (net : string -> Timed.Behaviour) (now : Z)
  : M (list ProgressEvent) :=
  started <- onSubmit_enter ;;
  if started then
    fr <- get frame ;;
    match fr ≫= (fun f => Timed.loadAll cfg (f_qs f) net) with
    | Some (raw, events) =>
        foldr (fun ev k => onProgress ev >> k) (ret ()) events >>
        onSubmit_resume (Fulfilled raw) now >>
        ret events
    | None => throw
    end
  else ret [].

End WithConfig.

End App.

(** ** File names *)

(** [s.replace(/\s+/g, "_")]: every run of white space becomes one
    underscore; [inRun] tells that the unit before was white space. *)
Fixpoint replaceSpaceRuns (inRun : bool) (s : string) : string :=
  match s with
  | EmptyString => EmptyString
  | String c s' =>
      if Str.isSpace c then
        if inRun then replaceSpaceRuns true s'
        else String "_" (replaceSpaceRuns true s')
      else String c (replaceSpaceRuns false s')
  end.

(** [/[a-z0-9_]/] on one code unit. *)
Definition isSlugUnit (c : ascii) : bool :=
  Str.isLowerAlnum c || Ascii.eqb c "_".

(** [slug]; the argument is [None] for [null] and [undefined]. *)
Definition slug (s : option string) : string :=
  orElse
    (Str.filterUnits isSlugUnit
       (replaceSpaceRuns false (Str.toLowerCase (default "" s))))
    "query".

(** ** The other operations of the page *)

Module Page.
Import App.

(** [if (status) status.textContent = v]. *)
Definition setStatusIfPresent (v : StatusText) : M unit :=
  d <- get dom ;;
  match el_status d with
  | Some _ => setStatus v
  | None => ret ()
  end.

(** [autoload]: the stored catalog and the stored metadata, each [None]
    when the item is missing or does not parse. *)
Definition autoload : M (option Json * option Json) :=
  saved <- safeGet STORAGE.lastResults ;;
  meta <- safeGet STORAGE.lastMeta ;;
  ret (saved, meta).

Definition clearHistory : M unit :=
  _ <- safeSet STORAGE.history (JHistory []) ;;
  setStatusIfPresent (OtherStatus "History cleared.").

(** A browser decides at every [setItem] whether the text fits.
    [setRoom refuses] is that decision for the [setItem] that comes next;
    it is no statement of the source. *)
Definition setRoom (refuses : bool) : M unit :=
  st <- get storage ;;
  setStorage {| items := items st; full := refuses |}.

Section WithConfig.
Context (cfg : Config).

(** [autosave] on a storage that decides about each of the three
    [setItem] calls on its own: [r1], [r2] and [r3] tell which of them
    raise. *)
Definition autosaveWith (r1 r2 r3 : bool) (m : Meta) : M bool :=
  last <- get lastJSON ;;
  _ <- setRoom r1 ;;
  ok1 <- safeSet STORAGE.lastResults (JCatalog last) ;;
  _ <- setRoom r2 ;;
  ok2 <- safeSet STORAGE.lastMeta (JMeta m) ;;
  let histEntry := {| meta := m; results := len last |} in
  _ <- setRoom r3 ;;
  _ <- pushHistory cfg histEntry ;;
  ret (ok1 && ok2).

(** [save] on such a storage. *)
Definition saveWith (r1 r2 r3 : bool) (now : Z) : M bool :=
  d <- get dom ;;
  let m := {| query := orElse (default "" (Str.trim <$> el_q d)) "";
              variations := default false (el_variations d);
              images := default false (el_images d);
              timestamp := now |} in
  ok <- autosaveWith r1 r2 r3 m ;;
  setStatusIfPresent
    (OtherStatus (if ok then "Saved locally." else "Save failed (storage).")) >>
  ret ok.

(** The rest of [onSubmit] after [await loadAll], and the whole session,
    on such a storage. *)
Definition onSubmit_resumeWith (r1 r2 r3 : bool) (awaited : Awaited) (now : Z)
  : M unit :=
  fr <- get frame ;;
  match fr with
  | None => ret ()
  | Some f =>
      setFrame None >>
      tryCatchFinally
        (raw <- match awaited with
               | Fulfilled raw => ret raw
               | Rejected => throw
               end ;;
         let model := normalize raw (f_wantImg f) in
         setLastJSON model >>
         setResults (renderCards model) >>
         setStatus (Found (len model)) >>
         _ <- autosaveWith r1 r2 r3
                {| query := f_q f; variations := f_wantVar f;
                   images := f_wantImg f; timestamp := now |} ;;
         ret ())
        (setStatus ErrorLoading >>
         setResults FailedToLoad)
        (setBusy false)
  end.

Definition sessionWith (r1 r2 r3 : bool) (net : string -> Timed.Behaviour)
    (now : Z) : M (list ProgressEvent) :=
  started <- onSubmit_enter cfg ;;
  if started then
    fr <- get frame ;;
    match fr ≫= (fun f => Timed.loadAll cfg (f_qs f) net) with
    | Some (raw, events) =>
        foldr (fun ev k => onProgress ev >> k) (ret ()) events >>
        onSubmit_resumeWith r1 r2 r3 (Fulfilled raw) now >>
        ret events
    | None => throw
    end
  else ret [].

(** [save]; [now] is [Date.now()].  A missing form field counts as an
    empty term or an unchecked box. *)
Definition save (now : Z) : M bool :=
  d <- get dom ;;
  let m := {| query := orElse (default "" (Str.trim <$> el_q d)) "";
              variations := default false (el_variations d);
              images := default false (el_images d);
              timestamp := now |} in
  ok <- autosave cfg m ;;
  setStatusIfPresent
    (OtherStatus (if ok then "Saved locally." else "Save failed (storage).")) >>
  ret ok.

End WithConfig.

End Page.

(** ** The stored history as an array of any values *)

Module LooseHistory.

(** An element of the array [JSON.parse] returns: a history entry;
    [null], on which [h.query] raises; or any other value, given by the
    text [String(h.query)] (the text undefined for a value that is no
    object or has no such property) and by whether [h.variations] and
    [h.images] are truthy. *)
Inductive Value :=
| Entry (h : App.HistEntry)
| Null
| Other (queryText : string) (variations images : bool).

(** The key the loop of [pushHistory] makes of [h]; [None] when making
    it raises. *)
Definition key (h : Value) : option string :=
  match h with
  | Entry e => Some (App.historyKey e)
  | Null => None
  | Other q v i => Some (q +:+ "::" +:+ App.flag v +:+ "::" +:+ App.flag i)
  end.

Section WithConfig.
Context (cfg : Config).

(** The loop of [pushHistory], with its [break]; [None] when it raises. *)
Fixpoint dedup (seen : gset string) (deduped hist : list Value)
  : option (list Value) :=
  match hist with
  | [] => Some deduped
  | h :: rest =>
      match key h with
      | None => None
      | Some k =>
          let '(seen', deduped') :=
            if decide (k ∈ seen) then (seen, deduped)
            else ({[k]} ∪ seen, deduped ++ [h]) in
          if historyLimit cfg <=? length deduped' then Some deduped'
          else dedup seen' deduped' rest
      end
  end.

(** The array [pushHistory(entry)] returns when the stored history is
    the array [hist]. *)
Definition pushHistory (entry : App.HistEntry) (hist : list Value)
  : option (list Value) :=
  dedup ∅ [] (Entry entry :: hist).

End WithConfig.

End LooseHistory.

(** ** Views used to state properties *)

(** What [encodeURIComponent] writes for one code unit. *)
Definition encodeUnit (c : ascii) : string :=
  let n := N_of_ascii c in
  if Str.isUnreserved c then String c EmptyString
  else if (n <? 128)%N then Str.percent n
  else Str.percent (192 + n / 64) +:+ Str.percent (128 + n mod 64).

(** The code units an encoded component consists of. *)
Definition urlSafe (c : ascii) : bool := Str.isUnreserved c || Ascii.eqb c "%".

(** The code units below 256. *)
Definition allUnits : list ascii := ascii_of_nat <$> seq 0 256.

(** An entry with its image fields set to [null]. *)
Definition noImages (e : Entry.t) : Entry.t :=
  {| Entry.id := Entry.id e; Entry.title := Entry.title e;
     Entry.kind := Entry.kind e; Entry.year := Entry.year e;
     Entry.rank := Entry.rank e; Entry.href := Entry.href e;
     Entry.image_url := None; Entry.image_width := None;
     Entry.image_height := None |}.

(** The fetches under way: each is the fetch of one query below the
    cursor, untouched since [loadSuggest] made it, and no two workers
    fetch the same query. *)
Definition claimsOk (cfg : Config) (queries : list string) (st : Pool.t) : Prop :=
  (forall w my f, Pool.workers st !! w = Some (Pool.Awaiting my f) ->
     my < Pool.i st
     /\ f = Fetch.loadSuggest (default "" (queries !! my)) (perRequestTimeoutMs cfg))
  /\ (forall w1 w2 my f1 f2,
        Pool.workers st !! w1 = Some (Pool.Awaiting my f1) ->
        Pool.workers st !! w2 = Some (Pool.Awaiting my f2) -> w1 = w2).

(** The indices the workers claim in the course of a run, in the order
    of the claims: a worker that wakes and finds the loop condition true
    claims the query at the cursor. *)
Fixpoint dispatched (cfg : Config) (queries : list string)
    (es : list Pool.event) (st : Pool.t) : list nat :=
  match es with
  | [] => []
  | e :: es' =>
      match Pool.step cfg queries e st with
      | None => []
      | Some st' =>
          match e with
          | Pool.Wake w =>
              match Pool.workers st' !! w with
              | Some (Pool.Awaiting my _) => [my]
              | _ => []
              end
          | _ => []
          end ++ dispatched cfg queries es' st'
      end
  end.

(** The items an event of a fetch carries: the array [d] of a callback
    argument, nothing otherwise. *)
Definition itemsOf (ev : Fetch.event) : list Raw.Item :=
  match ev with
  | Fetch.CallbackInvoked (ArgObject {| d := Some items |}) => items
  | _ => []
  end.

(** The items the events of a run carry, in the order of the events. *)
Definition delivered (es : list Pool.event) : list Raw.Item :=
  es ≫= (fun e => match e with
                  | Pool.Transport _ ev => itemsOf ev
                  | _ => []
                  end).

(** The latest time at which [loadAll] can return: a fetch claimed just
    before the global timer fires, its timeout, and the sleep after it. *)
Definition latencyBound (cfg : Config) : nat :=
  globalTimeoutMs cfg + perRequestTimeoutMs cfg + interRequestDelayMs cfg.

(** Every fetch under way has the configured timeout. *)
Definition timeoutsOk (cfg : Config) (ws : list Pool.Worker) : Prop :=
  Forall (fun x => match x with
                   | Pool.Awaiting _ f => Fetch.timeoutMs f = perRequestTimeoutMs cfg
                   | _ => True
                   end) ws.

(** The clock and the agenda of the event loop: no pending event is due
    in the past; the global timer is due at [globalTimeoutMs] and pending
    as long as the call is not canceled; an event of a fetch is due one
    timeout after the global timer at the latest, and the end of a sleep
    one delay later at the latest. *)
Record Timely (cfg : Config) (st : Timed.t) : Prop := {
  tm_future : Forall (fun q => Timed.now st <= Timed.due q) (Timed.agenda st);
  tm_deadline : Forall (fun q => Timed.isDeadline q = true ->
                                 Timed.due q = globalTimeoutMs cfg)
                       (Timed.agenda st);
  tm_pending : Pool.canceled (Timed.pool st) = false ->
               Exists (fun q => Timed.isDeadline q = true) (Timed.agenda st);
  tm_transport : Forall (fun q => forall w ev,
                           Timed.event q = Pool.Transport w ev ->
                           Timed.due q <= globalTimeoutMs cfg + perRequestTimeoutMs cfg)
                        (Timed.agenda st);
  tm_wake : Forall (fun q => forall w, Timed.event q = Pool.Wake w ->
                                       Timed.due q <= latencyBound cfg)
                   (Timed.agenda st);
  tm_now : Timed.now st <= latencyBound cfg;
  tm_timeouts : timeoutsOk cfg (Pool.workers (Timed.pool st))
}.

(** The stored history as [pushHistory] reads it: the fallback [[]] when
    the item is missing or does not parse. *)
Definition storedHistory (st : App.Storage) : list App.HistEntry :=
  match App.items st !! App.STORAGE.history with
  | Some (App.Parsed (App.JHistory h)) => h
  | _ => []
  end.

(** The storage after [safeSet(key, value)]. *)
Definition stored (key : string) (value : App.Json) (st : App.Storage) : App.Storage :=
  if App.full st then st
  else {| App.items := <[key := App.Parsed value]> (App.items st);
          App.full := App.full st |}.

Definition withStorage (st : App.Storage) (app : App.t) : App.t :=
  {| App.lastJSON := App.lastJSON app; App.busy := App.busy app;
     App.dom := App.dom app; App.storage := st; App.frame := App.frame app |}.

(** The page with the text of the status element replaced, if it has
    one. *)
Definition withStatus (v : App.StatusText) (app : App.t) : App.t :=
  {| App.lastJSON := App.lastJSON app; App.busy := App.busy app;
     App.dom := {| App.el_q := App.el_q (App.dom app);
                   App.el_variations := App.el_variations (App.dom app);
                   App.el_images := App.el_images (App.dom app);
                   App.el_status := (fun _ => v) <$> App.el_status (App.dom app);
                   App.el_results := App.el_results (App.dom app) |};
     App.storage := App.storage app; App.frame := App.frame app |}.

(** ** Sample data *)

(** A raw item with an identifier, a label and a rank, and nothing else. *)
Definition sampleItem (id l : string) (rank : option Z) : Raw.Item :=
  Raw.Obj {| Raw.id := Some id; Raw.l := Some l; Raw.q := None; Raw.y := None;
             Raw.rank := rank; Raw.i := None |}.

(** The storage when the browser has decided about the next [setItem]. *)
Definition roomy (refuses : bool) (st : App.Storage) : App.Storage :=
  {| App.items := App.items st; App.full := refuses |}.

(** The storage after [autosave(meta)] when the catalog is [last]. *)
Definition afterAutosave (cfg : Config) (m : App.Meta) (last : Catalog)
    (st : App.Storage) : App.Storage :=
  let histEntry := {| App.meta := m; App.results := len last |} in
  stored App.STORAGE.history
    (App.JHistory (App.dedupHistory cfg ∅ [] (histEntry :: storedHistory st)))
    (stored App.STORAGE.lastMeta (App.JMeta m)
       (stored App.STORAGE.lastResults (App.JCatalog last) st)).

(** The storage after [autosave(meta)] when the three [setItem] calls
    are refused as [r1], [r2] and [r3] say. *)
Definition afterAutosaveWith (cfg : Config) (r1 r2 r3 : bool) (m : App.Meta)
    (last : Catalog) (st : App.Storage) : App.Storage :=
  let histEntry := {| App.meta := m; App.results := len last |} in
  stored App.STORAGE.history
    (App.JHistory (App.dedupHistory cfg ∅ [] (histEntry :: storedHistory st)))
    (roomy r3
       (stored App.STORAGE.lastMeta (App.JMeta m)
          (roomy r2 (stored App.STORAGE.lastResults (App.JCatalog last)
                       (roomy r1 st))))).

(** The parsed value of a stored item, as [safeGet(key, null)] returns
    it. *)
Definition parsedItem (key : string) (st : App.Storage) : option App.Json :=
  match App.items st !! key with
  | Some (App.Parsed v) => Some v
  | _ => None
  end.

(** The page with the status line and the result area rewritten. *)
Definition shown (s : App.StatusText) (m : App.Markup) (d : App.Dom) : App.Dom :=
  {| App.el_q := App.el_q d; App.el_variations := App.el_variations d;
     App.el_images := App.el_images d; App.el_status := Some s;
     App.el_results := Some m |}.

(** The metadata [onSubmit] saves for a suspended call. *)
Definition metaOf (f : App.Frame) (now : Z) : App.Meta :=
  {| App.query := App.f_q f; App.variations := App.f_wantVar f;
     App.images := App.f_wantImg f; App.timestamp := now |}.

(** A past search and its number of results. *)
Definition sampleSearch (query : string) (variations : bool) (results : nat)
  : App.HistEntry :=
  {| App.meta := {| App.query := query; App.variations := variations;
                    App.images := false; App.timestamp := 1730000000000 |};
     App.results := results |}.

(** A page with its five elements, idle, whose storage holds [its]. *)
Definition samplePage (q : string) (its : gmap string App.Item) (full : bool) : App.t :=
  {| App.lastJSON := {| len := 0; titles := [] |}; App.busy := false;
     App.dom := {| App.el_q := Some q; App.el_variations := Some false;
                   App.el_images := Some false;
                   App.el_status := Some (App.OtherStatus "Ready");
                   App.el_results := Some App.NoResults |};
     App.storage := {| App.items := its; App.full := full |};
     App.frame := None |}.

(** * Properties *)

(** ** Strings *)

Lemma append_cons (c : ascii) (s t : string) :
  String c s +:+ t = String c (s +:+ t).
Proof. reflexivity. Qed.

Lemma append_empty_r (s : string) : s +:+ "" = s.
Proof.
  induction s as [|c s IH]; [done |]. by rewrite append_cons, IH.
Qed.

Lemma append_inj_r (s t1 t2 : string) : s +:+ t1 = s +:+ t2 -> t1 = t2.
Proof.
  induction s as [|c s IH]; [done |]. rewrite !append_cons. intros [= H]. auto.
Qed.

Lemma append_length (s t : string) :
  String.length (s +:+ t) = String.length s + String.length t.
Proof.
  induction s as [|c s IH]; [done |]. rewrite append_cons. simpl. by rewrite IH.
Qed.

Lemma append_self_r (s t : string) : s = s +:+ t -> t = "".
Proof.
  intros H. apply (f_equal String.length) in H. rewrite append_length in H.
  destruct t; [done | simpl in H; lia].
Qed.

Lemma mapUnits_length (f : ascii -> ascii) (s : string) :
  String.length (Str.mapUnits f s) = String.length s.
Proof. induction s as [|c s IH]; simpl; [done | by f_equal]. Qed.


Lemma mapUnits_compose (f g : ascii -> ascii) (s : string) :
  Str.mapUnits f (Str.mapUnits g s) = Str.mapUnits (fun c => f (g c)) s.
Proof. induction s as [|c s IH]; simpl; [done | by f_equal]. Qed.

(** ** The order of first occurrences *)

Section FirstSeen.
Context {A : Type} (key : A -> string).

Lemma firstSeen_sublist (seen : gset string) (xs : list A) :
  firstSeen key seen xs `sublist_of` xs.
Proof.
  revert seen. induction xs as [|x xs IH]; intros seen; simpl; [done |].
  case_decide; [by apply sublist_cons | by apply sublist_skip].
Qed.

Lemma firstSeen_fresh (seen : gset string) (xs : list A) (x : A) :
  x ∈ firstSeen key seen xs -> key x ∉ seen.
Proof.
  revert seen. induction xs as [|y xs IH]; intros seen; simpl.
  - by intros ?%elem_of_nil.
  - case_decide as Hy; [by apply IH |].
    intros [->|Hin]%elem_of_cons; [done |].
    apply IH in Hin. set_solver.
Qed.

Lemma firstSeen_NoDup (seen : gset string) (xs : list A) :
  NoDup (key <$> firstSeen key seen xs).
Proof.
  revert seen. induction xs as [|y xs IH]; intros seen; simpl.
  - constructor.
  - case_decide as Hy; [by apply IH |].
    rewrite fmap_cons. constructor; [| by apply IH].
    intros (z & Hz & Hin)%list_elem_of_fmap.
    apply firstSeen_fresh in Hin. set_solver.
Qed.

Lemma firstSeen_complete (seen : gset string) (xs : list A) (x : A) :
  x ∈ xs -> key x ∉ seen ->
  exists y, y ∈ firstSeen key seen xs /\ key y = key x.
Proof.
  revert seen. induction xs as [|y xs IH]; intros seen; simpl.
  - by intros ?%elem_of_nil.
  - intros Hin Hx. case_decide as Hy.
    + apply elem_of_cons in Hin. destruct Hin as [->|Hin]; [done |].
      by apply IH.
    + destruct (decide (key x = key y)) as [Heq|Hne].
      * exists y. split; [apply elem_of_cons; by left | done].
      * apply elem_of_cons in Hin. destruct Hin as [->|Hin]; [done |].
        destruct (IH ({[key y]} ∪ seen) Hin) as (z & Hz & Hk); [set_solver |].
        exists z. split; [apply elem_of_cons; by right | done].
Qed.

(** An element that is kept is the first of the input with its key. *)
Lemma firstSeen_first (seen : gset string) (xs : list A) (x : A) :
  x ∈ firstSeen key seen xs ->
  exists l1 l2, xs = l1 ++ x :: l2 /\ forall y, y ∈ l1 -> key y ≠ key x.
Proof.
  revert seen. induction xs as [|y xs IH]; intros seen; simpl.
  - by intros ?%elem_of_nil.
  - case_decide as Hy.
    + intros Hin. pose proof (firstSeen_fresh _ _ _ Hin) as Hfresh.
      destruct (IH _ Hin) as (l1 & l2 & -> & Hl1).
      exists (y :: l1), l2. split; [done |].
      intros z [->|Hz]%elem_of_cons; [congruence | by apply Hl1].
    + intros [->|Hin]%elem_of_cons.
      * exists [], xs. split; [done |]. by intros z ?%elem_of_nil.
      * pose proof (firstSeen_fresh _ _ _ Hin) as Hfresh.
        destruct (IH _ Hin) as (l1 & l2 & -> & Hl1).
        exists (y :: l1), l2. split; [done |].
        intros z [->|Hz]%elem_of_cons; [set_solver | by apply Hl1].
Qed.

(** A list without repeated keys is left as it is. *)
Lemma firstSeen_id (seen : gset string) (xs : list A) :
  NoDup (key <$> xs) -> (forall x, x ∈ xs -> key x ∉ seen) ->
  firstSeen key seen xs = xs.
Proof.
  revert seen. induction xs as [|y xs IH]; intros seen Hnd Hfresh; simpl; [done |].
  rewrite fmap_cons in Hnd. apply NoDup_cons in Hnd as [Hy Hnd].
  case_decide as Hin.
  - exfalso. apply (Hfresh y); [apply elem_of_cons; by left | done].
  - f_equal. apply IH; [done |].
    intros x Hx. assert (x ∈ y :: xs) as Hx' by (apply elem_of_cons; by right).
    specialize (Hfresh x Hx').
    assert (key x ≠ key y).
    { intros Heq. apply Hy. rewrite <- Heq. by apply list_elem_of_fmap_2. }
    set_solver.
Qed.

End FirstSeen.

Lemma spreadSet_NoDup (q : list string) : NoDup (spreadSet q).
Proof.
  unfold spreadSet.
  pose proof (firstSeen_NoDup (fun s : string => s) ∅ q) as H.
  by rewrite list_fmap_id in H.
Qed.

Lemma spreadSet_id (q : list string) : NoDup q -> spreadSet q = q.
Proof.
  intros H. apply firstSeen_id; [by rewrite list_fmap_id | set_solver].
Qed.

(** ** Query expansion *)

Lemma pushEach_map (f : string -> string) (s : string) (q : list string) :
  pushEach f s q = q ++ (f <$> Str.chars s).
Proof.
  unfold pushEach. generalize (Str.chars s). intros cs. revert q.
  induction cs as [|c cs IH]; intros q; simpl.
  - by rewrite app_nil_r.
  - rewrite IH, <- app_assoc. done.
Qed.

Lemma suffixes_NoDup : NoDup suffixes.
Proof. compute_done. Qed.

Lemma suffixes_nonempty (s : string) : s ∈ suffixes -> s ≠ "".
Proof.
  intros Hin ->. revert Hin. compute_done.
Qed.

Lemma variants_NoDup (term : string) : NoDup (variants term).
Proof.
  unfold variants. apply NoDup_cons. split.
  - intros (s & Hs & Hin)%list_elem_of_fmap.
    apply append_self_r in Hs. by apply (suffixes_nonempty s).
  - apply NoDup_fmap_2_strong; [| apply suffixes_NoDup].
    intros s1 s2 _ _. apply append_inj_r.
Qed.

(** The array [q] built for a term with variations is the list of the
    variants. *)
Lemma expandQueries_variations (cfg : Config) (term : string) :
  term ≠ "" ->
  expandQueries cfg term true = take (maxQueriesSearch cfg) (variants term).
Proof.
  intros Hne. unfold expandQueries.
  destruct term as [|c term]; [done |]. cbn [Str.truthy].
  rewrite !pushEach_map.
  set (t := String c term).
  assert (([] ++ [t]) ++ [t +:+ " movie"; t +:+ " series"; t +:+ " season"]
          ++ ((fun ch => t +:+ " " +:+ ch) <$> Str.chars "abcdefghijklmnopqrstuvwxyz")
          ++ ((fun d => t +:+ " " +:+ d) <$> Str.chars "0123456789") = variants t) as Heq.
  { unfold variants, suffixes. rewrite !fmap_app, <- !list_fmap_compose. done. }
  rewrite <- !app_assoc in *. rewrite Heq.
  by rewrite spreadSet_id by apply variants_NoDup.
Qed.



(** ** The callback name *)



(** ** Sorting by rank *)

Lemma byRank_positive (a b : Entry.t) :
  isPositive (byRank a b) = true <-> ~ rankLe a b.
Proof.
  unfold byRank, rankLe, rankOrInfinity.
  destruct (Entry.rank a) as [x|], (Entry.rank b) as [y|]; simpl.
  - rewrite Z.ltb_lt. lia.
  - split; [done | tauto].
  - split; [tauto | done].
  - split; [done | tauto].
Qed.

Lemma byRank_not_positive (a b : Entry.t) :
  isPositive (byRank a b) = false <-> rankLe a b.
Proof.
  rewrite <- not_true_iff_false, byRank_positive.
  unfold rankLe. destruct (Entry.rank a), (Entry.rank b); try tauto. lia.
Qed.

Lemma rankLe_total (a b : Entry.t) : rankLe a b \/ rankLe b a.
Proof.
  unfold rankLe. destruct (Entry.rank a), (Entry.rank b); try tauto. lia.
Qed.

Lemma rankLe_trans (a b c : Entry.t) : rankLe a b -> rankLe b c -> rankLe a c.
Proof.
  unfold rankLe.
  destruct (Entry.rank a), (Entry.rank b), (Entry.rank c); try tauto. lia.
Qed.

Section SortFacts.
Context {A : Type} (comparefn : A -> A -> Num).

Lemma sortInsert_perm (x : A) (ys : list A) :
  sortInsert comparefn x ys ≡ₚ x :: ys.
Proof.
  induction ys as [|y ys IH]; simpl; [done |].
  destruct (isPositive (comparefn x y)); [| done].
  rewrite IH. apply Permutation_swap.
Qed.

Lemma arraySort_perm (xs : list A) : arraySort comparefn xs ≡ₚ xs.
Proof.
  induction xs as [|x xs IH]; simpl; [done |].
  by rewrite sortInsert_perm, IH.
Qed.

Lemma arraySort_length (xs : list A) :
  length (arraySort comparefn xs) = length xs.
Proof. by rewrite arraySort_perm. Qed.

(** Stability: an element only passes elements that compare strictly
    below it, so a class [P] that holds no two such elements keeps its
    order. *)
Lemma sortInsert_filter (P : A -> Prop) `{!forall a, Decision (P a)}
    (x : A) (ys : list A) :
  (forall a b, P a -> P b -> isPositive (comparefn a b) = false) ->
  filter P (sortInsert comparefn x ys) = filter P (x :: ys).
Proof.
  intros Hclass. induction ys as [|y ys IH]; simpl; [done |].
  destruct (isPositive (comparefn x y)) eqn:Hpos; [| done].
  rewrite filter_cons, IH, !filter_cons.
  destruct (decide (P y)) as [Hy|Hy], (decide (P x)) as [Hx|Hx]; try done.
  by rewrite (Hclass x y Hx Hy) in Hpos.
Qed.

Lemma arraySort_filter (P : A -> Prop) `{!forall a, Decision (P a)} (xs : list A) :
  (forall a b, P a -> P b -> isPositive (comparefn a b) = false) ->
  filter P (arraySort comparefn xs) = filter P xs.
Proof.
  intros Hclass. induction xs as [|x xs IH]; simpl; [done |].
  rewrite sortInsert_filter by done. by rewrite !filter_cons, IH.
Qed.

End SortFacts.

Lemma sortInsert_sorted (x : Entry.t) (ys : list Entry.t) :
  StronglySorted rankLe ys -> StronglySorted rankLe (sortInsert byRank x ys).
Proof.
  induction 1 as [|y ys Hs IH Hall]; simpl.
  - repeat constructor.
  - destruct (isPositive (byRank x y)) eqn:Hpos.
    + apply byRank_positive in Hpos.
      assert (rankLe y x) as Hyx by (destruct (rankLe_total x y); tauto).
      constructor; [done |].
      rewrite sortInsert_perm. by constructor.
    + apply byRank_not_positive in Hpos.
      constructor; [by constructor |].
      constructor; [done |].
      eapply Forall_impl; [exact Hall |].
      intros z Hz. by eapply rankLe_trans.
Qed.

Lemma arraySort_sorted (xs : list Entry.t) :
  StronglySorted rankLe (arraySort byRank xs).
Proof.
  induction xs as [|x xs IH]; simpl; [constructor | by apply sortInsert_sorted].
Qed.

(** A list that is in order is left as it is. *)
Lemma arraySort_sorted_id (xs : list Entry.t) :
  StronglySorted rankLe xs -> arraySort byRank xs = xs.
Proof.
  induction 1 as [|x xs Hs IH Hall]; simpl; [done |].
  rewrite IH. destruct xs as [|y ys]; simpl; [done |].
  apply Forall_cons in Hall as [Hxy _].
  apply byRank_not_positive in Hxy. by rewrite Hxy.
Qed.

(** ** Normalization *)

Lemma toEntry_id (w : bool) (it : Raw.Item) (e : Entry.t) :
  toEntry w it = Some e ->
  exists f, it = Raw.Obj f /\ Raw.id f = Some (Entry.id e)
            /\ Entry.id e ≠ "" /\ startsWithTT (Entry.id e) = true.
Proof.
  destruct it as [|f]; simpl; [done |].
  destruct (Raw.id f) as [id|] eqn:Hid; [| done].
  destruct (Str.truthy id) eqn:Ht; simpl; [| done].
  destruct (startsWithTT id) eqn:Hp; simpl; [| done].
  intros [= <-]. simpl. exists f. repeat split; try done.
  intros ->. done.
Qed.

Lemma omap_first_occurrence (w : bool) (items : list Raw.Item)
    (l1 l2 : list Entry.t) (e : Entry.t) :
  omap (toEntry w) items = l1 ++ e :: l2 ->
  exists k1 it k2,
    items = k1 ++ it :: k2 /\ toEntry w it = Some e
    /\ omap (toEntry w) k1 = l1.
Proof.
  revert l1. induction items as [|it items IH]; intros l1; simpl.
  - by destruct l1.
  - destruct (toEntry w it) as [e'|] eqn:He'.
    + destruct l1 as [|a l1]; simpl.
      * intros [= -> _]. exists [], it, items. done.
      * intros [= -> Hrest]. destruct (IH _ Hrest) as (k1 & it' & k2 & -> & Hit & Hk).
        exists (it :: k1), it', k2. split; [done |]. split; [done |].
        cbn [omap list_omap]. rewrite He'. by f_equal.
    + intros Hrest. destruct (IH _ Hrest) as (k1 & it' & k2 & -> & Hit & Hk).
      exists (it :: k1), it', k2. split; [done |]. split; [done |].
      cbn [omap list_omap]. by rewrite He'.
Qed.

Lemma survivors_first (items : list Raw.Item) (w : bool) (e : Entry.t) :
  e ∈ survivors items w ->
  exists k1 it k2,
    items = k1 ++ it :: k2 /\ toEntry w it = Some e
    /\ forall it' e', it' ∈ k1 -> toEntry w it' = Some e' -> Entry.id e' ≠ Entry.id e.
Proof.
  intros Hin. apply firstSeen_first in Hin as (l1 & l2 & Hout & Hl1).
  apply omap_first_occurrence in Hout as (k1 & it & k2 & -> & Hit & Hk1).
  exists k1, it, k2. split; [done |]. split; [done |].
  intros it' e' Hit' He'. apply Hl1. rewrite <- Hk1.
  apply list_elem_of_omap. by exists it'.
Qed.

(** *** The order of the first occurrences *)

Lemma firstSeen_order {A} (key : A -> string) (seen : gset string)
    (xs a : list A) (e1 : A) (b : list A) (e2 : A) (c : list A) :
  firstSeen key seen xs = a ++ e1 :: b ++ e2 :: c ->
  exists l1 l2 l3,
    xs = l1 ++ e1 :: l2 ++ e2 :: l3
    /\ (forall y, y ∈ l1 -> key y ≠ key e1)
    /\ (forall y, y ∈ l1 ++ e1 :: l2 -> key y ≠ key e2).
Proof.
  revert seen a. induction xs as [|x xs IH]; intros seen a; simpl.
  - by destruct a.
  - case_decide as Hx.
    + intros Heq. destruct (IH _ _ Heq) as (l1 & l2 & l3 & -> & H1 & H2).
      assert ((key e1 ∉ seen) /\ (key e2 ∉ seen)) as [Hf1 Hf2].
      { split; apply (firstSeen_fresh key seen (l1 ++ e1 :: l2 ++ e2 :: l3));
          rewrite Heq; set_solver. }
      exists (x :: l1), l2, l3. split; [done |]. split.
      * intros y [->|Hy]%elem_of_cons; [congruence | by apply H1].
      * intros y [->|Hy]%elem_of_cons; [congruence | by apply H2].
    + destruct a as [|x' a]; simpl; intros [= -> Heq].
      * assert (e2 ∈ firstSeen key ({[key e1]} ∪ seen) xs) as Hin
          by (rewrite Heq; set_solver).
        pose proof (firstSeen_fresh key _ _ _ Hin) as Hf2.
        destruct (firstSeen_first key _ _ _ Hin) as (l2 & l3 & -> & H2).
        exists [], l2, l3. split; [done |]. split; [by intros y ?%elem_of_nil |].
        simpl. intros y [->|Hy]%elem_of_cons; [set_solver | by apply H2].
      * destruct (IH _ _ Heq) as (l1 & l2 & l3 & -> & H1 & H2).
        assert ((key e1 ∉ {[key x']} ∪ seen) /\ (key e2 ∉ {[key x']} ∪ seen))
          as [Hf1 Hf2].
        { split; apply (firstSeen_fresh key _ (l1 ++ e1 :: l2 ++ e2 :: l3));
            rewrite Heq; set_solver. }
        exists (x' :: l1), l2, l3. split; [done |]. split.
        -- intros y [->|Hy]%elem_of_cons; [set_solver | by apply H1].
        -- intros y [->|Hy]%elem_of_cons; [set_solver | by apply H2].
Qed.

Lemma filter_middle {A} (P : A -> Prop) `{!forall a, Decision (P a)}
    (xs fa : list A) (e : A) (rest : list A) :
  filter P xs = fa ++ e :: rest ->
  exists xa xrest, xs = xa ++ e :: xrest /\ filter P xa = fa /\ filter P xrest = rest.
Proof.
  revert fa. induction xs as [|x xs IH]; intros fa; [by destruct fa |].
  rewrite filter_cons. case_decide as Hx.
  - destruct fa as [|y fa]; simpl; intros [= <- Heq].
    + exists [], xs. by rewrite Heq.
    + destruct (IH _ Heq) as (xa & xrest & -> & <- & <-).
      exists (x :: xa), xrest. split; [done |]. split; [| done].
      by rewrite filter_cons_True.
  - intros Heq. destruct (IH _ Heq) as (xa & xrest & -> & <- & <-).
    exists (x :: xa), xrest. split; [done |]. split; [| done].
    by rewrite filter_cons_False.
Qed.

Lemma omap_middle (w : bool) (items : list Raw.Item)
    (l1 : list Entry.t) (e : Entry.t) (rest : list Entry.t) :
  omap (toEntry w) items = l1 ++ e :: rest ->
  exists k1 it krest,
    items = k1 ++ it :: krest /\ omap (toEntry w) k1 = l1
    /\ toEntry w it = Some e /\ omap (toEntry w) krest = rest.
Proof.
  revert l1. induction items as [|it items IH]; intros l1; [by destruct l1 |].
  cbn [omap list_omap]. destruct (toEntry w it) as [e'|] eqn:He'.
  - destruct l1 as [|a l1]; simpl; intros [= -> Heq].
    + exists [], it, items. by rewrite Heq.
    + destruct (IH _ Heq) as (k1 & it1 & krest & -> & <- & Hit & <-).
      exists (it :: k1), it1, krest. split; [done |]. split; [| done].
      cbn [omap list_omap]. by rewrite He'.
  - intros Heq. destruct (IH _ Heq) as (k1 & it1 & krest & -> & <- & Hit & <-).
    exists (it :: k1), it1, krest. split; [done |]. split; [| done].
    cbn [omap list_omap]. by rewrite He'.
Qed.

(** What [toEntry] accepts and what it makes, in terms of the fields. *)
Lemma toEntry_accepts (w : bool) (it : Raw.Item) (s : string) :
  hasId s it -> s ≠ "" -> startsWithTT s = true ->
  exists e, toEntry w it = Some e /\ Entry.id e = s.
Proof.
  destruct it as [|f]; simpl; [done |]. intros -> Hne Hpre.
  rewrite Hpre. destruct s; [done |]. simpl. by eexists.
Qed.

Lemma toEntry_fields (w : bool) (it : Raw.Item) (e : Entry.t) :
  toEntry w it = Some e ->
  exists f,
    it = Raw.Obj f /\ Raw.id f = Some (Entry.id e)
    /\ Entry.id e ≠ "" /\ startsWithTT (Entry.id e) = true
    /\ Entry.title e = orEmpty (Raw.l f) /\ Entry.kind e = orEmpty (Raw.q f)
    /\ Entry.year e = Raw.y f /\ Entry.rank e = Raw.rank f
    /\ Entry.href e = "https://www.imdb.com/title/" +:+ Entry.id e +:+ "/"
    /\ Entry.image_url e
       = (if w then strOrNull (Raw.i f ≫= Raw.imageUrl) else None)
    /\ Entry.image_width e = (if w then numOrNull (Raw.i f ≫= Raw.width) else None)
    /\ Entry.image_height e
       = (if w then numOrNull (Raw.i f ≫= Raw.height) else None).
Proof.
  destruct it as [|f]; simpl; [done |].
  destruct (Raw.id f) as [id|] eqn:Hid; [| done].
  destruct (Str.truthy id) eqn:Ht; simpl; [| done].
  destruct (startsWithTT id) eqn:Hp; simpl; [| done].
  intros [= <-]. simpl. exists f. repeat split; try done.
  intros ->. done.
Qed.

Lemma firstAt_middle (w : bool) (k1 : list Raw.Item) (it : Raw.Item)
    (krest : list Raw.Item) (e : Entry.t) :
  toEntry w it = Some e ->
  (forall y, y ∈ omap (toEntry w) k1 -> Entry.id y ≠ Entry.id e) ->
  firstAt (k1 ++ it :: krest) (Entry.id e) (length k1).
Proof.
  intros Hit Hfresh. destruct (toEntry_fields _ _ _ Hit) as (f & -> & Hid & Hne & Hpre & _).
  split.
  - exists (Raw.Obj f). split; [| done]. by rewrite list_lookup_middle.
  - intros j it' Hj Hlook Hhas. rewrite lookup_app_l in Hlook by done.
    destruct (toEntry_accepts w it' _ Hhas Hne Hpre) as (e' & He' & Hid').
    apply (Hfresh e'); [| done].
    apply list_elem_of_omap. exists it'. split; [| done].
    by eapply list_elem_of_lookup_2.
Qed.

(** *** Typed items among the items of any kind *)

Lemma toEntry_ofRaw (w : bool) (it : Raw.Item) :
  Loose.toEntry w (Loose.ofRaw it) = Loose.ofEntry <$> toEntry w it.
Proof.
  destruct it as [|[id l q y rank i]]; [done |]. simpl.
  destruct id as [id|]; simpl; [| done].
  destruct (negb (Str.truthy id) || negb (startsWithTT id)); [done |].
  done.
Qed.

Lemma firstSeenBy_ofEntry (xs : list Entry.t) (seenL : list (nat + string))
    (seenS : gset string) :
  (forall k, inr k ∈ seenL <-> k ∈ seenS) ->
  Loose.firstSeenBy seenL (Loose.ofEntry <$> xs)
  = Loose.ofEntry <$> firstSeen Entry.id seenS xs.
Proof.
  revert seenL seenS. induction xs as [|x xs IH]; intros seenL seenS Hseen; [done |].
  rewrite fmap_cons. cbn [Loose.firstSeenBy firstSeen Loose.ofEntry Loose.e_id
                          Loose.sameKey].
  destruct (decide (Entry.id x ∈ seenS)) as [Hin|Hout].
  - rewrite decide_True by by apply Hseen. by apply IH.
  - rewrite decide_False by by rewrite Hseen. rewrite fmap_cons. f_equal.
    apply IH. intros k. rewrite elem_of_cons, Hseen. set_solver.
Qed.

Lemma arraySort_fmap2 {A B} (cmpA : A -> A -> Num) (cmpB : B -> B -> Num)
    (f : A -> B) (xs : list A) :
  (forall a b, cmpB (f a) (f b) = cmpA a b) ->
  arraySort cmpB (f <$> xs) = f <$> arraySort cmpA xs.
Proof.
  intros Hcmp.
  assert (forall x ys, sortInsert cmpB (f x) (f <$> ys) = f <$> sortInsert cmpA x ys)
    as Hins.
  { intros x ys. induction ys as [|y ys IH]; [done |].
    rewrite fmap_cons. simpl. rewrite Hcmp.
    destruct (isPositive (cmpA x y)); [| done].
    rewrite fmap_cons. f_equal. apply IH. }
  induction xs as [|x xs IH]; [done |].
  rewrite fmap_cons. simpl. by rewrite IH, Hins.
Qed.

(** On items whose [id] is a string or absent and whose [rank] is an
    integer or absent, the two embeddings of [normalize] agree. *)
Lemma normalize_ofRaw (items : list Raw.Item) (w : bool) :
  Loose.normalize (Loose.ofRaw <$> items) w
  = {| Loose.len := len (normalize items w);
       Loose.titles := Loose.ofEntry <$> titles (normalize items w) |}.
Proof.
  unfold Loose.normalize, normalize. cbv zeta.
  assert (omap (Loose.toEntry w) (Loose.ofRaw <$> items)
          = Loose.ofEntry <$> omap (toEntry w) items) as ->.
  { induction items as [|it items IH]; [done |].
    rewrite fmap_cons. cbn [omap list_omap]. rewrite toEntry_ofRaw, IH.
    by destruct (toEntry w it). }
  rewrite (firstSeenBy_ofEntry _ [] ∅) by set_solver.
  rewrite (arraySort_fmap2 byRank Loose.byRank Loose.ofEntry).
  - cbn [len titles]. by rewrite length_fmap.
  - intros a b. unfold Loose.byRank, byRank. simpl.
    by destruct (Entry.rank a), (Entry.rank b).
Qed.

(** C4, as stated, fails.  Two items whose [id] is an array that holds
    "tt1" both pass the test of the pattern, are two different keys of
    the set, and give two entries with one and the same link; and a rank
    that is no number, between the ranks 2 and 1, leaves 2 before 1. *)
Lemma normalize_keeps_equal_ids_of_arrays :
  Loose.href <$> Loose.titles
    (Loose.normalize [Loose.item (Loose.IdRef 1 "tt1") Loose.RankNone;
                      Loose.item (Loose.IdRef 2 "tt1") Loose.RankNone] false)
  = ["https://www.imdb.com/title/tt1/"; "https://www.imdb.com/title/tt1/"]
  /\ Loose.len
       (Loose.normalize [Loose.item (Loose.IdRef 1 "tt1") Loose.RankNone;
                         Loose.item (Loose.IdRef 2 "tt1") Loose.RankNone] false) = 2
  /\ Loose.e_rank <$> Loose.titles
       (Loose.normalize [Loose.item (Loose.IdStr "tt1") (Loose.RankNum 2);
                         Loose.item (Loose.IdStr "tt2") (Loose.RankOther NaN);
                         Loose.item (Loose.IdStr "tt3") (Loose.RankNum 1)] false)
     = [Loose.RankNum 2; Loose.RankOther NaN; Loose.RankNum 1].
Proof. split; [| split]; vm_compute; reflexivity. Qed.

(** C4, amended: for raw items whose [id] is a string or absent and whose
    [rank] is an integer or absent, on which the embedding [normalize]
    is the one of items of any kind.  No two entries of
    [normalize items wantImages] have the same identifier; every
    identifier is a non-empty string that starts with tt; every entry is
    made of the fields of the first item of the input that has its
    identifier; every item with such an identifier is represented; the
    entries are in ascending order of rank with the missing ranks last;
    and of two entries of one rank the one that stands first is the one
    whose identifier occurs first in the input. *)
Theorem normalize_dedup_sorted_stable (items : list Raw.Item) (wantImages : bool) :
  len (normalize items wantImages) = length (titles (normalize items wantImages))
  /\ NoDup (Entry.id <$> titles (normalize items wantImages))
  /\ (forall e, e ∈ titles (normalize items wantImages) ->
        Entry.id e ≠ "" /\ startsWithTT (Entry.id e) = true)
  /\ (forall e, e ∈ titles (normalize items wantImages) ->
        exists k f,
          firstAt items (Entry.id e) k
          /\ items !! k = Some (Raw.Obj f)
          /\ Entry.title e = orEmpty (Raw.l f) /\ Entry.kind e = orEmpty (Raw.q f)
          /\ Entry.year e = Raw.y f /\ Entry.rank e = Raw.rank f
          /\ Entry.href e = "https://www.imdb.com/title/" +:+ Entry.id e +:+ "/"
          /\ Entry.image_url e
             = (if wantImages then strOrNull (Raw.i f ≫= Raw.imageUrl) else None)
          /\ Entry.image_width e
             = (if wantImages then numOrNull (Raw.i f ≫= Raw.width) else None)
          /\ Entry.image_height e
             = (if wantImages then numOrNull (Raw.i f ≫= Raw.height) else None))
  /\ (forall it s, it ∈ items -> hasId s it -> s ≠ "" -> startsWithTT s = true ->
        exists e, e ∈ titles (normalize items wantImages) /\ Entry.id e = s)
  /\ StronglySorted rankLe (titles (normalize items wantImages))
  /\ (forall i j e1 e2,
        i < j ->
        titles (normalize items wantImages) !! i = Some e1 ->
        titles (normalize items wantImages) !! j = Some e2 ->
        rankLe e1 e2
        /\ (Entry.rank e1 = Entry.rank e2 ->
            exists k1 k2,
              k1 < k2 /\ firstAt items (Entry.id e1) k1
              /\ firstAt items (Entry.id e2) k2))
  /\ Loose.normalize (Loose.ofRaw <$> items) wantImages
     = {| Loose.len := len (normalize items wantImages);
          Loose.titles := Loose.ofEntry <$> titles (normalize items wantImages) |}.
Proof.
  assert (titles (normalize items wantImages)
          = arraySort byRank (survivors items wantImages)) as Ht by done.
  assert (titles (normalize items wantImages) ≡ₚ survivors items wantImages) as Hp.
  { rewrite Ht. apply arraySort_perm. }
  assert (forall e, e ∈ titles (normalize items wantImages) ->
                    e ∈ survivors items wantImages) as Hin.
  { intros e He. by rewrite <- Hp. }
  assert (StronglySorted rankLe (titles (normalize items wantImages))) as Hsorted.
  { rewrite Ht. apply arraySort_sorted. }
  split; [done |]. split.
  { rewrite Hp. apply firstSeen_NoDup. }
  split.
  { intros e He. apply Hin, survivors_first in He as (k1 & it & k2 & _ & Hit & _).
    apply toEntry_id in Hit as (f & _ & _ & Hne & Hpre). done. }
  split.
  { intros e He. apply Hin, survivors_first in He as (k1 & it & k2 & -> & Hit & Hk1).
    destruct (toEntry_fields _ _ _ Hit) as (f & -> & _ & _ & _ & Hfields).
    exists (length k1), f. split.
    - apply (firstAt_middle wantImages); [done |].
      intros y (it' & Hit' & Hy)%list_elem_of_omap. by apply (Hk1 it' y).
    - split; [by rewrite list_lookup_middle | exact Hfields]. }
  split.
  { intros it s Hit Hhas Hne Hpre.
    destruct (toEntry_accepts wantImages it s Hhas Hne Hpre) as (e & He & Hid).
    destruct (firstSeen_complete Entry.id ∅ (omap (toEntry wantImages) items) e)
      as (e' & He' & Hid').
    - apply list_elem_of_omap. by exists it.
    - set_solver.
    - exists e'. split; [by rewrite Hp | congruence]. }
  split; [exact Hsorted |].
  split; [| apply normalize_ofRaw].
  intros i j e1 e2 Hij H1 H2.
  set (T := titles (normalize items wantImages)) in *.
  assert (exists a b c, T = a ++ e1 :: b ++ e2 :: c) as (a & b & c & Hsplit).
  { exists (take i T), (take (j - S i) (drop (S i) T)),
      (drop (S (j - S i)) (drop (S i) T)).
    rewrite <- (take_drop_middle T i e1 H1) at 1. f_equal. f_equal.
    symmetry. apply take_drop_middle. rewrite lookup_drop.
    by replace (S i + (j - S i)) with j by lia. }
  split.
  { rewrite Hsplit in Hsorted. apply StronglySorted_app_1_r in Hsorted.
    apply StronglySorted_inv in Hsorted as [_ Hall].
    apply Forall_app in Hall as [_ Hall]. by apply Forall_cons in Hall as [? _]. }
  intros Hrank.
  pose proof (arraySort_filter byRank (fun e => Entry.rank e = Entry.rank e1)
                (survivors items wantImages)) as Hfilter.
  rewrite <- Ht in Hfilter. fold T in Hfilter.
  rewrite Hsplit, filter_app, filter_cons_True, filter_app, filter_cons_True
    in Hfilter by done.
  symmetry in Hfilter. specialize (Hfilter ltac:(
    intros x y Hx Hy; apply byRank_not_positive; unfold rankLe;
    rewrite Hx, Hy; destruct (Entry.rank e1); [lia | done])).
  apply filter_middle in Hfilter as (xa & xrest & Hsurv & _ & Hrest).
  apply filter_middle in Hrest as (xb & xc & -> & _ & _).
  unfold survivors in Hsurv.
  apply firstSeen_order in Hsurv as (l1 & l2 & l3 & Hout & Hl1 & Hl2).
  apply omap_middle in Hout as (k1 & it1 & krest & Hitems & Hk1 & Hit1 & Hrest).
  apply omap_middle in Hrest as (k2 & it2 & k3 & -> & Hk2 & Hit2 & _).
  exists (length k1), (length (k1 ++ it1 :: k2)).
  split; [rewrite length_app; simpl; lia |]. rewrite Hitems. split.
  - apply (firstAt_middle wantImages); [done |]. rewrite Hk1. exact Hl1.
  - assert (k1 ++ it1 :: k2 ++ it2 :: k3 = (k1 ++ it1 :: k2) ++ it2 :: k3) as ->
      by by rewrite <- app_assoc.
    apply (firstAt_middle wantImages); [done |].
    rewrite omap_app. cbn [omap list_omap app]. rewrite Hit1, Hk1, Hk2. exact Hl2.
Qed.

Lemma toEntry_rawOfEntry (w : bool) (it : Raw.Item) (e : Entry.t) :
  toEntry w it = Some e -> toEntry w (rawOfEntry e) = Some e.
Proof.
  destruct it as [|f]; simpl; [done |].
  destruct (Raw.id f) as [id|] eqn:Hid; [| done].
  destruct (Str.truthy id) eqn:Ht; simpl; [| done].
  destruct (startsWithTT id) eqn:Hp; simpl; [| done].
  intros [= <-]. simpl. rewrite Ht, Hp. simpl. f_equal. f_equal.
  - unfold orEmpty. destruct (Raw.l f) as [s|]; [| done].
    unfold orElse. by destruct s.
  - unfold orEmpty. destruct (Raw.q f) as [s|]; [| done].
    unfold orElse. by destruct s.
  - destruct w; [| done]. unfold strOrNull.
    destruct (Raw.i f ≫= Raw.imageUrl) as [s|]; [| done].
    destruct (Str.truthy s) eqn:Hs; [by rewrite Hs | done].
  - destruct w; [| done]. unfold numOrNull.
    destruct (Raw.i f ≫= Raw.width) as [z|]; [| done].
    destruct (z =? 0)%Z eqn:Hz; [done | by rewrite Hz].
  - destruct w; [| done]. unfold numOrNull.
    destruct (Raw.i f ≫= Raw.height) as [z|]; [| done].
    destruct (z =? 0)%Z eqn:Hz; [done | by rewrite Hz].
Qed.

Lemma omap_rawOfEntry (w : bool) (es : list Entry.t) :
  (forall e, e ∈ es -> exists it, toEntry w it = Some e) ->
  omap (toEntry w) (rawOfEntry <$> es) = es.
Proof.
  induction es as [|e es IH]; intros Hall; [done |].
  rewrite fmap_cons. cbn [omap list_omap].
  destruct (Hall e) as (it & Hit); [apply elem_of_cons; by left |].
  rewrite (toEntry_rawOfEntry _ _ _ Hit). f_equal. apply IH.
  intros e' He'. apply Hall, elem_of_cons. by right.
Qed.

Lemma normalize_titles_facts (xs : list Raw.Item) (w : bool) :
  NoDup (Entry.id <$> titles (normalize xs w))
  /\ (forall e, e ∈ titles (normalize xs w) -> exists it, toEntry w it = Some e)
  /\ StronglySorted rankLe (titles (normalize xs w)).
Proof.
  assert (titles (normalize xs w) ≡ₚ survivors xs w) as Hp by apply arraySort_perm.
  split; [rewrite Hp; apply firstSeen_NoDup |].
  split; [| apply arraySort_sorted].
  intros e He. rewrite Hp in He.
  apply survivors_first in He as (_ & it & _ & _ & Hit & _). by exists it.
Qed.

(** C5. Normalizing the raw equivalents of the entries of a catalog that
    [normalize] produced, with the same images flag, gives that catalog. *)
Theorem normalize_idempotent (xs : list Raw.Item) (w : bool) :
  normalize (rawOfEntry <$> titles (normalize xs w)) w = normalize xs w.
Proof.
  destruct (normalize_titles_facts xs w) as (Hnd & Hfrom & Hsorted).
  unfold normalize at 1.
  rewrite omap_rawOfEntry by exact Hfrom.
  rewrite firstSeen_id; [| exact Hnd | set_solver].
  rewrite arraySort_sorted_id by exact Hsorted.
  done.
Qed.

Lemma toEntry_images (w : bool) (f : Raw.Fields) (e : Entry.t) :
  toEntry w (Raw.Obj f) = Some e ->
  Entry.image_url e = (if w then strOrNull (Raw.i f ≫= Raw.imageUrl) else None)
  /\ Entry.image_width e = (if w then numOrNull (Raw.i f ≫= Raw.width) else None)
  /\ Entry.image_height e = (if w then numOrNull (Raw.i f ≫= Raw.height) else None).
Proof.
  simpl. destruct (Raw.id f) as [id|]; [| done].
  destruct (negb (Str.truthy id) || negb (startsWithTT id)); [done |].
  by intros [= <-].
Qed.

(** C10. With [wantImages] true, every entry of the catalog comes from an
    item of the input, and whenever that item has an image descriptor
    whose [imageUrl] is the empty string, or whose [width] or [height] is
    0, the corresponding field of the entry is [null]; and there is such
    an input. *)
Theorem normalize_falsy_image_field_is_null :
  (forall (items : list Raw.Item) (e : Entry.t),
      e ∈ titles (normalize items true) ->
      exists f : Raw.Fields,
        Raw.Obj f ∈ items /\ toEntry true (Raw.Obj f) = Some e
        /\ forall img : Raw.Image,
             Raw.i f = Some img ->
             (Raw.imageUrl img = Some "" -> Entry.image_url e = None)
             /\ (Raw.width img = Some 0%Z -> Entry.image_width e = None)
             /\ (Raw.height img = Some 0%Z -> Entry.image_height e = None))
  /\ (let it :=
        Raw.Obj {| Raw.id := Some "tt0133093"; Raw.l := Some "The Matrix";
                   Raw.q := Some "feature"; Raw.y := Some 1999%Z;
                   Raw.rank := Some 1%Z;
                   Raw.i := Some {| Raw.imageUrl := Some "";
                                    Raw.width := Some 0%Z;
                                    Raw.height := Some 0%Z |} |} in
      exists e : Entry.t,
        titles (normalize [it] true) = [e]
        /\ Entry.image_url e = None
        /\ Entry.image_width e = None
        /\ Entry.image_height e = None).
Proof.
  split.
  - intros items e He.
    assert (e ∈ survivors items true) as Hs.
    { revert He. unfold normalize. simpl. by rewrite arraySort_perm. }
    apply survivors_first in Hs as (k1 & it & k2 & -> & Hit & _).
    destruct (toEntry_id _ _ _ Hit) as (f & -> & _).
    exists f. split; [set_solver |]. split; [done |].
    intros img Himg. apply toEntry_images in Hit as (Hu & Hw & Hh).
    rewrite Hu, Hw, Hh, Himg. simpl.
    split; [by intros -> |]. split; by intros ->.
  - eexists. split; [vm_compute; reflexivity |]. done.
Qed.

(** ** The JSONP loader *)

Lemma Fetch_handle_settled (ev : Fetch.event) (st : Fetch.t) :
  Fetch.done st = true -> Fetch.handle ev st = st.
Proof.
  intros Hd. destruct ev; simpl; unfold Fetch.finish; by rewrite Hd.
Qed.

Lemma Fetch_run_settled (evs : list Fetch.event) (st : Fetch.t) :
  Fetch.done st = true -> Fetch.run evs st = st.
Proof.
  intros Hd. induction evs as [|ev evs IH]; simpl; [done |].
  by rewrite Fetch_handle_settled.
Qed.

Lemma Fetch_finish_pending (val : option Suggestion) (st : Fetch.t) :
  Fetch.done st = false -> Fetch.promise st = None ->
  Fetch.done (Fetch.finish val st) = true
  /\ Fetch.promise (Fetch.finish val st) = Some val
  /\ Fetch.timer (Fetch.finish val st) = false
  /\ Fetch.callback (Fetch.finish val st) = false
  /\ Fetch.script (Fetch.finish val st) = false.
Proof.
  intros Hd Hp. unfold Fetch.finish. rewrite Hd. simpl. by rewrite Hp.
Qed.

(** The first event settles the call; later ones change nothing. *)
Lemma Fetch_first_event_wins (q : string) (timeoutMs : nat)
    (ev : Fetch.event) (evs : list Fetch.event) :
  Fetch.promise (Fetch.run (ev :: evs) (Fetch.loadSuggest q timeoutMs))
  = Some match ev with
         | Fetch.CallbackInvoked data => orNull data
         | _ => None
         end.
Proof.
  simpl. rewrite Fetch_run_settled; by destruct ev.
Qed.

(** For a query of code units below 256, on which the executor of the
    promise does not raise: the promise of [loadSuggest] is pending, with
    its timer armed,
    until an event arrives, and the first event resolves it: with [null]
    when the timer fires or the script element reports an error, with
    [data || null] when the callback is invoked, which is [null] for an
    absent or falsy payload.  Whatever arrives later leaves the resolved
    value as it is. *)
Theorem loadSuggest_resolves (q : string) (timeoutMs : nat) (later : list Fetch.event) :
  (Fetch.promise (Fetch.loadSuggest q timeoutMs) = None
   /\ Fetch.timer (Fetch.loadSuggest q timeoutMs) = true)
  /\ Fetch.promise (Fetch.run (Fetch.TimerFires :: later) (Fetch.loadSuggest q timeoutMs))
     = Some None
  /\ Fetch.promise (Fetch.run (Fetch.ScriptError :: later) (Fetch.loadSuggest q timeoutMs))
     = Some None
  /\ (forall data : CallbackArg,
        Fetch.promise
          (Fetch.run (Fetch.CallbackInvoked data :: later) (Fetch.loadSuggest q timeoutMs))
        = Some (orNull data))
  /\ (orNull ArgUndefined = None /\ orNull ArgNull = None /\ orNull ArgFalse = None
      /\ orNull ArgZero = None /\ orNull ArgEmptyString = None)
  /\ (forall ev : Fetch.event,
        Fetch.nonSuccess ev ->
        Fetch.promise (Fetch.run (ev :: later) (Fetch.loadSuggest q timeoutMs))
        = Some None)
  /\ (forall ev : Fetch.event,
        exists val : option Suggestion,
          Fetch.promise (Fetch.run (ev :: later) (Fetch.loadSuggest q timeoutMs))
          = Some val).
Proof.
  split; [done |].
  split; [apply Fetch_first_event_wins |].
  split; [apply Fetch_first_event_wins |].
  split; [intros data; apply Fetch_first_event_wins |].
  split; [done |].
  split.
  - intros ev Hev. rewrite Fetch_first_event_wins.
    destruct ev; simpl in *; by try rewrite Hev.
  - intros ev. eexists. apply Fetch_first_event_wins.
Qed.

(** ** Progress percentages *)

Lemma pctAscending_table :
  forallb (fun n => pctAscending n && pctBelow100 n) (seq 1 maxTotal) = true.
Proof. vm_compute. reflexivity. Qed.

Lemma pctAscending_upto (n : nat) :
  0 < n <= maxTotal -> pctAscending n = true.
Proof.
  intros Hn. pose proof pctAscending_table as H.
  rewrite forallb_forall in H.
  assert (pctAscending n && pctBelow100 n = true) as Hb
    by (apply H, in_seq; unfold maxTotal in *; lia).
  by apply andb_true_iff in Hb as [? _].
Qed.

Lemma pctBelow100_upto (n k : nat) :
  0 < n <= maxTotal -> k < n -> (pctOf k n < 100)%Z.
Proof.
  intros Hn Hk. pose proof pctAscending_table as H.
  rewrite forallb_forall in H.
  assert (pctAscending n && pctBelow100 n = true) as Hb
    by (apply H, in_seq; unfold maxTotal in *; lia).
  apply andb_true_iff in Hb as [_ Hb]. unfold pctBelow100 in Hb.
  rewrite forallb_forall in Hb. apply Z.ltb_lt, Hb, in_seq. lia.
Qed.

Lemma maxQueries_maxTotal : maxQueries <= maxTotal.
Proof. vm_compute. lia. Qed.

(** The bound [maxTotal] is sharp. *)
Example pctOf_199_of_200 : pctOf 199 200 = 100%Z /\ pctOf 198 199 = 99%Z.
Proof. vm_compute. done. Qed.

Lemma pctOf_mono (n a b : nat) :
  pctAscending n = true -> a <= b <= n -> (pctOf a n <= pctOf b n)%Z.
Proof.
  unfold pctAscending. rewrite !andb_true_iff, forallb_forall.
  intros [[_ Hstep] _] [Hab Hbn].
  induction Hab as [|b Hab IH]; [lia |].
  etransitivity; [apply IH; lia |].
  apply Z.leb_le, Hstep, in_seq. lia.
Qed.

Lemma pctOf_all (n : nat) : pctAscending n = true -> pctOf n n = 100%Z.
Proof.
  unfold pctAscending. rewrite !andb_true_iff. intros [_ H]. by apply Z.eqb_eq.
Qed.

Lemma pctOf_range (n k : nat) :
  pctAscending n = true -> k <= n -> (0 <= pctOf k n <= 100)%Z.
Proof.
  intros Hn Hk.
  assert (pctOf 0 n = 0%Z) as H0.
  { revert Hn. unfold pctAscending. rewrite !andb_true_iff.
    intros [[H _] _]. by apply Z.eqb_eq. }
  pose proof (pctOf_mono n 0 k Hn) as Hlo.
  pose proof (pctOf_mono n k n Hn) as Hhi.
  rewrite H0 in Hlo. rewrite (pctOf_all n Hn) in Hhi. lia.
Qed.

(** ** The concurrent loader *)

Lemma count_app (p : Pool.Worker -> bool) (ws1 ws2 : list Pool.Worker) :
  Pool.count p (ws1 ++ ws2) = Pool.count p ws1 + Pool.count p ws2.
Proof. induction ws1 as [|w ws1 IH]; simpl; [done | rewrite IH; lia]. Qed.

Lemma count_le_length (p : Pool.Worker -> bool) (ws : list Pool.Worker) :
  Pool.count p ws <= length ws.
Proof. induction ws as [|w ws IH]; simpl; [done | destruct (p w); lia]. Qed.

(** Replacing one worker moves each count by that worker alone. *)
Lemma count_insert (p : Pool.Worker -> bool) (ws : list Pool.Worker)
    (k : nat) (old x : Pool.Worker) :
  ws !! k = Some old ->
  Pool.count p (<[k := x]> ws) + (if p old then 1 else 0)
  = Pool.count p ws + (if p x then 1 else 0).
Proof.
  revert k. induction ws as [|w ws IH]; intros k; [done |].
  destruct k as [|k]; simpl.
  - intros [= ->]. lia.
  - intros H. specialize (IH k H). lia.
Qed.

Lemma returned_counts (ws : list Pool.Worker) :
  forallb Pool.isExited ws = true ->
  Pool.count Pool.isAwaiting ws = 0
  /\ Pool.count (fun w => negb (Pool.isExited w)) ws = 0
  /\ Pool.count Pool.isExited ws = length ws.
Proof.
  induction ws as [|w ws IH]; simpl; [done |].
  rewrite andb_true_iff. intros [Hw Hws]. destruct (IH Hws) as (H1 & H2 & H3).
  destruct w; try done. simpl. lia.
Qed.

Ltac pool_simpl :=
  cbn [Pool.afterFetch Pool.setWorker Pool.results Pool.i Pool.done
       Pool.canceled Pool.emitted Pool.workers].

Section PoolFacts.
Context (cfg : Config) (queries : list string).

Abbreviation n := (length queries).
Abbreviation stepq := (Pool.step cfg queries).
Abbreviation execq := (Pool.exec cfg queries).
Abbreviation startq := (Pool.start cfg queries).
Abbreviation Invq := (Pool.Inv cfg queries).

Lemma exec_snoc (es : list Pool.event) (e : Pool.event) (st : Pool.t) :
  execq (es ++ [e]) st = execq es st ≫= stepq e.
Proof.
  revert st. induction es as [|e' es IH]; intros st; simpl.
  - by destruct (stepq e st).
  - destruct (stepq e' st); [apply IH | done].
Qed.

(** The first [k] calls of [worker()] claim the queries 0, ..., k-1. *)
Lemma spawn_iter (k : nat) :
  k <= n ->
  let st := Nat.iter k (Pool.spawn cfg queries) Pool.fresh in
  Pool.i st = k /\ Pool.done st = 0 /\ Pool.canceled st = false
  /\ Pool.emitted st = [] /\ Pool.results st = []
  /\ length (Pool.workers st) = k
  /\ Pool.count Pool.isAwaiting (Pool.workers st) = k
  /\ Pool.count Pool.isExited (Pool.workers st) = 0.
Proof.
  induction k as [|k IH]; intros Hk; [done |].
  destruct IH as (Hi & Hd & Hc & He & Hr & Hl & Ha & Hx); [lia |].
  cbn zeta. rewrite Nat.iter_succ.
  set (st := Nat.iter k (Pool.spawn cfg queries) Pool.fresh) in *.
  unfold Pool.spawn, Pool.enterLoop. rewrite Hc, Hi. simpl.
  assert ((k <? n) = true) as -> by (apply Nat.ltb_lt; lia). simpl.
  rewrite length_app, !count_app, Hl, Ha, Hx. simpl.
  repeat split; (done || lia).
Qed.

Lemma start_facts :
  Pool.i startq = Pool.threads cfg queries /\ Pool.done startq = 0
  /\ Pool.canceled startq = false
  /\ Pool.emitted startq = [] /\ Pool.results startq = []
  /\ length (Pool.workers startq) = Pool.threads cfg queries
  /\ Pool.count Pool.isAwaiting (Pool.workers startq) = Pool.threads cfg queries
  /\ Pool.count Pool.isExited (Pool.workers startq) = 0.
Proof. apply (spawn_iter (Pool.threads cfg queries)). unfold Pool.threads. lia. Qed.

Lemma start_Inv : Invq startq.
Proof.
  destruct start_facts as (Hi & Hd & Hc & He & Hr & Hl & Ha & Hx).
  split.
  - rewrite Hi. unfold Pool.threads. lia.
  - unfold Pool.inFlight. lia.
  - by rewrite He, Hd.
  - done.
  - lia.
  - lia.
Qed.

(** Every turn of the event loop keeps the invariant. *)
Lemma step_Inv (e : Pool.event) (st st' : Pool.t) :
  Invq st -> stepq e st = Some st' -> Invq st'.
Proof.
  intros [Hcur Hdone Hem Hlen Hexit Hcl]. unfold Pool.inFlight in Hdone.
  destruct e as [|w ev|w]; simpl.
  - (* the global timer *)
    destruct (Pool.canceled st || Pool.returned st); [done |].
    intros [= <-]. split; simpl; auto.
  - (* an event of a fetch *)
    destruct (Pool.workers st !! w) as [[my f| |]|] eqn:Hw; try done.
    destruct (Fetch.promise (Fetch.handle ev f)) as [data|].
    + intros [= <-].
      pose proof (count_insert Pool.isAwaiting _ _ _ Pool.Sleeping Hw) as Ha.
      pose proof (count_insert Pool.isExited _ _ _ Pool.Sleeping Hw) as Hx.
      simpl in Ha, Hx.
      split; unfold Pool.inFlight; pool_simpl;
        [done | lia | | by rewrite length_insert | | done].
      * rewrite Hem, seq_S, fmap_app. done.
      * intros H. apply Hexit. lia.
    + intros [= <-].
      pose proof (count_insert Pool.isAwaiting _ _ _
                    (Pool.Awaiting my (Fetch.handle ev f)) Hw) as Ha.
      pose proof (count_insert Pool.isExited _ _ _
                    (Pool.Awaiting my (Fetch.handle ev f)) Hw) as Hx.
      simpl in Ha, Hx.
      split; unfold Pool.inFlight; pool_simpl;
        [done | lia | done | by rewrite length_insert | | done].
      intros H. apply Hexit. lia.
  - (* the end of a sleep *)
    destruct (Pool.workers st !! w) as [[my f| |]|] eqn:Hw; try done.
    unfold Pool.enterLoop.
    destruct (negb (Pool.canceled st) && (Pool.i st <? n)) eqn:Hcond.
    + intros [= <-]. apply andb_true_iff in Hcond as [Hc Hi].
      apply negb_true_iff in Hc. apply Nat.ltb_lt in Hi.
      match goal with |- context [Pool.Awaiting ?m ?f] =>
        pose proof (count_insert Pool.isAwaiting _ _ _ (Pool.Awaiting m f) Hw) as Ha;
        pose proof (count_insert Pool.isExited _ _ _ (Pool.Awaiting m f) Hw) as Hx
      end.
      simpl in Ha, Hx.
      split; unfold Pool.inFlight; pool_simpl;
        [lia | lia | done | by rewrite length_insert | | lia].
      intros H. destruct Hexit as [Hex|Hex]; [lia | congruence | lia].
    + intros [= <-].
      pose proof (count_insert Pool.isAwaiting _ _ _ Pool.Exited Hw) as Ha.
      simpl in Ha.
      split; unfold Pool.inFlight; pool_simpl;
        [done | lia | done | by rewrite length_insert | | done].
      intros _. apply andb_false_iff in Hcond as [Hc|Hi].
      * left. by apply negb_false_iff.
      * right. apply Nat.ltb_ge in Hi. lia.
Qed.

Lemma exec_Inv (es : list Pool.event) (st st' : Pool.t) :
  Invq st -> execq es st = Some st' -> Invq st'.
Proof.
  revert st. induction es as [|e es IH]; intros st Hinv; simpl.
  - by intros [= <-].
  - destruct (stepq e st) as [st1|] eqn:Hstep; [| done].
    apply IH. by eapply step_Inv.
Qed.

Lemma reachable_Inv (es : list Pool.event) (st : Pool.t) :
  execq es startq = Some st -> Invq st.
Proof. apply exec_Inv, start_Inv. Qed.

End PoolFacts.

Lemma emitted_lookup (n done j : nat) (p : Z) :
  (pct <$> (progressOf n <$> seq 1 done)) !! j = Some p ->
  j < done /\ p = pctOf (S j) n.
Proof.
  rewrite <- list_fmap_compose, list_lookup_fmap.
  destruct (seq 1 done !! j) as [k|] eqn:Hk; [| done].
  apply lookup_seq in Hk as [-> Hj]. simpl. by intros [= <-].
Qed.

Lemma emitted_last (n done : nat) :
  0 < done ->
  last (pct <$> (progressOf n <$> seq 1 done)) = Some (pctOf done n).
Proof.
  destruct done as [|d]; [lia |]. intros _.
  rewrite seq_S, !fmap_app. exact (last_snoc (pctOf (S d) n) _).
Qed.

(** A call that has returned has completed every query it claimed. *)
Lemma returned_done (cfg : Config) (queries : list string) (st : Pool.t) :
  Pool.Inv cfg queries st -> Pool.returned st = true -> Pool.done st = Pool.i st.
Proof.
  intros [_ Hdone _ _ _ _] Hret. unfold Pool.inFlight in Hdone.
  apply returned_counts in Hret as (Ha & _). lia.
Qed.

(** A call that returns without cancellation has claimed every query. *)
Lemma returned_uncanceled (cfg : Config) (queries : list string) (st : Pool.t) :
  Pool.Inv cfg queries st -> Pool.returned st = true ->
  Pool.canceled st = false -> 0 < concurrency cfg -> 0 < length queries ->
  Pool.i st = length queries.
Proof.
  intros [_ _ _ Hlen Hexit _] Hret Hc Hcon Hn.
  apply returned_counts in Hret as (_ & _ & Hx).
  destruct Hexit as [Hex|Hex]; [| congruence | done].
  rewrite Hx, Hlen. unfold Pool.threads. lia.
Qed.

(** A call that has not returned can always go on: some worker waits for
    a fetch, whose timer can fire, or for the end of its sleep. *)
Lemma pool_never_stuck (cfg : Config) (queries : list string) (st : Pool.t) :
  Pool.returned st = false ->
  exists e st', Pool.step cfg queries e st = Some st'.
Proof.
  unfold Pool.returned. intros Hret.
  assert (exists w x, Pool.workers st !! w = Some x /\ Pool.isExited x = false)
    as (w & x & Hw & Hx).
  { induction (Pool.workers st) as [|y ws IH]; [done |]. simpl in Hret.
    destruct (Pool.isExited y) eqn:Hy.
    - destruct (IH Hret) as (w & x & Hw & Hx). by exists (S w), x.
    - by exists 0, y. }
  destruct x as [my f| |]; [| | done].
  - exists (Pool.Transport w Fetch.TimerFires). simpl. rewrite Hw.
    destruct (Fetch.promise (Fetch.finish None f)); eauto.
  - exists (Pool.Wake w). simpl. rewrite Hw.
    destruct (Pool.enterLoop cfg queries st). eauto.
Qed.

Lemma start_fetchPending (cfg : Config) (queries : list string) :
  Forall Pool.fetchPending (Pool.workers (Pool.start cfg queries)).
Proof.
  unfold Pool.start. induction (Pool.threads cfg queries) as [|k IH]; [constructor |].
  rewrite Nat.iter_succ. unfold Pool.spawn at 1, Pool.enterLoop.
  destruct (negb _ && _); simpl; apply Forall_app; split; try done;
    by repeat constructor.
Qed.

Lemma step_fetchPending (cfg : Config) (queries : list string)
    (e : Pool.event) (st st' : Pool.t) :
  Forall Pool.fetchPending (Pool.workers st) ->
  Pool.step cfg queries e st = Some st' ->
  Forall Pool.fetchPending (Pool.workers st').
Proof.
  intros Hall. destruct e as [|w ev|w]; simpl.
  - destruct (Pool.canceled st || Pool.returned st); [done |]. by intros [= <-].
  - destruct (Pool.workers st !! w) as [[my f| |]|] eqn:Hw; try done.
    pose proof (Forall_lookup_1 _ _ _ _ Hall Hw) as [Hd Hp].
    assert (Fetch.promise (Fetch.handle ev f) <> None) as Hsettled.
    { destruct ev; simpl; unfold Fetch.finish; rewrite Hd; simpl; by rewrite Hp. }
    destruct (Fetch.promise (Fetch.handle ev f)); [| done].
    intros [= <-]. simpl. by apply Forall_insert.
  - destruct (Pool.workers st !! w) as [[my f| |]|] eqn:Hw; try done.
    unfold Pool.enterLoop. destruct (negb _ && _); intros [= <-]; simpl;
      by apply Forall_insert.
Qed.

(** Every turn of the event loop uses up one of the remaining events. *)
Ltac count_lia :=
  repeat match goal with H : context [Pool.count _ _] |- _ => revert H end;
  repeat match goal with
         | |- context [Pool.count ?p ?l] => generalize (Pool.count p l); intro
         end;
  intros; lia.

Lemma step_remaining (cfg : Config) (queries : list string)
    (e : Pool.event) (st st' : Pool.t) :
  Pool.Inv cfg queries st ->
  Forall Pool.fetchPending (Pool.workers st) ->
  Pool.step cfg queries e st = Some st' ->
  Pool.remaining queries st' < Pool.remaining queries st.
Proof.
  intros [Hcur _ _ _ _ _] Hall. unfold Pool.remaining.
  assert (forall w x, Pool.workers st !! w = Some x -> Pool.isExited x = false ->
                      Pool.returned st = false) as Hrun.
  { intros w x Hw Hx. unfold Pool.returned.
    apply not_true_is_false. intros Hret.
    rewrite forallb_forall in Hret.
    assert (Pool.isExited x = true); [| congruence].
    apply Hret. eapply list_elem_of_In, list_elem_of_lookup_2, Hw. }
  destruct e as [|w ev|w]; simpl.
  - destruct (Pool.canceled st || Pool.returned st) eqn:Hc; [done |].
    intros [= <-]. pool_simpl. cbn [orb]. lia.
  - destruct (Pool.workers st !! w) as [[my f| |]|] eqn:Hw; try done.
    pose proof (Forall_lookup_1 _ _ _ _ Hall Hw) as [Hd Hp].
    assert (Fetch.promise (Fetch.handle ev f) <> None) as Hsettled.
    { destruct ev; simpl; unfold Fetch.finish; rewrite Hd; simpl; by rewrite Hp. }
    destruct (Fetch.promise (Fetch.handle ev f)); [| done].
    intros [= <-]. pool_simpl.
    pose proof (count_insert Pool.isAwaiting _ _ _ Pool.Sleeping Hw) as Ha.
    pose proof (count_insert Pool.isSleeping _ _ _ Pool.Sleeping Hw) as Hs.
    simpl in Ha, Hs. rewrite (Hrun _ _ Hw eq_refl).
    destruct (Pool.canceled st); cbn [orb negb andb]; [count_lia |].
    match goal with |- context [if ?b then 0 else 1] => destruct b end; count_lia.
  - destruct (Pool.workers st !! w) as [[my f| |]|] eqn:Hw; try done.
    rewrite (Hrun _ _ Hw eq_refl).
    unfold Pool.enterLoop.
    destruct (negb (Pool.canceled st) && (Pool.i st <? length queries)) eqn:Hcond;
      intros [= <-]; pool_simpl.
    + apply andb_true_iff in Hcond as [Hc Hi]. apply Nat.ltb_lt in Hi.
      match goal with |- context [Pool.Awaiting ?m ?f] =>
        pose proof (count_insert Pool.isAwaiting _ _ _ (Pool.Awaiting m f) Hw) as Ha;
        pose proof (count_insert Pool.isSleeping _ _ _ (Pool.Awaiting m f) Hw) as Hs
      end.
      simpl in Ha, Hs.
      destruct (Pool.canceled st); cbn [orb negb andb]; [count_lia |].
      match goal with |- context [if ?b then 0 else 1] => destruct b end; count_lia.
    + pose proof (count_insert Pool.isAwaiting _ _ _ Pool.Exited Hw) as Ha.
      pose proof (count_insert Pool.isSleeping _ _ _ Pool.Exited Hw) as Hs.
      simpl in Ha, Hs.
      destruct (Pool.canceled st); cbn [orb negb andb]; [count_lia |].
      match goal with |- context [if ?b then 0 else 1] => destruct b end; count_lia.
Qed.

(** [loadAll] over [n] queries receives at most [2 n + 1] events: every
    run ends, and by [pool_never_stuck] it ends with [loadAll] returned. *)
Lemma exec_bounded (cfg : Config) (queries : list string)
    (es : list Pool.event) (st : Pool.t) :
  Pool.exec cfg queries es (Pool.start cfg queries) = Some st ->
  length es + Pool.remaining queries st <= 2 * length queries + 1.
Proof.
  assert (Pool.remaining queries (Pool.start cfg queries) <= 2 * length queries + 1)
    as Hstart.
  { destruct (start_facts cfg queries) as (Hi & _ & Hc & _ & _ & Hl & Ha & Hx).
    unfold Pool.remaining. rewrite Hi, Ha, Hc. simpl.
    assert (Pool.count Pool.isSleeping (Pool.workers (Pool.start cfg queries)) = 0)
      as ->.
    { pose proof (start_fetchPending cfg queries) as Hp.
      assert (forall ws, Pool.count Pool.isAwaiting ws = length ws ->
                         Pool.count Pool.isSleeping ws = 0) as Hcount.
      { induction ws as [|x ws IH]; simpl; [done |].
        pose proof (count_le_length Pool.isAwaiting ws).
        destruct x; simpl; intros Hx'; [apply IH | |]; lia. }
      apply Hcount. lia. }
    unfold Pool.threads. destruct (Pool.returned _); lia. }
  pose proof (start_Inv cfg queries) as Hinv.
  pose proof (start_fetchPending cfg queries) as Hpend.
  revert Hstart Hinv Hpend.
  generalize (2 * length queries + 1) as bound.
  generalize (Pool.start cfg queries) as s0.
  induction es as [|e es IH]; intros s0 bound Hs0 Hinv Hpend; simpl.
  - intros [= <-]. lia.
  - destruct (Pool.step cfg queries e s0) as [s1|] eqn:Hstep; [| done].
    intros Hexec.
    pose proof (step_remaining _ _ _ _ _ Hinv Hpend Hstep) as Hlt.
    assert (Pool.remaining queries s1 <= bound - 1) as Hs1 by lia.
    specialize (IH s1 (bound - 1) Hs1 (step_Inv _ _ _ _ _ Hinv Hstep)
                  (step_fetchPending _ _ _ _ _ Hpend Hstep) Hexec).
    lia.
Qed.

(** What the invariant gives about the progress events of a call over a
    non-empty list of at most [maxTotal] queries. *)
Lemma progress_of_Inv (cfg : Config) (queries : list string) (st : Pool.t) :
  0 < length queries <= maxTotal ->
  Pool.Inv cfg queries st ->
  Pool.emitted st = progressOf (length queries) <$> seq 1 (Pool.done st)
  /\ Pool.done st <= length queries
  /\ (forall p, p ∈ pct <$> Pool.emitted st -> (0 <= p <= 100)%Z)
  /\ (forall j k p1 p2,
        j <= k ->
        (pct <$> Pool.emitted st) !! j = Some p1 ->
        (pct <$> Pool.emitted st) !! k = Some p2 ->
        (p1 <= p2)%Z)
  /\ (Pool.returned st = true -> Pool.i st = length queries ->
      last (pct <$> Pool.emitted st) = Some 100%Z)
  /\ (Pool.returned st = true -> Pool.canceled st = false -> 0 < concurrency cfg ->
      last (pct <$> Pool.emitted st) = Some 100%Z)
  /\ (Pool.returned st = true -> length queries <= concurrency cfg ->
      last (pct <$> Pool.emitted st) = Some 100%Z).
Proof.
  intros Hn Hinv.
  pose proof (pctAscending_upto _ Hn) as Hasc.
  pose proof Hinv as [Hcur Hdone Hem Hlen Hexit Hcl].
  assert (Pool.done st <= length queries) as Hle by lia.
  assert (Pool.returned st = true -> Pool.i st = length queries ->
          last (pct <$> Pool.emitted st) = Some 100%Z) as Hfinal.
  { intros Hret Hi.
    pose proof (returned_done _ _ _ Hinv Hret) as Hd.
    rewrite Hem, emitted_last by lia.
    rewrite Hd, Hi. f_equal. by apply pctOf_all. }
  split; [done |]. split; [done |]. split; [| split; [| split; [| split]]].
  - intros p (j & Hj)%list_elem_of_lookup. rewrite Hem in Hj.
    apply emitted_lookup in Hj as [Hj ->]. apply pctOf_range; [done | lia].
  - intros j k p1 p2 Hjk H1 H2. rewrite Hem in H1, H2.
    apply emitted_lookup in H1 as [Hj ->]. apply emitted_lookup in H2 as [Hk ->].
    apply pctOf_mono; [done | lia].
  - done.
  - intros Hret Hc Hcon. apply Hfinal; [done |].
    apply (returned_uncanceled cfg); (done || lia).
  - intros Hret Hcon. apply Hfinal; [done |].
    unfold Pool.threads in Hcl. lia.
Qed.

(** ** The loader on the event loop with its clock *)

Section TimedFacts.
Context (cfg : Config) (queries : list string) (net : string -> Timed.Behaviour).

Abbreviation traced := (Timed.traced cfg queries).

Lemma arm_same (w : nat) (st : Timed.t) :
  Timed.pool (Timed.arm queries net w st) = Timed.pool st
  /\ Timed.trace (Timed.arm queries net w st) = Timed.trace st.
Proof.
  unfold Timed.arm.
  destruct (Pool.workers (Timed.pool st) !! w) as [[my f| |]|]; try done.
  by destruct (Timed.firstEvent (Fetch.timeoutMs f) (net (default "" (queries !! my)))).
Qed.

Lemma snooze_same (w : nat) (st : Timed.t) :
  Timed.pool (Timed.snooze cfg w st) = Timed.pool st
  /\ Timed.trace (Timed.snooze cfg w st) = Timed.trace st.
Proof.
  unfold Timed.snooze.
  by destruct (Pool.workers (Timed.pool st) !! w) as [[my f| |]|].
Qed.

Lemma start_traced : traced (Timed.start cfg queries net).
Proof.
  unfold Timed.start.
  generalize (seq 0 (Pool.threads cfg queries)). intros ws.
  match goal with |- traced (foldl _ ?st0 _) => assert (traced st0) as H0 by done;
    revert H0; generalize st0 end.
  induction ws as [|w ws IH]; intros st Hst; simpl; [done |].
  apply IH. unfold Timed.traced in *. destruct (arm_same w st) as [-> ->]. done.
Qed.

Lemma fire_traced (p : Timed.Pending) (rest : list Timed.Pending) (st : Timed.t) :
  traced st -> traced (Timed.fire cfg queries net p rest st).
Proof.
  unfold Timed.traced, Timed.fire. intros Hst.
  destruct (Pool.step cfg queries (Timed.event p) (Timed.pool st)) as [pool'|] eqn:Hstep;
    [| done].
  assert (Pool.exec cfg queries (Timed.trace st ++ [Timed.event p])
            (Pool.start cfg queries) = Some pool') as Hnew.
  { rewrite exec_snoc, Hst. done. }
  destruct (Timed.event p) as [|w ev|w]; simpl.
  - done.
  - match goal with |- context [Timed.snooze cfg w ?s] =>
      destruct (snooze_same w s) as [-> ->] end. done.
  - match goal with |- context [Timed.arm queries net w ?s] =>
      destruct (arm_same w s) as [-> ->] end. done.
Qed.

(** Every run of the loop with its clock is a run of [loadAll] as the
    step function describes it. *)
Lemma run_traced (fuel : nat) (st : Timed.t) :
  traced st -> traced (Timed.run cfg queries net fuel st).
Proof.
  revert st. induction fuel as [|fuel IH]; intros st Hst; simpl; [done |].
  destruct (Pool.returned (Timed.pool st)); [done |].
  destruct (Timed.popNext (Timed.agenda st)) as [[p rest]|]; [| done].
  by apply IH, fire_traced.
Qed.

Lemma loadAll_traced (raw : list Raw.Item) (events : list ProgressEvent) :
  Timed.loadAll cfg queries net = Some (raw, events) ->
  exists es st,
    Pool.exec cfg queries es (Pool.start cfg queries) = Some st
    /\ Pool.returned st = true
    /\ Pool.results st = raw /\ Pool.emitted st = events.
Proof.
  unfold Timed.loadAll.
  set (st := Timed.run cfg queries net (Timed.fuel queries)
               (Timed.start cfg queries net)).
  destruct (Pool.returned (Timed.pool st)) eqn:Hret; [| done].
  intros [= <- <-]. exists (Timed.trace st), (Timed.pool st).
  split; [| done]. apply run_traced, start_traced.
Qed.

(** The progress events of a call on the loop with its clock, however
    the remote end behaves. *)
Lemma timed_loadAll_progress (raw : list Raw.Item) (events : list ProgressEvent) :
  0 < length queries <= maxTotal ->
  Timed.loadAll cfg queries net = Some (raw, events) ->
  (exists done, done <= length queries
                /\ events = progressOf (length queries) <$> seq 1 done)
  /\ (forall j k p1 p2,
        j <= k ->
        (pct <$> events) !! j = Some p1 -> (pct <$> events) !! k = Some p2 ->
        (p1 <= p2)%Z)
  /\ (length queries <= concurrency cfg -> last (pct <$> events) = Some 100%Z).
Proof.
  intros Hn (es & st & Hexec & Hret & _ & <-)%loadAll_traced.
  apply reachable_Inv in Hexec.
  destruct (progress_of_Inv cfg queries st Hn Hexec)
    as (Hem & Hle & _ & Hmono & _ & _ & Hall).
  split; [by exists (Pool.done st) |]. split; [exact Hmono |].
  intros Hcon. by apply Hall.
Qed.

End TimedFacts.

(** ** The loop with its clock always lets [loadAll] return *)

Lemma popNext_None (ps : list Timed.Pending) : Timed.popNext ps = None -> ps = [].
Proof.
  destruct ps as [|p ps]; [done |]. simpl.
  destruct (Timed.popNext ps) as [[m rest]|]; [| done].
  by destruct (Timed.earlier p m).
Qed.

Lemma popNext_perm (ps : list Timed.Pending) (p : Timed.Pending)
    (rest : list Timed.Pending) :
  Timed.popNext ps = Some (p, rest) -> ps ≡ₚ p :: rest.
Proof.
  revert p rest. induction ps as [|q ps IH]; intros p rest; simpl; [done |].
  destruct (Timed.popNext ps) as [[m r]|] eqn:Hpop.
  - destruct (Timed.earlier q m); intros [= <- <-]; [done |].
    rewrite (IH m r eq_refl). apply Permutation_swap.
  - intros [= <- <-]. by rewrite (popNext_None ps Hpop).
Qed.

Lemma countPending_perm (f : Timed.Pending -> bool) (ps qs : list Timed.Pending) :
  ps ≡ₚ qs -> Timed.countPending f ps = Timed.countPending f qs.
Proof.
  induction 1 as [|x l l' _ IH|x y l|l l' l'' _ IH1 _ IH2]; simpl; lia.
Qed.

Lemma countPending_app (f : Timed.Pending -> bool) (ps qs : list Timed.Pending) :
  Timed.countPending f (ps ++ qs) = Timed.countPending f ps + Timed.countPending f qs.
Proof. induction ps as [|p ps IH]; simpl; [done | rewrite IH; lia]. Qed.

Lemma countPending_zero (f : Timed.Pending -> bool) (ps : list Timed.Pending) :
  Timed.countPending f ps = 0 -> Forall (fun p => f p = false) ps.
Proof.
  induction ps as [|p ps IH]; simpl; [constructor |].
  destruct (f p) eqn:Hp; [lia |]. intros H. constructor; [done | by apply IH].
Qed.

Lemma live_insert (ws : list Pool.Worker) (w w' : nat) (x : Pool.Worker) :
  w < length ws ->
  Timed.live (<[w := x]> ws) w'
  = if decide (w = w') then (if Pool.isExited x then 0 else 1) else Timed.live ws w'.
Proof.
  intros Hw. unfold Timed.live. case_decide as Heq.
  - subst w'. rewrite list_lookup_insert_eq by done. by destruct x.
  - by rewrite list_lookup_insert_ne.
Qed.

Lemma all_awaiting (ws : list Pool.Worker) :
  Pool.count Pool.isAwaiting ws = length ws ->
  forall w x, ws !! w = Some x -> Pool.isAwaiting x = true.
Proof.
  induction ws as [|y ws IH]; simpl; intros Hc w x; [done |].
  pose proof (count_le_length Pool.isAwaiting ws) as Hle.
  destruct (Pool.isAwaiting y) eqn:Hy; [| lia].
  destruct w as [|w]; simpl; [by intros [= <-] |]. apply IH. lia.
Qed.

Section Returns.
Context (cfg : Config) (queries : list string) (net : string -> Timed.Behaviour).

Lemma arm_awaiting (w my : nat) (f : Fetch.t) (st : Timed.t) :
  Pool.workers (Timed.pool st) !! w = Some (Pool.Awaiting my f) ->
  exists p ev,
    Timed.event p = Pool.Transport w ev
    /\ Timed.agenda (Timed.arm queries net w st) = Timed.agenda st ++ [p].
Proof.
  intros Hw. unfold Timed.arm. rewrite Hw.
  destruct (Timed.firstEvent _ _) as [delay ev]. simpl.
  eexists _, ev. split; [| reflexivity]. done.
Qed.

Lemma arm_idle (w : nat) (st : Timed.t) :
  Pool.isAwaiting (default Pool.Exited (Pool.workers (Timed.pool st) !! w)) = false ->
  Timed.arm queries net w st = st.
Proof.
  unfold Timed.arm. by destruct (Pool.workers (Timed.pool st) !! w) as [[my f| |]|].
Qed.

Lemma snooze_sleeping (w : nat) (st : Timed.t) :
  Pool.workers (Timed.pool st) !! w = Some Pool.Sleeping ->
  exists p,
    Timed.event p = Pool.Wake w
    /\ Timed.agenda (Timed.snooze cfg w st) = Timed.agenda st ++ [p].
Proof.
  intros Hw. unfold Timed.snooze. rewrite Hw. simpl.
  eexists. split; [| reflexivity]. done.
Qed.

(** After the first [k] workers have started their fetch, the agenda
    holds the global timer and one event for each of them. *)
Lemma start_agenda (k : nat) :
  k <= Pool.threads cfg queries ->
  let st := foldl (fun st w => Timed.arm queries net w st)
              (Timed.schedule (globalTimeoutMs cfg) Pool.Deadline
                 {| Timed.pool := Pool.start cfg queries; Timed.now := 0;
                    Timed.agenda := []; Timed.nextSeq := 0; Timed.trace := [] |})
              (seq 0 k) in
  Timed.pool st = Pool.start cfg queries
  /\ (forall w, Timed.countPending (Timed.forWorker w) (Timed.agenda st)
                = if w <? k then 1 else 0)
  /\ Forall (Timed.deliverable (Timed.pool st)) (Timed.agenda st)
  /\ Timed.countPending Timed.isDeadline (Timed.agenda st) = 1.
Proof.
  destruct (start_facts cfg queries) as (_ & _ & Hc & _ & _ & Hl & Ha & _).
  induction k as [|k IH]; intros Hk.
  - simpl. split; [done |]. split; [done |]. split; [| done].
    repeat constructor. done.
  - destruct IH as (Hpool & Hcount & Hdel & Hdead); [lia |].
    cbn zeta. rewrite seq_S, foldl_snoc. simpl.
    set (st := foldl _ _ (seq 0 k)) in *.
    destruct (lookup_lt_is_Some_2 (Pool.workers (Pool.start cfg queries)) k)
      as [x Hx]; [lia |].
    assert (Pool.isAwaiting x = true) as Hax.
    { eapply all_awaiting; [| exact Hx]. lia. }
    destruct x as [my f| |]; try done.
    destruct (arm_awaiting k my f st) as (p & ev & Hp & Hag);
      [by rewrite Hpool |].
    destruct (arm_same queries net k st) as [Hpool' _].
    rewrite Hpool', Hag, Hpool. split; [done |]. split; [| split].
    + intros w. rewrite countPending_app, Hcount. simpl.
      unfold Timed.forWorker. rewrite Hp.
      destruct (w <? k) eqn:H1, (w =? k) eqn:H2, (w <? S k) eqn:H3;
        try done;
        repeat match goal with
               | H : (_ <? _) = true |- _ => apply Nat.ltb_lt in H
               | H : (_ <? _) = false |- _ => apply Nat.ltb_ge in H
               | H : (_ =? _) = true |- _ => apply Nat.eqb_eq in H
               | H : (_ =? _) = false |- _ => apply Nat.eqb_neq in H
               end; lia.
    + apply Forall_app. split; [by rewrite Hpool in Hdel |].
      repeat constructor. unfold Timed.deliverable. by rewrite Hp, Hx.
    + rewrite countPending_app, Hdead. simpl. unfold Timed.isDeadline.
      by rewrite Hp.
Qed.

Lemma start_consistent : Timed.Consistent (Timed.start cfg queries net).
Proof.
  destruct (start_facts cfg queries) as (_ & _ & _ & _ & _ & Hl & Ha & _).
  destruct (start_agenda (Pool.threads cfg queries)) as (Hpool & Hcount & Hdel & Hdead);
    [done |].
  unfold Timed.start. split.
  - intros w. rewrite Hcount, Hpool. unfold Timed.live.
    destruct (w <? Pool.threads cfg queries) eqn:Hw.
    + apply Nat.ltb_lt in Hw.
      destruct (lookup_lt_is_Some_2 (Pool.workers (Pool.start cfg queries)) w)
        as [x Hx]; [lia |].
      rewrite Hx. assert (Pool.isAwaiting x = true) as Hax.
      { eapply all_awaiting; [| exact Hx]. lia. }
      by destruct x.
    + apply Nat.ltb_ge in Hw. rewrite lookup_ge_None_2; [done | lia].
  - done.
  - lia.
Qed.

Lemma deliverable_insert (pool pool' : Pool.t) (w : nat) (x : Pool.Worker)
    (q : Timed.Pending) :
  Pool.workers pool' = <[w := x]> (Pool.workers pool) ->
  Pool.canceled pool' = Pool.canceled pool ->
  Timed.forWorker w q = false ->
  Timed.deliverable pool q -> Timed.deliverable pool' q.
Proof.
  unfold Timed.deliverable, Timed.forWorker. intros Hws Hc.
  destruct (Timed.event q) as [|w' ev|w']; [by rewrite Hc | |];
    intros Hne%Nat.eqb_neq; by rewrite Hws, list_lookup_insert_ne.
Qed.

Lemma pending_kind (p : Timed.Pending) :
  match Timed.event p with
  | Pool.Deadline =>
      Timed.isDeadline p = true /\ forall w, Timed.forWorker w p = false
  | Pool.Transport w' _ | Pool.Wake w' =>
      Timed.isDeadline p = false /\ forall w, Timed.forWorker w p = (w =? w')
  end.
Proof. unfold Timed.isDeadline, Timed.forWorker. by destruct (Timed.event p). Qed.

(** The agenda after an event of worker [w] has been delivered and, when
    the worker goes on ([x] has not returned), one new event [new] of that
    worker has been put on it. *)
Lemma agenda_after (p : Timed.Pending) (rest new : list Timed.Pending)
    (pool pool' : Pool.t) (w : nat) (x : Pool.Worker) :
  (forall w', Timed.forWorker w' p = (w' =? w)) ->
  Timed.isDeadline p = false ->
  (forall w', (if Timed.forWorker w' p then 1 else 0)
              + Timed.countPending (Timed.forWorker w') rest
              = Timed.live (Pool.workers pool) w') ->
  Forall (Timed.deliverable pool) rest ->
  Timed.countPending Timed.isDeadline rest <= 1 ->
  w < length (Pool.workers pool) ->
  Timed.live (Pool.workers pool) w = 1 ->
  Pool.workers pool' = <[w := x]> (Pool.workers pool) ->
  Pool.canceled pool' = Pool.canceled pool ->
  Forall (Timed.deliverable pool') new ->
  Timed.countPending Timed.isDeadline new = 0 ->
  (forall w', Timed.countPending (Timed.forWorker w') new
              = if decide (w = w') then (if Pool.isExited x then 0 else 1) else 0) ->
  (forall w', Timed.countPending (Timed.forWorker w') (rest ++ new)
              = Timed.live (Pool.workers pool') w')
  /\ Forall (Timed.deliverable pool') (rest ++ new)
  /\ Timed.countPending Timed.isDeadline (rest ++ new) <= 1.
Proof.
  intros Hfor Hnd Hlive Hrest Hdead Hlt Hw Hws Hc Hnew Hnewd Hnewc.
  assert (Timed.countPending (Timed.forWorker w) rest = 0) as Hnone.
  { specialize (Hlive w). rewrite Hfor, Nat.eqb_refl in Hlive. lia. }
  split; [| split].
  - intros w'. rewrite countPending_app, Hnewc, Hws, live_insert by done.
    specialize (Hlive w'). rewrite Hfor in Hlive. case_decide as Heq.
    + subst w'. lia.
    + assert ((w' =? w) = false) as Hne by (apply Nat.eqb_neq; congruence).
      rewrite Hne in Hlive. lia.
  - apply Forall_app. split; [| done].
    apply countPending_zero in Hnone.
    rewrite Forall_forall in Hrest, Hnone. apply Forall_forall. intros q Hq.
    eapply (deliverable_insert pool pool' w x);
      [done | done | by apply Hnone | by apply Hrest].
  - rewrite countPending_app. lia.
Qed.

(** Firing the next pending event always delivers it, and leaves the
    agenda matching the workers. *)
Lemma fire_consistent (p : Timed.Pending) (rest : list Timed.Pending) (st : Timed.t) :
  Timed.Consistent st ->
  Forall Pool.fetchPending (Pool.workers (Timed.pool st)) ->
  Pool.returned (Timed.pool st) = false ->
  Timed.popNext (Timed.agenda st) = Some (p, rest) ->
  Timed.Consistent (Timed.fire cfg queries net p rest st)
  /\ Pool.step cfg queries (Timed.event p) (Timed.pool st)
     = Some (Timed.pool (Timed.fire cfg queries net p rest st))
  /\ Timed.trace (Timed.fire cfg queries net p rest st)
     = Timed.trace st ++ [Timed.event p].
Proof.
  intros [Hlive Hdel Hdead] Hpend Hret Hpop.
  apply popNext_perm in Hpop.
  rewrite Hpop in Hdel. apply Forall_cons in Hdel as [Hp Hrest].
  assert (forall f, Timed.countPending f (Timed.agenda st)
                    = (if f p then 1 else 0) + Timed.countPending f rest) as Hsplit.
  { intros f. by rewrite (countPending_perm f _ _ Hpop). }
  rewrite Hsplit in Hdead.
  assert (forall w, (if Timed.forWorker w p then 1 else 0)
                    + Timed.countPending (Timed.forWorker w) rest
                    = Timed.live (Pool.workers (Timed.pool st)) w) as Hlive'.
  { intros w. by rewrite <- Hsplit. }
  clear Hlive Hsplit Hpop.
  pose proof (pending_kind p) as Hkind.
  unfold Timed.fire. unfold Timed.deliverable in Hp.
  destruct (Timed.event p) as [|w ev|w] eqn:Hev.
  - (* the global timer *)
    destruct Hkind as [Hisd Hfor]. rewrite Hisd in Hdead.
    simpl. rewrite Hp, Hret. simpl. split; [| done].
    assert (Forall (fun q => Timed.isDeadline q = false) rest) as Hnone.
    { apply countPending_zero. lia. }
    split; simpl.
    + intros w. specialize (Hlive' w). rewrite Hfor in Hlive'. lia.
    + rewrite Forall_forall in Hrest, Hnone. apply Forall_forall. intros q Hq.
      specialize (Hrest q Hq). specialize (Hnone q Hq).
      unfold Timed.deliverable, Timed.isDeadline in *.
      by destruct (Timed.event q).
    + lia.
  - (* an event of a fetch *)
    destruct Hkind as [Hisd Hfor]. rewrite Hisd in Hdead.
    destruct (Pool.workers (Timed.pool st) !! w) as [[my f| |]|] eqn:Hw; try done.
    pose proof (Forall_lookup_1 _ _ _ _ Hpend Hw) as [Hd Hpr].
    assert (w < length (Pool.workers (Timed.pool st))) as Hlt
      by by eapply lookup_lt_Some.
    simpl. rewrite Hw.
    assert (Fetch.promise (Fetch.handle ev f) <> None) as Hsettled.
    { destruct ev; simpl; unfold Fetch.finish; rewrite Hd; simpl; by rewrite Hpr. }
    destruct (Fetch.promise (Fetch.handle ev f)) as [data|]; [| done].
    match goal with |- context [Timed.snooze cfg w ?s] =>
      destruct (snooze_sleeping w s) as (pw & Hpw & Hag);
        [simpl; by apply list_lookup_insert_eq |];
      destruct (snooze_same cfg w s) as [Hpool Htrace]
    end.
    simpl in Hag, Hpool, Htrace.
    pose proof (pending_kind pw) as Hkw. rewrite Hpw in Hkw. destruct Hkw as [Hwd Hwf].
    split; [| split; [by rewrite Hpool | by rewrite Htrace]].
    destruct (agenda_after p rest [pw] (Timed.pool st)
                (Pool.afterFetch queries w data (Timed.pool st)) w Pool.Sleeping)
      as (H1 & H2 & H3); try done.
    + unfold Timed.live. by rewrite Hw.
    + repeat constructor. unfold Timed.deliverable. rewrite Hpw. simpl.
      by apply list_lookup_insert_eq.
    + simpl. by rewrite Hwd.
    + intros w'. simpl. rewrite Hwf. case_decide as Heq.
      * subst w'. by rewrite Nat.eqb_refl.
      * assert ((w' =? w) = false) as -> by (apply Nat.eqb_neq; congruence). done.
    + split; rewrite ?Hpool, ?Hag; done.
  - (* the end of a sleep *)
    destruct Hkind as [Hisd Hfor]. rewrite Hisd in Hdead.
    assert (w < length (Pool.workers (Timed.pool st))) as Hlt
      by by eapply lookup_lt_Some.
    simpl. rewrite Hp. unfold Pool.enterLoop.
    destruct (negb (Pool.canceled (Timed.pool st))
              && (Pool.i (Timed.pool st) <? length queries)) eqn:Hcond.
    + match goal with |- context [Timed.arm queries net w ?s] =>
        match goal with |- context [Pool.Awaiting ?m ?f0] =>
          destruct (arm_awaiting w m f0 s) as (pt & ev & Hpt & Hag);
            [simpl; by apply list_lookup_insert_eq |]
        end;
        destruct (arm_same queries net w s) as [Hpool Htrace]
      end.
      simpl in Hag, Hpool, Htrace.
      pose proof (pending_kind pt) as Hkt. rewrite Hpt in Hkt.
      destruct Hkt as [Htd Htf].
      split; [| split; [by rewrite Hpool | by rewrite Htrace]].
      match type of Hpool with _ = ?pool' =>
        destruct (agenda_after p rest [pt] (Timed.pool st) pool' w
                    (default Pool.Exited (Pool.workers pool' !! w)))
          as (H1 & H2 & H3); try done
      end.
      * unfold Timed.live. by rewrite Hp.
      * simpl. by rewrite list_lookup_insert_eq.
      * repeat constructor. unfold Timed.deliverable. rewrite Hpt. simpl.
        by rewrite list_lookup_insert_eq.
      * simpl. by rewrite Htd.
      * intros w'. simpl. rewrite Htf, list_lookup_insert_eq by done. simpl.
        case_decide as Heq.
        -- subst w'. by rewrite Nat.eqb_refl.
        -- assert ((w' =? w) = false) as -> by (apply Nat.eqb_neq; congruence). done.
      * split; rewrite ?Hpool, ?Hag; done.
    + rewrite arm_idle by (simpl; by rewrite list_lookup_insert_eq).
      simpl. split; [| done].
      destruct (agenda_after p rest [] (Timed.pool st)
                  (Pool.setWorker w Pool.Exited (Timed.pool st)) w Pool.Exited)
        as (H1 & H2 & H3); try done.
      * unfold Timed.live. by rewrite Hp.
      * intros w'. simpl. by case_decide.
      * rewrite app_nil_r in *. by split.
Qed.

Lemma no_live_returned (ws : list Pool.Worker) :
  (forall w, Timed.live ws w = 0) -> forallb Pool.isExited ws = true.
Proof.
  induction ws as [|x ws IH]; intros Hlive; [done |]. simpl.
  pose proof (Hlive 0) as H0. unfold Timed.live in H0. simpl in H0.
  destruct x; try done. simpl. apply IH. intros w. apply (Hlive (S w)).
Qed.

Lemma traced_fetchPending (st : Timed.t) :
  Timed.traced cfg queries st ->
  Forall Pool.fetchPending (Pool.workers (Timed.pool st)).
Proof.
  unfold Timed.traced. generalize (Timed.trace st) (Timed.pool st).
  intros es. pose proof (start_fetchPending cfg queries) as Hstart.
  revert Hstart. generalize (Pool.start cfg queries).
  induction es as [|e es IH]; intros s0 Hs0 s1; simpl.
  - by intros [= <-].
  - destruct (Pool.step cfg queries e s0) as [s'|] eqn:Hstep; [| done].
    apply IH. by eapply step_fetchPending.
Qed.

(** With fuel for the events that can still come, the loop stops with
    [loadAll] returned. *)
Lemma run_returns (fuel : nat) (st : Timed.t) :
  Timed.Consistent st -> Timed.traced cfg queries st ->
  2 * length queries + 1 - length (Timed.trace st) < fuel ->
  Pool.returned (Timed.pool (Timed.run cfg queries net fuel st)) = true.
Proof.
  revert st. induction fuel as [|fuel IH]; intros st Hcons Htr Hfuel; [lia |].
  simpl. destruct (Pool.returned (Timed.pool st)) eqn:Hret; [done |].
  destruct (Timed.popNext (Timed.agenda st)) as [[p rest]|] eqn:Hpop.
  - destruct (fire_consistent p rest st Hcons (traced_fetchPending st Htr) Hret Hpop)
      as (Hcons' & Hstep & Htrace).
    assert (Timed.traced cfg queries (Timed.fire cfg queries net p rest st)) as Htr'
      by by apply fire_traced.
    pose proof (exec_bounded cfg queries _ _ Htr') as Hbound.
    rewrite Htrace, length_app in Hbound. simpl in Hbound.
    apply IH; [done | done |]. rewrite Htrace, length_app. simpl. lia.
  - apply popNext_None in Hpop. destruct Hcons as [Hlive _ _].
    rewrite Hpop in Hlive. simpl in Hlive.
    assert (forallb Pool.isExited (Pool.workers (Timed.pool st)) = true) as Hall.
    { apply no_live_returned. intros w. by rewrite <- Hlive. }
    unfold Pool.returned in Hret. congruence.
Qed.

(** On the loop with its clock [loadAll] returns, whatever the list of
    queries and however the remote end behaves. *)
Lemma timed_loadAll_returns :
  exists raw events, Timed.loadAll cfg queries net = Some (raw, events).
Proof.
  unfold Timed.loadAll. rewrite run_returns; [by eexists _, _ | | |].
  - apply start_consistent.
  - apply start_traced.
  - unfold Timed.fuel. lia.
Qed.

End Returns.

(** ** The progress of the loader *)

(** C1, as stated, fails: of the 40 queries of a search with variations,
    none of which is answered, [loadAll] fetches 30 before the global
    timer stops the workers, and the last percentage it reports is 75. *)
Lemma loadAll_final_percent_below_100 :
  length (expandQueries CONFIG "x" true) = 40
  /\ exists raw events,
       Timed.loadAll CONFIG (expandQueries CONFIG "x" true) (fun _ => Timed.Silent)
       = Some (raw, events)
       /\ length events = 30
       /\ last (pct <$> events) = Some 75%Z.
Proof. split; [done |]. eexists _, _. split; [vm_compute; reflexivity | done]. Qed.

(** A call that has returned with queries left unclaimed was canceled,
    and none of its percentages is 100. *)
Lemma progress_cut (cfg : Config) (queries : list string) (st : Pool.t) :
  0 < length queries <= maxTotal ->
  Pool.Inv cfg queries st ->
  Pool.returned st = true -> Pool.i st < length queries ->
  (forall p, p ∈ pct <$> Pool.emitted st -> (p < 100)%Z)
  /\ (0 < concurrency cfg ->
      Pool.canceled st = true
      /\ exists p, last (pct <$> Pool.emitted st) = Some p /\ (p < 100)%Z).
Proof.
  intros Hn Hinv Hret Hi.
  pose proof (returned_done _ _ _ Hinv Hret) as Hd.
  pose proof Hinv as [_ _ Hem _ _ Hcl].
  split.
  - intros p (j & Hj)%list_elem_of_lookup. rewrite Hem in Hj.
    apply emitted_lookup in Hj as [Hj ->]. apply pctBelow100_upto; [done | lia].
  - intros Hcon. split.
    + destruct (Pool.canceled st) eqn:Hc; [done |].
      pose proof (returned_uncanceled cfg queries st Hinv Hret Hc Hcon). lia.
    + exists (pctOf (Pool.done st) (length queries)). split.
      * rewrite Hem. apply emitted_last. unfold Pool.threads in Hcl. lia.
      * apply pctBelow100_upto; [done | lia].
Qed.

(** C1, amended. In every state [loadAll] can reach over a non-empty list
    of at most [maxTotal] = 199 queries, whatever the order of the
    events, the progress events emitted so far are those of the counts
    1, 2, ..., [done] with [pct = Math.round(done / total * 100)]; their
    percentages lie between 0 and 100 and never decrease; when [loadAll]
    has returned, the last percentage is 100 provided every query was
    claimed, which is the case when the global timer did not cancel the
    call or when the list is no longer than the number of workers; and
    when [loadAll] has returned with queries left unclaimed, every
    percentage emitted is below 100 and, if there is a worker at all, the
    global timer has canceled the call and there is a last percentage.
    On the event loop with its clock, over queries of code units below
    256, [loadAll] returns however the remote end behaves, its
    percentages never decrease, and the last one is 100 if and only if
    every query was fetched. *)
Theorem loadAll_progress_monotone (cfg : Config) (queries : list string)
    (es : list Pool.event) (st : Pool.t) :
  0 < length queries <= maxTotal ->
  Pool.exec cfg queries es (Pool.start cfg queries) = Some st ->
  Pool.emitted st = progressOf (length queries) <$> seq 1 (Pool.done st)
  /\ Pool.done st <= length queries
  /\ (forall p, p ∈ pct <$> Pool.emitted st -> (0 <= p <= 100)%Z)
  /\ (forall j k p1 p2,
        j <= k ->
        (pct <$> Pool.emitted st) !! j = Some p1 ->
        (pct <$> Pool.emitted st) !! k = Some p2 ->
        (p1 <= p2)%Z)
  /\ (Pool.returned st = true -> Pool.i st = length queries ->
      last (pct <$> Pool.emitted st) = Some 100%Z)
  /\ (Pool.returned st = true -> Pool.canceled st = false -> 0 < concurrency cfg ->
      last (pct <$> Pool.emitted st) = Some 100%Z)
  /\ (Pool.returned st = true -> length queries <= concurrency cfg ->
      last (pct <$> Pool.emitted st) = Some 100%Z)
  /\ (Pool.returned st = true -> Pool.i st < length queries ->
      (forall p, p ∈ pct <$> Pool.emitted st -> (p < 100)%Z)
      /\ (0 < concurrency cfg ->
          Pool.canceled st = true
          /\ exists p, last (pct <$> Pool.emitted st) = Some p /\ (p < 100)%Z))
  /\ (forall net : string -> Timed.Behaviour,
        exists raw events,
          Timed.loadAll cfg queries net = Some (raw, events)
          /\ events = progressOf (length queries) <$> seq 1 (length events)
          /\ length events <= length queries
          /\ (forall j k p1 p2,
                j <= k ->
                (pct <$> events) !! j = Some p1 -> (pct <$> events) !! k = Some p2 ->
                (p1 <= p2)%Z)
          /\ (length queries <= concurrency cfg ->
              last (pct <$> events) = Some 100%Z)
          /\ (length events = length queries ->
              last (pct <$> events) = Some 100%Z)
          /\ (length events < length queries ->
              forall p, p ∈ pct <$> events -> (p < 100)%Z)).
Proof.
  intros Hn Hexec.
  pose proof (reachable_Inv cfg queries es st Hexec) as Hinv.
  destruct (progress_of_Inv cfg queries st Hn Hinv)
    as (H1 & H2 & H3 & H4 & H5 & H6 & H7).
  repeat (split; [assumption |]).
  split; [intros Hret Hi; by apply (progress_cut cfg queries st) |].
  intros net. destruct (timed_loadAll_returns cfg queries net) as (raw & events & Hrun).
  exists raw, events. split; [exact Hrun |].
  destruct (timed_loadAll_progress cfg queries net raw events Hn Hrun)
    as (_ & Hmono & Hall).
  destruct (loadAll_traced _ _ _ _ _ Hrun) as (es' & st' & Hexec' & Hret' & _ & Hev).
  pose proof (reachable_Inv cfg queries es' st' Hexec') as Hinv'.
  pose proof (returned_done _ _ _ Hinv' Hret') as Hd'.
  destruct (progress_of_Inv cfg queries st' Hn Hinv')
    as (Hem' & Hle' & _ & _ & Hfin' & _).
  assert (length events = Pool.done st') as Hlen.
  { rewrite <- Hev, Hem'. by rewrite length_fmap, length_seq. }
  split; [rewrite Hlen; by rewrite <- Hev |]. split; [lia |].
  split; [exact Hmono |]. split; [exact Hall |]. split.
  - intros Hall'. rewrite <- Hev. apply Hfin'; [done | lia].
  - intros Hlt. rewrite <- Hev.
    apply (progress_cut cfg queries st' Hn Hinv' Hret'). lia.
Qed.

Lemma loadAll_progress_monotone_witness :
  0 < length ["the"; "new"] <= maxTotal
  /\ exists st,
       Pool.exec CONFIG ["the"; "new"]
         [Pool.Transport 1 Fetch.TimerFires; Pool.Transport 0 Fetch.ScriptError;
          Pool.Wake 0; Pool.Wake 1]
         (Pool.start CONFIG ["the"; "new"]) = Some st
       /\ Pool.returned st = true
       /\ pct <$> Pool.emitted st = [50%Z; 100%Z]
       /\ last (pct <$> Pool.emitted st) = Some 100%Z.
Proof.
  assert (0 < length ["the"; "new"] <= maxTotal) as Hn by (vm_compute; lia).
  split; [exact Hn |].
  match goal with
  | |- exists st, ?run = Some st /\ _ =>
      let r := eval vm_compute in run in
      match r with
      | Some ?st =>
          assert (run = Some st) as Hexec by (vm_compute; reflexivity);
          exists st
      end
  end.
  split; [exact Hexec |]. split; [reflexivity |]. split; [reflexivity |].
  destruct (loadAll_progress_monotone _ _ _ _ Hn Hexec)
    as (_ & _ & _ & _ & Hlast & _).
  apply Hlast; reflexivity.
Defined.

(** C9. Over the empty list, [loadAll] has returned as soon as it has
    started, with an empty result and no progress event, and no event can
    reach it afterwards; on the loop with its clock it returns the empty
    result and an empty list of progress events.  Over any list, the
    number of workers started, all of them running a fetch, is
    [min(concurrency, queries.length)]; it never changes, so at no time
    do more workers run. *)
Theorem loadAll_empty_and_width :
  (forall (cfg : Config) (net : string -> Timed.Behaviour),
      Pool.returned (Pool.start cfg []) = true
      /\ Pool.results (Pool.start cfg []) = []
      /\ Pool.emitted (Pool.start cfg []) = []
      /\ (forall e, Pool.step cfg [] e (Pool.start cfg []) = None)
      /\ Timed.loadAll cfg [] net = Some ([], []))
  /\ (forall (cfg : Config) (queries : list string),
        length (Pool.workers (Pool.start cfg queries))
        = concurrency cfg `min` length queries
        /\ Pool.running (Pool.start cfg queries) = concurrency cfg `min` length queries
        /\ Pool.inFlight (Pool.start cfg queries) = concurrency cfg `min` length queries
        /\ forall es st,
             Pool.exec cfg queries es (Pool.start cfg queries) = Some st ->
             length (Pool.workers st) = concurrency cfg `min` length queries
             /\ Pool.running st <= concurrency cfg `min` length queries).
Proof.
  split.
  - intros cfg net.
    assert (Pool.start cfg [] = Pool.fresh) as Hs.
    { unfold Pool.start, Pool.threads. simpl. by rewrite Nat.min_0_r. }
    rewrite Hs. split; [done |]. split; [done |]. split; [done |]. split.
    + intros [|w ev|w]; [done | |]; by destruct w.
    + unfold Timed.loadAll, Timed.fuel, Timed.start. simpl.
      rewrite Hs. unfold Pool.threads. simpl. rewrite Nat.min_0_r. done.
  - intros cfg queries.
    destruct (start_facts cfg queries) as (_ & _ & _ & _ & _ & Hl & Ha & Hx).
    unfold Pool.threads in *.
    assert (forall ws, Pool.count (fun w => negb (Pool.isExited w)) ws
                       + Pool.count Pool.isExited ws = length ws) as Hsplit.
    { induction ws as [|w ws IH]; simpl; [done |]. destruct w; simpl; lia. }
    split; [done |]. split; [| split; [done |]].
    + unfold Pool.running. specialize (Hsplit (Pool.workers (Pool.start cfg queries))). lia.
    + intros es st Hexec. apply reachable_Inv in Hexec as [_ _ _ Hlen _ _].
      unfold Pool.threads in Hlen. split; [done |].
      unfold Pool.running. specialize (Hsplit (Pool.workers st)). lia.
Qed.

(** ** The submit flow *)

Section SubmitFacts.
Context (cfg : Config).

(** The single-flight guard: while [busy] is set, a submit returns at
    once and leaves every part of the state as it is. *)
Lemma onSubmit_rejected_while_busy (app : App.t) :
  App.busy app = true -> App.onSubmit_enter cfg app = (App.Ret false, app).
Proof. intros Hb. unfold App.onSubmit_enter, App.bind, App.get. by rewrite Hb. Qed.

(** On a page that has the five elements, a submit while idle sets
    [busy], clears the display and suspends at [loadAll]. *)
Lemma onSubmit_enter_started (app : App.t) (v : string) (wantVar wantImg : bool)
    (s0 : App.StatusText) (m0 : App.Markup) :
  App.busy app = false ->
  App.dom app = {| App.el_q := Some v; App.el_variations := Some wantVar;
                   App.el_images := Some wantImg; App.el_status := Some s0;
                   App.el_results := Some m0 |} ->
  App.onSubmit_enter cfg app
  = (App.Ret true,
     {| App.lastJSON := App.lastJSON app; App.busy := true;
        App.dom := {| App.el_q := Some v; App.el_variations := Some wantVar;
                      App.el_images := Some wantImg;
                      App.el_status := Some App.Loading;
                      App.el_results := Some App.Blank |};
        App.storage := App.storage app;
        App.frame := Some {| App.f_q := Str.trim v; App.f_wantVar := wantVar;
                             App.f_wantImg := wantImg;
                             App.f_qs := expandQueries cfg (Str.trim v) wantVar |} |}).
Proof.
  destruct app as [last b d sto fr]. simpl. intros -> ->. reflexivity.
Qed.

Lemma storage_keys_distinct :
  App.STORAGE.lastResults ≠ App.STORAGE.history
  /\ App.STORAGE.lastMeta ≠ App.STORAGE.history.
Proof. split; compute_done. Qed.

(** [pushHistory] does not raise when the stored history is readable. *)
Lemma pushHistory_readable (entry : App.HistEntry) (app : App.t) :
  App.historyReadable (App.storage app) ->
  exists deduped sto',
    App.pushHistory cfg entry app
    = (App.Ret deduped,
       {| App.lastJSON := App.lastJSON app; App.busy := App.busy app;
          App.dom := App.dom app; App.storage := sto';
          App.frame := App.frame app |}).
Proof.
  destruct app as [last b d [its fl] fr]. unfold App.historyReadable. simpl.
  intros Hr. unfold App.pushHistory, App.safeGet, App.safeSet, App.bind, App.get.
  simpl.
  destruct (its !! App.STORAGE.history) as [[|[c|m|h|]]|] eqn:Hh;
    try done; simpl; destruct fl; simpl; eauto.
Qed.

Lemma autosave_readable (m : App.Meta) (app : App.t) :
  App.historyReadable (App.storage app) ->
  exists ok sto',
    App.autosave cfg m app
    = (App.Ret ok,
       {| App.lastJSON := App.lastJSON app; App.busy := App.busy app;
          App.dom := App.dom app; App.storage := sto';
          App.frame := App.frame app |}).
Proof.
  destruct app as [last b d [its fl] fr]. intros Hr.
  unfold App.autosave, App.bind at 1 2 3, App.get, App.safeSet.
  simpl. destruct fl; simpl.
  - unfold App.bind.
    edestruct (pushHistory_readable) as (dd & sto' & ->); [exact Hr |].
    simpl. eauto.
  - unfold App.bind. simpl.
    edestruct (pushHistory_readable) as (dd & sto' & ->).
    { unfold App.historyReadable in *. simpl in *.
      destruct storage_keys_distinct as [H1 H2].
      by rewrite !lookup_insert_ne. }
    simpl. eauto.
Qed.

(** When [loadAll] has returned and the stored history is readable,
    the rest of [onSubmit] publishes the catalog, reports the count and
    clears [busy]. *)
Lemma onSubmit_resume_fulfilled (app : App.t) (f : App.Frame)
    (raw : list Raw.Item) (now : Z) (v : option string) (wv wi : option bool)
    (s0 : App.StatusText) (m0 : App.Markup) :
  App.frame app = Some f ->
  App.dom app = {| App.el_q := v; App.el_variations := wv; App.el_images := wi;
                   App.el_status := Some s0; App.el_results := Some m0 |} ->
  App.historyReadable (App.storage app) ->
  exists sto',
    App.onSubmit_resume cfg (App.Fulfilled raw) now app
    = (App.Ret (),
       {| App.lastJSON := normalize raw (App.f_wantImg f); App.busy := false;
          App.dom := {| App.el_q := v; App.el_variations := wv;
                        App.el_images := wi;
                        App.el_status :=
                          Some (App.Found (len (normalize raw (App.f_wantImg f))));
                        App.el_results :=
                          Some (App.renderCards (normalize raw (App.f_wantImg f))) |};
          App.storage := sto'; App.frame := None |}).
Proof.
  destruct app as [last b d sto fr]. simpl. intros -> -> Hr.
  unfold App.onSubmit_resume, App.bind at 1, App.get. simpl.
  unfold App.bind at 1. simpl. unfold App.tryCatchFinally.
  unfold App.bind at 1 2 3 4. simpl.
  unfold App.bind at 1.
  match goal with |- context [App.autosave cfg ?m ?a] =>
    destruct (autosave_readable m a Hr) as (ok & sto' & ->) end.
  simpl. eauto.
Qed.

(** The progress callback only rewrites the status line. *)
Lemma onProgress_fold (events : list ProgressEvent) (app : App.t)
    (v : option string) (wv wi : option bool)
    (s0 : App.StatusText) (m0 : option App.Markup) :
  App.dom app = {| App.el_q := v; App.el_variations := wv; App.el_images := wi;
                   App.el_status := Some s0; App.el_results := m0 |} ->
  exists s1,
    foldr (fun ev k => App.bind (App.onProgress ev) (fun _ => k)) (App.ret ()) events app
    = (App.Ret (),
       {| App.lastJSON := App.lastJSON app; App.busy := App.busy app;
          App.dom := {| App.el_q := v; App.el_variations := wv;
                        App.el_images := wi;
                        App.el_status := Some s1; App.el_results := m0 |};
          App.storage := App.storage app; App.frame := App.frame app |}).
Proof.
  revert app s0. induction events as [|ev events IH]; intros app s0 Hd.
  - exists s0. destruct app. simpl in *. by subst.
  - simpl. unfold App.bind at 1. destruct app as [last b d sto fr].
    simpl in Hd. subst d. simpl.
    match goal with |- context [foldr _ _ events ?a] =>
      destruct (IH a (App.LoadingPct (pct ev)) eq_refl) as (s1 & ->) end.
    simpl. eauto.
Qed.

(** Whatever the body and the handler do, the [finally] block leaves
    [busy] cleared. *)
Lemma tryCatchFinally_clears_busy (body handler : App.M unit) (app : App.t) :
  App.busy (snd (App.tryCatchFinally body handler (App.setBusy false) app)) = false.
Proof.
  unfold App.tryCatchFinally.
  destruct (body app) as [[[]|] s1]; [done |].
  by destruct (handler s1) as [[[]|] s2].
Qed.

(** A suspended call of [onSubmit] clears [busy] when it resumes, in
    whatever way [loadAll] ended and whatever the page and the storage
    hold. *)
Lemma onSubmit_resume_clears_busy (app : App.t) (awaited : App.Awaited) (now : Z) :
  is_Some (App.frame app) ->
  App.busy (snd (App.onSubmit_resume cfg awaited now app)) = false.
Proof.
  intros [f Hf]. destruct app as [last b d sto fr]. simpl in Hf. subst fr.
  unfold App.onSubmit_resume, App.bind at 1, App.get. simpl.
  unfold App.bind at 1. simpl. apply tryCatchFinally_clears_busy.
Qed.

End SubmitFacts.

Lemma discovery_queries (cfg : Config) (useVariations : bool) :
  expandQueries cfg "" useVariations
  = take (maxQueriesDiscover cfg)
      (["the"; "new"; "best"; "top"; "movie"; "series"; "2024"; "2025"]
       ++ Str.chars "abcdefghijklmnopqrstuvwxyz").
Proof.
  unfold expandQueries. cbn [Str.truthy]. rewrite pushEach_map, list_fmap_id.
  rewrite spreadSet_id; [done |]. compute_done.
Qed.

(** Every list [onSubmit] hands to [loadAll] is non-empty and no longer
    than [maxQueries]. *)
Lemma expandQueries_length (term : string) (useVariations : bool) :
  0 < length (expandQueries CONFIG term useVariations) <= maxQueries.
Proof.
  destruct (decide (term = "")) as [->|Hne].
  - rewrite discovery_queries. vm_compute. lia.
  - destruct useVariations.
    + rewrite expandQueries_variations by done.
      rewrite take_ge; unfold variants; rewrite length_cons, length_fmap;
        vm_compute; lia.
    + unfold expandQueries. destruct term as [|c term]; [done |].
      cbn [Str.truthy]. rewrite spreadSet_id by apply NoDup_singleton.
      vm_compute. lia.
Qed.

(** The loader over the 34 discovery queries when no query is answered:
    30 fetches complete before the global timer fires at 12000 ms. *)
Lemma discovery_silent_loadAll (useVariations : bool) :
  Timed.loadAll CONFIG (expandQueries CONFIG "" useVariations) (fun _ => Timed.Silent)
  = Some ([], progressOf 34 <$> seq 1 30).
Proof. rewrite discovery_queries. vm_compute. reflexivity. Qed.

Lemma discovery_percentages :
  pct <$> (progressOf 34 <$> seq 1 30)
  = [3; 6; 9; 12; 15; 18; 21; 24; 26; 29; 32; 35; 38; 41; 44; 47; 50; 53; 56;
     59; 62; 65; 68; 71; 74; 76; 79; 82; 85; 88]%Z.
Proof. vm_compute. reflexivity. Qed.

(** C3, as stated, fails: with an empty term and no query answered, the
    session ends with an empty catalog and the success status, but the
    last progress it reports is 88 percent, and no report reaches 100. *)
Lemma discovery_all_timeouts_stops_at_88 :
  exists events app',
    App.session CONFIG (fun _ => Timed.Silent) 0
      {| App.lastJSON := {| len := 0; titles := [] |}; App.busy := false;
         App.dom := {| App.el_q := Some ""; App.el_variations := Some false;
                       App.el_images := Some false;
                       App.el_status := Some (App.OtherStatus "");
                       App.el_results := Some App.Blank |};
         App.storage := {| App.items := ∅; App.full := false |};
         App.frame := None |}
    = (App.Ret events, app')
    /\ len (App.lastJSON app') = 0
    /\ App.el_status (App.dom app') = Some (App.Found 0)
    /\ App.busy app' = false
    /\ last (pct <$> events) = Some 88%Z
    /\ Forall (fun p => (p < 100)%Z) (pct <$> events).
Proof.
  eexists _, _. split; [vm_compute; reflexivity |].
  split; [done |]. split; [done |]. split; [done |]. split; [done |].
  compute_done.
Qed.

(** C3, amended. On a page that has the form, the status line and the
    result area, with no session under way and a readable stored history:
    if the submitted term is empty and no query is answered, so that each
    fetch resolves [null] when its timer fires after 2500 ms, the session
    ends with an empty catalog, the success status "Found 0 unique titles"
    and [busy] cleared; its progress reports never decrease and stop at 88
    percent, because 30 of the 34 discovery queries are fetched before the
    global timer fires at 12000 ms and the other 4 are never claimed. *)
Theorem session_discovery_all_timeouts (app : App.t) (v : string)
    (wantVar wantImg : bool) (s0 : App.StatusText) (m0 : App.Markup) (now : Z) :
  App.busy app = false ->
  App.dom app = {| App.el_q := Some v; App.el_variations := Some wantVar;
                   App.el_images := Some wantImg; App.el_status := Some s0;
                   App.el_results := Some m0 |} ->
  Str.trim v = "" ->
  App.historyReadable (App.storage app) ->
  exists events app',
    App.session CONFIG (fun _ => Timed.Silent) now app = (App.Ret events, app')
    /\ App.lastJSON app' = {| len := 0; titles := [] |}
    /\ App.el_status (App.dom app') = Some (App.Found 0)
    /\ App.el_results (App.dom app') = Some App.NoResults
    /\ App.busy app' = false
    /\ App.frame app' = None
    /\ length (expandQueries CONFIG (Str.trim v) wantVar) = 34
    /\ length events = 30
    /\ pct <$> events
       = [3; 6; 9; 12; 15; 18; 21; 24; 26; 29; 32; 35; 38; 41; 44; 47; 50; 53;
          56; 59; 62; 65; 68; 71; 74; 76; 79; 82; 85; 88]%Z
    /\ last (pct <$> events) = Some 88%Z.
Proof.
  intros Hb Hd Ht Hr.
  exists (progressOf 34 <$> seq 1 30).
  unfold App.session. unfold App.bind at 1.
  rewrite (onSubmit_enter_started CONFIG app v wantVar wantImg s0 m0 Hb Hd).
  rewrite Ht. cbv beta iota.
  unfold App.bind at 1, App.get. cbn [App.frame mbind option_bind App.f_qs].
  rewrite discovery_silent_loadAll.
  set (events := progressOf 34 <$> seq 1 30).
  unfold App.bind at 1.
  match goal with |- context [foldr _ _ events ?a] =>
    destruct (onProgress_fold events a (Some v) (Some wantVar) (Some wantImg)
                App.Loading (Some App.Blank) eq_refl) as (s1 & ->)
  end.
  cbn [App.lastJSON App.busy App.storage App.frame].
  unfold App.bind at 1.
  match goal with |- context [App.onSubmit_resume CONFIG ?aw now ?a] =>
    destruct (onSubmit_resume_fulfilled CONFIG a _ [] now _ _ _ _ _ eq_refl eq_refl Hr)
      as (sto' & ->)
  end.
  eexists. split; [reflexivity |].
  split; [done |]. split; [done |]. split; [done |]. split; [done |]. split; [done |].
  split; [by rewrite discovery_queries |].
  split; [done |].
  split; [apply discovery_percentages |].
  subst events. rewrite discovery_percentages. done.
Qed.

Lemma session_discovery_all_timeouts_witness :
  exists events app',
    App.session CONFIG (fun _ => Timed.Silent) 1730000000000
      {| App.lastJSON := {| len := 0; titles := [] |}; App.busy := false;
         App.dom := {| App.el_q := Some "  "; App.el_variations := Some true;
                       App.el_images := Some true;
                       App.el_status := Some (App.OtherStatus "Ready");
                       App.el_results := Some App.NoResults |};
         App.storage := {| App.items := ∅; App.full := true |};
         App.frame := None |}
    = (App.Ret events, app')
    /\ App.el_status (App.dom app') = Some (App.Found 0)
    /\ last (pct <$> events) = Some 88%Z.
Proof.
  assert (App.historyReadable {| App.items := ∅; App.full := true |}) as Hr
    by (vm_compute; exact I).
  edestruct (session_discovery_all_timeouts
               {| App.lastJSON := {| len := 0; titles := [] |}; App.busy := false;
                  App.dom := {| App.el_q := Some "  "; App.el_variations := Some true;
                                App.el_images := Some true;
                                App.el_status := Some (App.OtherStatus "Ready");
                                App.el_results := Some App.NoResults |};
                  App.storage := {| App.items := ∅; App.full := true |};
                  App.frame := None |}
               "  " true true (App.OtherStatus "Ready") App.NoResults 1730000000000
               eq_refl eq_refl eq_refl Hr)
    as (events & app' & Hrun & _ & Hstatus & _ & _ & _ & _ & _ & _ & Hlast).
  exists events, app'. split; [exact Hrun |]. split; [exact Hstatus | exact Hlast].
Defined.

(** A submit that raises before it reaches [try] leaves [busy] set and
    nothing suspended: the statements between [busy = true] and [try] are
    outside the [finally] block. *)
Lemma onSubmit_enter_throw (cfg : Config) (app app' : App.t) :
  App.busy app = false -> App.frame app = None ->
  App.onSubmit_enter cfg app = (App.Throw, app') ->
  App.busy app' = true /\ App.frame app' = None.
Proof.
  destruct app as [last b [v wv wi s m] sto fr]. simpl. intros -> ->.
  unfold App.onSubmit_enter, App.bind, App.get, App.property. simpl.
  destruct v as [v|]; simpl; [| by intros [= <-]].
  destruct wv as [wv|]; simpl; [| by intros [= <-]].
  destruct wi as [wi|]; simpl; [| by intros [= <-]].
  unfold App.setStatus, App.bind, App.property, App.get. simpl.
  destruct s as [s|]; simpl; [| by intros [= <-]].
  unfold App.setResults, App.bind, App.property, App.get. simpl.
  destruct m as [m|]; simpl; [done | by intros [= <-]].
Qed.

(** When nothing is suspended, there is nothing to resume. *)
Lemma onSubmit_resume_nothing (cfg : Config) (app : App.t)
    (awaited : App.Awaited) (now : Z) :
  App.frame app = None -> App.onSubmit_resume cfg awaited now app = (App.Ret (), app).
Proof.
  intros Hf. unfold App.onSubmit_resume, App.bind, App.get. by rewrite Hf.
Qed.

(** C7 fails on the code. On a page without a status element, a submit
    while idle sets [busy] and then raises at [status.textContent], before
    the [try] whose [finally] block clears the flag: the call ends with
    [busy] still set and nothing suspended, so nothing clears the flag
    later, and every later submit returns at the guard. *)
Theorem onSubmit_leaves_busy_set_without_status_element :
  exists app',
    App.onSubmit_enter CONFIG
      {| App.lastJSON := {| len := 0; titles := [] |}; App.busy := false;
         App.dom := {| App.el_q := Some "matrix"; App.el_variations := Some false;
                       App.el_images := Some false; App.el_status := None;
                       App.el_results := Some App.Blank |};
         App.storage := {| App.items := ∅; App.full := false |};
         App.frame := None |}
    = (App.Throw, app')
    /\ App.busy app' = true
    /\ App.frame app' = None
    /\ (forall awaited now,
          App.onSubmit_resume CONFIG awaited now app' = (App.Ret (), app'))
    /\ App.onSubmit_enter CONFIG app' = (App.Ret false, app').
Proof.
  eexists. split; [vm_compute; reflexivity |]. split; [done |]. split; [done |]. split.
  - intros awaited now. by apply onSubmit_resume_nothing.
  - by apply onSubmit_rejected_while_busy.
Qed.

(** On a page that has the five elements the flag goes from idle to busy
    and back: a submit while idle sets it and suspends, and the suspended
    call clears it when it resumes, whether [loadAll] was fulfilled or
    rejected and whether or not the handlers raise. *)
Lemma onSubmit_idle_busy_idle (cfg : Config) (app : App.t) (v : string)
    (wantVar wantImg : bool) (s0 : App.StatusText) (m0 : App.Markup)
    (awaited : App.Awaited) (now : Z) :
  App.busy app = false ->
  App.dom app = {| App.el_q := Some v; App.el_variations := Some wantVar;
                   App.el_images := Some wantImg; App.el_status := Some s0;
                   App.el_results := Some m0 |} ->
  exists app1,
    App.onSubmit_enter cfg app = (App.Ret true, app1)
    /\ App.busy app1 = true
    /\ App.busy (snd (App.onSubmit_resume cfg awaited now app1)) = false.
Proof.
  intros Hb Hd. eexists. split; [by apply (onSubmit_enter_started cfg app v wantVar wantImg s0 m0) |].
  split; [done |]. apply onSubmit_resume_clears_busy. by eexists.
Qed.

(** ** The scenarios of the specification, evaluated *)

(** The term "matrix" without variations gives the one query "matrix". *)
Example scenario_matrix_queries : expandQueries CONFIG "matrix" false = ["matrix"].
Proof. reflexivity. Qed.

(** The payload of the "matrix" scenario: two titles and an item whose
    identifier lacks the prefix. *)
Example scenario_matrix_catalog :
  let c := normalize [sampleItem "tt0133093" "The Matrix" (Some 1%Z);
                      sampleItem "tt0234215" "The Matrix Reloaded" (Some 2%Z);
                      Raw.Obj {| Raw.id := Some "bad_id"; Raw.l := None; Raw.q := None;
                                 Raw.y := None; Raw.rank := None; Raw.i := None |}]
             false in
  len c = 2 /\ Entry.id <$> titles c = ["tt0133093"; "tt0234215"].
Proof. vm_compute. done. Qed.

(** Equal ranks keep their input order, missing ranks go last, a repeated
    identifier keeps its first item, and what is not an object is dropped. *)
Example normalize_ties_and_missing_ranks :
  Entry.title <$> titles (normalize
    [sampleItem "tt1" "a" (Some 2%Z); sampleItem "tt2" "b" None;
     Raw.NotObject;
     sampleItem "tt3" "c" (Some 1%Z); sampleItem "tt4" "d" (Some 2%Z);
     sampleItem "tt1" "a again" (Some 0%Z); sampleItem "tt5" "e" None;
     sampleItem "nm6" "f" (Some 0%Z); sampleItem "" "g" (Some 0%Z)] true)
  = ["c"; "a"; "d"; "b"; "e"].
Proof. vm_compute. reflexivity. Qed.

(** The percentage of 23 completed fetches out of 40: the binary64
    product [0.575 * 100] lies just below 57.5, so [Math.round] gives 57. *)
Example pctOf_23_of_40 : pctOf 23 40 = 57%Z /\ pctOf 30 40 = 75%Z /\ pctOf 30 34 = 88%Z.
Proof. vm_compute. done. Qed.

(** When every query of the discovery list is answered within 100 ms,
    all 34 are fetched and the last percentage is 100. *)
Example discovery_answered_reaches_100 :
  exists raw events,
    Timed.loadAll CONFIG (expandQueries CONFIG "" false)
      (fun _ => Timed.Answers 100 (ArgObject {| d := Some [] |}))
    = Some (raw, events)
    /\ length events = 34 /\ last (pct <$> events) = Some 100%Z.
Proof. eexists _, _. split; [vm_compute; reflexivity | done]. Qed.

(** * Further properties of the source *)

(** ** Query expansion in both modes *)

(** X1. With an empty term (discovery mode) the variations flag has no
    effect: the result is the eight seed words followed by the letters a
    to z, cut at [maxQueriesDiscover]; it has no duplicates, and under
    [CONFIG] it is all 34 of them. *)
Theorem expandQueries_discovery_mode (cfg : Config) (useVariations : bool) :
  expandQueries cfg "" useVariations
  = take (maxQueriesDiscover cfg)
      (["the"; "new"; "best"; "top"; "movie"; "series"; "2024"; "2025"]
       ++ Str.chars "abcdefghijklmnopqrstuvwxyz")
  /\ expandQueries cfg "" useVariations = expandQueries cfg "" (negb useVariations)
  /\ NoDup (expandQueries cfg "" useVariations)
  /\ length (expandQueries cfg "" useVariations) <= maxQueriesDiscover cfg
  /\ length (expandQueries CONFIG "" useVariations) = 34.
Proof.
  rewrite !discovery_queries. split; [done |]. split; [done |]. split; [| split].
  - eapply sublist_NoDup; [| apply sublist_take]. compute_done.
  - rewrite length_take. lia.
  - reflexivity.
Qed.

(** X2. Whatever the term and the flag, [expandQueries] returns no query
    twice and no more queries than the cap of its mode; under [CONFIG] it
    returns at least one query and at most 40. *)
Theorem expandQueries_distinct_and_capped (cfg : Config) (term : string)
    (useVariations : bool) :
  NoDup (expandQueries cfg term useVariations)
  /\ length (expandQueries cfg term useVariations)
     <= (if Str.truthy term then maxQueriesSearch cfg else maxQueriesDiscover cfg)
  /\ 0 < length (expandQueries CONFIG term useVariations) <= 40.
Proof.
  split; [| split].
  - unfold expandQueries.
    destruct (Str.truthy term);
      (eapply sublist_NoDup; [apply spreadSet_NoDup | apply sublist_take]).
  - unfold expandQueries. destruct (Str.truthy term); rewrite length_take; lia.
  - apply (expandQueries_length term useVariations).
Qed.

Lemma mapUnits_append (f : ascii -> ascii) (s t : string) :
  Str.mapUnits f (s +:+ t) = Str.mapUnits f s +:+ Str.mapUnits f t.
Proof.
  induction s as [|c s IH]; [done |].
  rewrite append_cons. simpl. by rewrite append_cons, IH.
Qed.

Lemma append_assoc (s t u : string) : (s +:+ t) +:+ u = s +:+ (t +:+ u).
Proof.
  induction s as [|c s IH]; [done |]. by rewrite !append_cons, IH.
Qed.

Lemma jsonpCallbackName_append (s t : string) :
  jsonpCallbackName (s +:+ t)
  = jsonpCallbackName s +:+ Str.replaceNonAlnum (Str.toLowerCase t).
Proof.
  unfold jsonpCallbackName, Str.replaceNonAlnum, Str.toLowerCase.
  by rewrite !mapUnits_append, append_assoc.
Qed.

Lemma NoDup_fmap_inj_on {A B} (f : A -> B) (l : list A) (x y : A) :
  NoDup (f <$> l) -> x ∈ l -> y ∈ l -> f x = f y -> x = y.
Proof.
  induction l as [|a l IH]; [by intros _ ?%elem_of_nil |].
  rewrite fmap_cons. intros [Ha Hl]%NoDup_cons Hx Hy Heq.
  apply elem_of_cons in Hx. apply elem_of_cons in Hy.
  destruct Hx as [->|Hx], Hy as [->|Hy]; [done | | | by apply IH].
  - exfalso. apply Ha. rewrite Heq. by apply list_elem_of_fmap_2.
  - exfalso. apply Ha. rewrite <- Heq. by apply list_elem_of_fmap_2.
Qed.

(** X3. The queries of one expansion have pairwise distinct callback
    names, so the fetches of one [loadAll] call, which run side by side,
    never register the same entry of [window]. *)
Theorem callback_names_distinct (cfg : Config) (term : string) (useVariations : bool) :
  NoDup (jsonpCallbackName <$> expandQueries cfg term useVariations).
Proof.
  destruct (decide (term = "")) as [->|Hne].
  - rewrite discovery_queries, fmap_take.
    eapply sublist_NoDup; [| apply sublist_take]. compute_done.
  - destruct useVariations.
    + rewrite expandQueries_variations, fmap_take by done.
      eapply sublist_NoDup; [| apply sublist_take].
      unfold variants. rewrite fmap_cons, <- list_fmap_compose.
      assert (NoDup ((fun s => Str.replaceNonAlnum (Str.toLowerCase s)) <$> suffixes))
        as Htails by compute_done.
      assert (forall s, s ∈ suffixes ->
                        Str.replaceNonAlnum (Str.toLowerCase s) ≠ "") as Hne'.
      { intros s Hs Heq. apply (f_equal String.length) in Heq.
        unfold Str.replaceNonAlnum, Str.toLowerCase in Heq.
        rewrite !mapUnits_length in Heq. apply (suffixes_nonempty s Hs).
        by destruct s. }
      apply NoDup_cons. split.
      * intros (s & Hs & Hin)%list_elem_of_fmap. simpl in Hs.
        rewrite jsonpCallbackName_append in Hs.
        apply append_self_r in Hs. by apply (Hne' s).
      * apply NoDup_fmap_2_strong; [| apply suffixes_NoDup].
        intros s1 s2 H1 H2. simpl. rewrite !jsonpCallbackName_append.
        intros Heq%append_inj_r.
        by apply (NoDup_fmap_inj_on
                    (fun s => Str.replaceNonAlnum (Str.toLowerCase s)) suffixes).
    + unfold expandQueries. destruct term as [|c term]; [done |].
      cbn [Str.truthy]. rewrite spreadSet_id by apply NoDup_singleton.
      rewrite fmap_take. eapply sublist_NoDup; [| apply sublist_take].
      apply NoDup_singleton.
Qed.

(** ** File names *)

Lemma filterUnits_units (p : ascii -> bool) (s : string) (k : nat) (c : ascii) :
  String.get k (Str.filterUnits p s) = Some c -> p c = true.
Proof.
  revert k. induction s as [|a s IH]; intros k; simpl; [done |].
  destruct (p a) eqn:Hp; [| apply IH].
  destruct k; simpl; [by intros [= <-] | apply IH].
Qed.

Lemma slugUnit_fixed (c : ascii) :
  isSlugUnit c = true -> Str.lowerUnit c = c /\ Str.isSpace c = false.
Proof.
  destruct c as [[] [] [] [] [] [] [] []]; vm_compute; intros H;
    (done || discriminate H).
Qed.

(** A string of slug units is left as it is by each stage of [slug]. *)
Lemma slug_stages_fixed (s : string) :
  (forall k c, String.get k s = Some c -> isSlugUnit c = true) ->
  Str.toLowerCase s = s
  /\ (forall b, replaceSpaceRuns b s = s)
  /\ Str.filterUnits isSlugUnit s = s.
Proof.
  induction s as [|a s IH]; intros Hall; [done |].
  assert (isSlugUnit a = true) as Ha by apply (Hall 0 a eq_refl).
  destruct (slugUnit_fixed a Ha) as [Hlow Hsp].
  destruct IH as (H1 & H2 & H3); [intros k c Hk; by apply (Hall (S k)) |].
  split; [| split].
  - unfold Str.toLowerCase in *. simpl. by rewrite Hlow, H1.
  - intros b. simpl. by rewrite Hsp, H2.
  - simpl. by rewrite Ha, H3.
Qed.

Lemma lowerUnit_not_space (c : ascii) :
  Str.isSpace c = false -> Str.isSpace (Str.lowerUnit c) = false.
Proof.
  destruct c as [[] [] [] [] [] [] [] []]; vm_compute; intros H;
    (done || discriminate H).
Qed.

(** Nothing is left of a string that holds no letter, digit, underscore
    or white space. *)
Lemma slug_nothing_left (t : string) (b : bool) :
  (forall k c, String.get k t = Some c ->
               isSlugUnit (Str.lowerUnit c) = false /\ Str.isSpace c = false) ->
  Str.filterUnits isSlugUnit (replaceSpaceRuns b (Str.toLowerCase t)) = "".
Proof.
  unfold Str.toLowerCase. revert b. induction t as [|a t IH]; intros b Hall; [done |].
  destruct (Hall 0 a eq_refl) as [Hslug Hsp].
  cbn [Str.mapUnits replaceSpaceRuns].
  rewrite (lowerUnit_not_space a Hsp). cbn [Str.filterUnits]. rewrite Hslug.
  apply IH. intros k c Hk. by apply (Hall (S k)).
Qed.

(** X4. The name [slug] makes for a download is never empty and holds
    only the code units a-z, 0-9 and the underscore; it is "query" when
    there is no input, and when nothing of the input is left, which is
    the case when the input holds no letter, digit, underscore or white
    space; otherwise it is what is left of the input; and [slug] leaves a
    name it has made as it is. *)
Theorem slug_is_safe_file_name (s : option string) :
  slug s ≠ ""
  /\ (forall k c, String.get k (slug s) = Some c -> isSlugUnit c = true)
  /\ slug (Some (slug s)) = slug s
  /\ slug None = "query"
  /\ slug (Some "") = "query"
  /\ (forall t : string,
        (forall k c, String.get k t = Some c ->
                     isSlugUnit (Str.lowerUnit c) = false /\ Str.isSpace c = false) ->
        slug (Some t) = "query")
  /\ (forall t : string,
        Str.filterUnits isSlugUnit (replaceSpaceRuns false (Str.toLowerCase t)) ≠ "" ->
        slug (Some t)
        = Str.filterUnits isSlugUnit (replaceSpaceRuns false (Str.toLowerCase t)))
  /\ slug (Some "!!!") = "query".
Proof.
  assert (forall k c, String.get k (slug s) = Some c -> isSlugUnit c = true) as Hunits.
  { intros k c. unfold slug, orElse.
    destruct (Str.truthy _); [apply filterUnits_units |].
    revert c. do 6 (destruct k as [|k]; [by intros c [= <-] |]). done. }
  assert (slug s ≠ "") as Hne.
  { unfold slug, orElse.
    destruct (Str.filterUnits _ _) as [|a t] eqn:Hf; simpl; [done | done]. }
  split; [done |]. split; [done |]. split.
  { destruct (slug_stages_fixed (slug s) Hunits) as (H1 & H2 & H3).
    unfold slug at 1. simpl. rewrite H1, H2, H3.
    unfold orElse. by destruct (slug s). }
  split; [done |]. split; [done |]. split.
  { intros t Ht. unfold slug. simpl. by rewrite slug_nothing_left. }
  split; [| done].
  intros t Ht. unfold slug, orElse. simpl.
  by destruct (Str.filterUnits _ _).
Qed.

Example slug_examples :
  slug (Some "The  Matrix: Reloaded!") = "the_matrix_reloaded"
  /\ slug (Some "  ") = "_"
  /\ slug (Some "!!!") = "query".
Proof. vm_compute. done. Qed.

(** ** What [loadSuggest] holds and releases *)

(** X5. A call of [loadSuggest] holds a timer, the entry [window[cbName]]
    and a script element from the start; as soon as any event has reached
    it, whichever it is, all three are released and the call is done, and
    whatever reaches it afterwards leaves them released and leaves the
    name and the address of the call as they were. *)
Theorem loadSuggest_releases_resources (q : string) (timeoutMs : nat)
    (ev : Fetch.event) (later : list Fetch.event) :
  (Fetch.timer (Fetch.loadSuggest q timeoutMs) = true
   /\ Fetch.callback (Fetch.loadSuggest q timeoutMs) = true
   /\ Fetch.script (Fetch.loadSuggest q timeoutMs) = true
   /\ Fetch.done (Fetch.loadSuggest q timeoutMs) = false)
  /\ (let st := Fetch.run (ev :: later) (Fetch.loadSuggest q timeoutMs) in
      Fetch.timer st = false /\ Fetch.callback st = false
      /\ Fetch.script st = false /\ Fetch.done st = true
      /\ Fetch.cbName st = jsonpCallbackName q /\ Fetch.url st = buildJSONPUrl q)
  /\ Fetch.run (ev :: later) (Fetch.loadSuggest q timeoutMs)
     = Fetch.handle ev (Fetch.loadSuggest q timeoutMs).
Proof.
  split; [done |].
  assert (Fetch.run (ev :: later) (Fetch.loadSuggest q timeoutMs)
          = Fetch.handle ev (Fetch.loadSuggest q timeoutMs)) as Hrun.
  { simpl. apply Fetch_run_settled. by destruct ev. }
  split; [| done]. cbn zeta. rewrite Hrun. by destruct ev.
Qed.

(** ** What the images flag changes *)

Lemma toEntry_noImages (it : Raw.Item) :
  toEntry false it = noImages <$> toEntry true it.
Proof.
  destruct it as [|f]; simpl; [done |].
  destruct (Raw.id f) as [id|]; [| done].
  by destruct (negb (Str.truthy id) || negb (startsWithTT id)).
Qed.

Lemma omap_noImages (items : list Raw.Item) :
  omap (toEntry false) items = noImages <$> omap (toEntry true) items.
Proof.
  induction items as [|it items IH]; [done |].
  cbn [omap list_omap]. rewrite toEntry_noImages, IH.
  by destruct (toEntry true it).
Qed.

Lemma firstSeen_fmap {A} (key : A -> string) (f : A -> A)
    (seen : gset string) (xs : list A) :
  (forall x, key (f x) = key x) ->
  firstSeen key seen (f <$> xs) = f <$> firstSeen key seen xs.
Proof.
  intros Hkey. revert seen. induction xs as [|x xs IH]; intros seen; [done |].
  rewrite fmap_cons. simpl. rewrite Hkey.
  case_decide; [apply IH |]. rewrite fmap_cons. f_equal. apply IH.
Qed.

Lemma arraySort_fmap {A} (comparefn : A -> A -> Num) (f : A -> A) (xs : list A) :
  (forall a b, comparefn (f a) (f b) = comparefn a b) ->
  arraySort comparefn (f <$> xs) = f <$> arraySort comparefn xs.
Proof.
  intros Hcmp.
  assert (forall x ys, sortInsert comparefn (f x) (f <$> ys)
                       = f <$> sortInsert comparefn x ys) as Hins.
  { intros x ys. induction ys as [|y ys IH]; [done |].
    rewrite fmap_cons. simpl. rewrite Hcmp.
    destruct (isPositive (comparefn x y)); [| done].
    rewrite fmap_cons. f_equal. apply IH. }
  induction xs as [|x xs IH]; [done |].
  rewrite fmap_cons. simpl. by rewrite IH, Hins.
Qed.

(** X6. The images flag changes nothing but the image fields: the
    catalog made without images is the catalog made with images with the
    three image fields of every entry set to [null], in the same order and
    with the same count; so without images every image field is [null],
    whatever the source data holds. *)
Theorem normalize_without_images (items : list Raw.Item) :
  titles (normalize items false) = noImages <$> titles (normalize items true)
  /\ len (normalize items false) = len (normalize items true)
  /\ Entry.id <$> titles (normalize items false)
     = Entry.id <$> titles (normalize items true)
  /\ (forall e, e ∈ titles (normalize items false) ->
        Entry.image_url e = None /\ Entry.image_width e = None
        /\ Entry.image_height e = None).
Proof.
  assert (titles (normalize items false) = noImages <$> titles (normalize items true))
    as Ht.
  { unfold normalize. cbn [titles].
    rewrite omap_noImages, (firstSeen_fmap Entry.id noImages) by done.
    by rewrite (arraySort_fmap byRank noImages). }
  split; [done |]. split; [| split].
  - unfold normalize in *. cbn [len titles] in *. by rewrite Ht, length_fmap.
  - rewrite Ht, <- list_fmap_compose. done.
  - intros e. rewrite Ht. by intros (e' & -> & _)%list_elem_of_fmap.
Qed.

Lemma append_inj_l (s1 s2 t : string) : s1 +:+ t = s2 +:+ t -> s1 = s2.
Proof.
  intros Heq.
  assert (String.length s1 = String.length s2) as Hlen.
  { apply (f_equal String.length) in Heq. rewrite !append_length in Heq. lia. }
  revert s2 Heq Hlen. induction s1 as [|c s1 IH]; intros [|c2 s2]; try done.
  rewrite !append_cons. simpl. intros [= -> Heq] [= Hlen]. f_equal. by apply IH.
Qed.

Lemma toEntry_text (w : bool) (f : Raw.Fields) (e : Entry.t) :
  toEntry w (Raw.Obj f) = Some e ->
  Entry.href e = "https://www.imdb.com/title/" +:+ Entry.id e +:+ "/"
  /\ Entry.title e = orEmpty (Raw.l f) /\ Entry.kind e = orEmpty (Raw.q f)
  /\ Entry.year e = Raw.y f /\ Entry.rank e = Raw.rank f.
Proof.
  simpl. destruct (Raw.id f) as [id|]; [| done].
  destruct (negb (Str.truthy id) || negb (startsWithTT id)); [done |].
  by intros [= <-].
Qed.

Lemma firstSeenBy_sublist (seen : list (nat + string)) (xs : list Loose.Entry) :
  Loose.firstSeenBy seen xs `sublist_of` xs.
Proof.
  revert seen. induction xs as [|x xs IH]; intros seen; simpl; [done |].
  case_decide; [by apply sublist_cons | by apply sublist_skip].
Qed.

Lemma length_omap_le {A B} (f : A -> option B) (xs : list A) :
  length (omap f xs) <= length xs.
Proof.
  induction xs as [|x xs IH]; [done |].
  cbn [omap list_omap]. destruct (f x); simpl; lia.
Qed.

(** X7. Whatever the raw items hold: a catalog never has more entries
    than the input has items; the link of every entry is the title page
    named by the text of its identifier, which starts with tt; and the
    title, kind, year and rank of an entry are those of an item of the
    input, with an empty string for a missing title or kind.  For raw
    items whose [id] is a string or absent, no two entries share a link;
    two items whose [id] is an array that holds tt1 are kept side by
    side with one and the same link. *)
Theorem normalize_links_and_count (items : list Raw.Item) (wantImages : bool) :
  len (normalize items wantImages) <= length items
  /\ (forall e, e ∈ titles (normalize items wantImages) ->
        Entry.href e = "https://www.imdb.com/title/" +:+ Entry.id e +:+ "/")
  /\ NoDup (Entry.href <$> titles (normalize items wantImages))
  /\ (forall e, e ∈ titles (normalize items wantImages) ->
        exists f, Raw.Obj f ∈ items
                  /\ Entry.title e = orEmpty (Raw.l f)
                  /\ Entry.kind e = orEmpty (Raw.q f)
                  /\ Entry.year e = Raw.y f /\ Entry.rank e = Raw.rank f)
  /\ (forall loose : list Loose.Item,
        Loose.len (Loose.normalize loose wantImages) <= length loose
        /\ Loose.len (Loose.normalize loose wantImages)
           = length (Loose.titles (Loose.normalize loose wantImages))
        /\ forall e, e ∈ Loose.titles (Loose.normalize loose wantImages) ->
             exists f text,
               Loose.Obj f ∈ loose
               /\ (Loose.id f = Loose.IdStr text
                   \/ exists ref, Loose.id f = Loose.IdRef ref text)
               /\ startsWithTT text = true
               /\ Loose.e_id e = Loose.id f
               /\ Loose.href e = "https://www.imdb.com/title/" +:+ text +:+ "/"
               /\ Loose.title e = orEmpty (Loose.l f)
               /\ Loose.kind e = orEmpty (Loose.q f)
               /\ Loose.year e = Loose.y f /\ Loose.e_rank e = Loose.rank f)
  /\ Loose.href <$> Loose.titles
       (Loose.normalize [Loose.item (Loose.IdRef 1 "tt1") Loose.RankNone;
                         Loose.item (Loose.IdRef 2 "tt1") Loose.RankNone] wantImages)
     = ["https://www.imdb.com/title/tt1/"; "https://www.imdb.com/title/tt1/"].
Proof.
  assert (forall loose : list Loose.Item,
        Loose.len (Loose.normalize loose wantImages) <= length loose
        /\ Loose.len (Loose.normalize loose wantImages)
           = length (Loose.titles (Loose.normalize loose wantImages))
        /\ forall e, e ∈ Loose.titles (Loose.normalize loose wantImages) ->
             exists f text,
               Loose.Obj f ∈ loose
               /\ (Loose.id f = Loose.IdStr text
                   \/ exists ref, Loose.id f = Loose.IdRef ref text)
               /\ startsWithTT text = true
               /\ Loose.e_id e = Loose.id f
               /\ Loose.href e = "https://www.imdb.com/title/" +:+ text +:+ "/"
               /\ Loose.title e = orEmpty (Loose.l f)
               /\ Loose.kind e = orEmpty (Loose.q f)
               /\ Loose.year e = Loose.y f /\ Loose.e_rank e = Loose.rank f)
    as Hloose.
  { intros loose. unfold Loose.normalize. cbn [Loose.len Loose.titles].
    split; [| split; [done |]].
    - rewrite arraySort_length.
      etransitivity; [apply sublist_length, firstSeenBy_sublist |].
      apply length_omap_le.
    - intros e He. rewrite arraySort_perm in He.
      apply (fun H => elem_of_sublist _ _ _ H (firstSeenBy_sublist _ _)) in He.
      apply list_elem_of_omap in He as (it & Hit & He).
      destruct it as [|f]; [done |]. cbn [Loose.toEntry] in He.
      destruct (Loose.id f) as [|t|ref t|] eqn:Hid; [done | | | done].
      + destruct (negb (Str.truthy t) || negb (startsWithTT t)) eqn:Hc; [done |].
        apply orb_false_elim in Hc as [_ Htt%negb_false_iff].
        injection He as <-. exists f, t. unfold Loose.entryOf.
        cbn [Loose.e_id Loose.href Loose.title Loose.kind Loose.year Loose.e_rank].
        repeat split; [done | by left |..]; done.
      + destruct (negb (startsWithTT t)) eqn:Hc; [done |].
        apply negb_false_iff in Hc.
        injection He as <-. exists f, t. unfold Loose.entryOf.
        cbn [Loose.e_id Loose.href Loose.title Loose.kind Loose.year Loose.e_rank].
        repeat split; [done | right; by eexists |..]; done. }
  assert (Loose.href <$> Loose.titles
       (Loose.normalize [Loose.item (Loose.IdRef 1 "tt1") Loose.RankNone;
                         Loose.item (Loose.IdRef 2 "tt1") Loose.RankNone] wantImages)
     = ["https://www.imdb.com/title/tt1/"; "https://www.imdb.com/title/tt1/"])
    as Hboth by (by destruct wantImages; vm_compute).
  assert (titles (normalize items wantImages) ≡ₚ survivors items wantImages) as Hp
    by apply arraySort_perm.
  assert (forall e, e ∈ titles (normalize items wantImages) ->
            exists f, Raw.Obj f ∈ items /\ toEntry wantImages (Raw.Obj f) = Some e)
    as Hfrom.
  { intros e He. rewrite Hp in He.
    apply survivors_first in He as (k1 & it & k2 & -> & Hit & _).
    destruct (toEntry_id _ _ _ Hit) as (f & -> & _).
    exists f. split; [set_solver | done]. }
  assert (forall e, e ∈ titles (normalize items wantImages) ->
            Entry.href e = "https://www.imdb.com/title/" +:+ Entry.id e +:+ "/")
    as Hhref.
  { intros e (f & _ & Hf)%Hfrom. by apply toEntry_text in Hf as (? & _). }
  split; [| split; [done | split; [| split; [| split; [exact Hloose | exact Hboth]]]]].
  - unfold normalize. cbn [len]. rewrite arraySort_length.
    etransitivity; [apply sublist_length, firstSeen_sublist |].
    clear. induction items as [|it items IH]; [done |].
    cbn [omap list_omap]. destruct (toEntry wantImages it); simpl; lia.
  - assert (NoDup (Entry.id <$> titles (normalize items wantImages))) as Hnd.
    { rewrite Hp. apply firstSeen_NoDup. }
    revert Hhref Hnd. generalize (titles (normalize items wantImages)).
    intros es Hhref Hnd.
    apply NoDup_fmap_2_strong.
    + intros a b Ha Hb. rewrite (Hhref a Ha), (Hhref b Hb).
      intros Heq%append_inj_r%append_inj_l.
      by apply (NoDup_fmap_inj_on Entry.id es).
    + by apply NoDup_fmap_1 in Hnd.
  - intros e (f & Hin & Hf)%Hfrom. exists f. split; [done |].
    by apply toEntry_text in Hf as (_ & ? & ? & ? & ?).
Qed.

(** ** More on the concurrent loader *)

Lemma step_after_cancel (cfg : Config) (queries : list string)
    (e : Pool.event) (st st' : Pool.t) :
  Pool.canceled st = true -> Pool.step cfg queries e st = Some st' ->
  Pool.i st' = Pool.i st /\ Pool.canceled st' = true
  /\ Pool.inFlight st' <= Pool.inFlight st /\ Pool.done st <= Pool.done st'.
Proof.
  intros Hc. unfold Pool.inFlight. destruct e as [|w ev|w]; simpl.
  - by rewrite Hc.
  - destruct (Pool.workers st !! w) as [[my f| |]|] eqn:Hw; try done.
    destruct (Fetch.promise (Fetch.handle ev f)); intros [= <-]; pool_simpl.
    + pose proof (count_insert Pool.isAwaiting _ _ _ Pool.Sleeping Hw) as Ha.
      simpl in Ha. repeat split; (done || lia).
    + pose proof (count_insert Pool.isAwaiting _ _ _
                    (Pool.Awaiting my (Fetch.handle ev f)) Hw) as Ha.
      simpl in Ha. repeat split; (done || lia).
  - destruct (Pool.workers st !! w) as [[my f| |]|] eqn:Hw; try done.
    unfold Pool.enterLoop. rewrite Hc. simpl. intros [= <-]. pool_simpl.
    pose proof (count_insert Pool.isAwaiting _ _ _ Pool.Exited Hw) as Ha.
    simpl in Ha. repeat split; (done || lia).
Qed.

(** X8. The global timer stops further claims and nothing else: once
    [canceled] is set, no run of [loadAll] moves the cursor, starts a
    fetch or clears the flag; the fetches under way can only end, and the
    count of completed fetches can only grow. *)
Theorem no_claim_after_cancel (cfg : Config) (queries : list string)
    (es : list Pool.event) (st st' : Pool.t) :
  Pool.canceled st = true ->
  Pool.exec cfg queries es st = Some st' ->
  Pool.i st' = Pool.i st /\ Pool.canceled st' = true
  /\ Pool.inFlight st' <= Pool.inFlight st /\ Pool.done st <= Pool.done st'.
Proof.
  revert st. induction es as [|e es IH]; intros st Hc; simpl.
  - intros [= <-]. repeat split; (done || lia).
  - destruct (Pool.step cfg queries e st) as [s1|] eqn:Hstep; [| done].
    destruct (step_after_cancel _ _ _ _ _ Hc Hstep) as (Hi & Hc1 & Hf & Hd).
    intros Hexec. destruct (IH s1 Hc1 Hexec) as (Hi' & Hc' & Hf' & Hd').
    repeat split; (done || lia).
Qed.

Lemma no_claim_after_cancel_witness :
  exists st st',
    Pool.exec CONFIG (Str.chars "abcdefgh") [Pool.Deadline]
      (Pool.start CONFIG (Str.chars "abcdefgh")) = Some st
    /\ Pool.canceled st = true
    /\ Pool.exec CONFIG (Str.chars "abcdefgh")
         [Pool.Transport 2 Fetch.TimerFires; Pool.Wake 2] st = Some st'
    /\ Pool.i st = 6 /\ Pool.i st' = 6 /\ Pool.inFlight st' = 5.
Proof.
  match goal with
  | |- exists st st', ?run = Some st /\ _ =>
      let r := eval vm_compute in run in
      match r with
      | Some ?s => exists s
      end
  end.
  match goal with
  | |- exists st', _ /\ _ /\ ?run = Some st' /\ _ =>
      let r := eval vm_compute in run in
      match r with
      | Some ?s => exists s; assert (run = Some s) as Hexec by (vm_compute; reflexivity)
      end
  end.
  split; [vm_compute; reflexivity |]. split; [reflexivity |].
  split; [exact Hexec |]. split; [reflexivity |].
  split; [| reflexivity].
  eapply no_claim_after_cancel in Hexec as (Hi & _); [exact Hi | reflexivity].
Defined.

Lemma spawn_iter_workers (cfg : Config) (queries : list string) (k : nat) :
  k <= length queries ->
  Pool.workers (Nat.iter k (Pool.spawn cfg queries) Pool.fresh)
  = (fun w => Pool.Awaiting w
                (Fetch.loadSuggest (default "" (queries !! w))
                   (perRequestTimeoutMs cfg))) <$> seq 0 k.
Proof.
  induction k as [|k IH]; intros Hk; [done |].
  destruct (spawn_iter cfg queries k) as (Hi & _ & Hc & _); [lia |].
  rewrite Nat.iter_succ, seq_S, fmap_app. unfold Pool.spawn at 1, Pool.enterLoop.
  rewrite Hc, Hi. assert ((k <? length queries) = true) as ->
    by (apply Nat.ltb_lt; lia).
  simpl. by rewrite IH by lia.
Qed.

Lemma start_claimsOk (cfg : Config) (queries : list string) :
  claimsOk cfg queries (Pool.start cfg queries).
Proof.
  destruct (start_facts cfg queries) as (Hi & _).
  assert (forall w my f,
            Pool.workers (Pool.start cfg queries) !! w = Some (Pool.Awaiting my f) ->
            my = w /\ w < Pool.threads cfg queries
            /\ f = Fetch.loadSuggest (default "" (queries !! my))
                     (perRequestTimeoutMs cfg)) as Hshape.
  { intros w my f. unfold Pool.start.
    rewrite spawn_iter_workers by (unfold Pool.threads; lia).
    rewrite list_lookup_fmap.
    destruct (seq 0 (Pool.threads cfg queries) !! w) as [j|] eqn:Hj; [| done].
    apply lookup_seq in Hj as [-> Hlt]. simpl. by intros [= <- <-]. }
  split.
  - intros w my f Hw. destruct (Hshape w my f Hw) as (-> & Hlt & ->).
    rewrite Hi. done.
  - intros w1 w2 my f1 f2 H1 H2.
    destruct (Hshape _ _ _ H1) as (<- & _). by destruct (Hshape _ _ _ H2) as (<- & _).
Qed.

Lemma step_claimsOk (cfg : Config) (queries : list string)
    (e : Pool.event) (st st' : Pool.t) :
  claimsOk cfg queries st -> Pool.step cfg queries e st = Some st' ->
  claimsOk cfg queries st'.
Proof.
  intros [Hin Hdis]. destruct e as [|w ev|w]; simpl.
  - destruct (Pool.canceled st || Pool.returned st); [done |]. by intros [= <-].
  - destruct (Pool.workers st !! w) as [[my f| |]|] eqn:Hw; try done.
    assert (w < length (Pool.workers st)) as Hlt by by eapply lookup_lt_Some.
    destruct (Fetch.promise (Fetch.handle ev f)) eqn:Hp; intros [= <-].
    + split; pool_simpl.
      * intros w' my' f'. destruct (decide (w = w')) as [<-|Hne].
        -- by rewrite list_lookup_insert_eq.
        -- rewrite list_lookup_insert_ne by done. apply Hin.
      * intros w1 w2 my' f1 f2.
        destruct (decide (w = w1)) as [<-|Hne1];
          [by rewrite list_lookup_insert_eq |].
        destruct (decide (w = w2)) as [<-|Hne2];
          [by rewrite (list_lookup_insert_eq _ w) |].
        rewrite !list_lookup_insert_ne by done. apply Hdis.
    + assert (Fetch.handle ev f = f) as ->.
      { destruct (Fetch.done f) eqn:Hd; [by apply Fetch_handle_settled |].
        exfalso. revert Hp. destruct ev; simpl; unfold Fetch.finish;
          rewrite Hd; simpl; by destruct (Fetch.promise f). }
      unfold Pool.setWorker. rewrite list_insert_id by done.
      by destruct st.
  - destruct (Pool.workers st !! w) as [[my f| |]|] eqn:Hw; try done.
    assert (w < length (Pool.workers st)) as Hlt by by eapply lookup_lt_Some.
    unfold Pool.enterLoop.
    destruct (negb (Pool.canceled st) && (Pool.i st <? length queries));
      intros [= <-]; split; pool_simpl.
    + intros w' my' f'. destruct (decide (w = w')) as [<-|Hne].
      * rewrite list_lookup_insert_eq by done. intros [= <- <-]. split; [lia | done].
      * rewrite list_lookup_insert_ne by done. intros Hw'.
        destruct (Hin _ _ _ Hw') as [? ?]. split; [lia | done].
    + intros w1 w2 my' f1 f2.
      destruct (decide (w = w1)) as [<-|Hne1], (decide (w = w2)) as [Heq|Hne2];
        try done.
      * rewrite list_lookup_insert_eq, list_lookup_insert_ne by done.
        intros [= <- <-] H2. destruct (Hin _ _ _ H2). lia.
      * subst w2. rewrite list_lookup_insert_ne, list_lookup_insert_eq by done.
        intros H1 [= <- <-]. destruct (Hin _ _ _ H1). lia.
      * rewrite !list_lookup_insert_ne by done. apply Hdis.
    + intros w' my' f'. destruct (decide (w = w')) as [<-|Hne].
      * by rewrite list_lookup_insert_eq.
      * rewrite list_lookup_insert_ne by done. apply Hin.
    + intros w1 w2 my' f1 f2.
      destruct (decide (w = w1)) as [<-|Hne1];
        [by rewrite list_lookup_insert_eq |].
      destruct (decide (w = w2)) as [<-|Hne2];
        [by rewrite (list_lookup_insert_eq _ w) |].
      rewrite !list_lookup_insert_ne by done. apply Hdis.
Qed.

Lemma exec_claimsOk (cfg : Config) (queries : list string)
    (es : list Pool.event) (st st' : Pool.t) :
  claimsOk cfg queries st -> Pool.exec cfg queries es st = Some st' ->
  claimsOk cfg queries st'.
Proof.
  revert st. induction es as [|e es IH]; intros st Hok; simpl.
  - by intros [= <-].
  - destruct (Pool.step cfg queries e st) as [s1|] eqn:Hstep; [| done].
    apply IH. by eapply step_claimsOk.
Qed.

Lemma step_dispatched (cfg : Config) (queries : list string)
    (e : Pool.event) (st st' : Pool.t) :
  Pool.step cfg queries e st = Some st' ->
  Pool.i st <= Pool.i st'
  /\ match e with
     | Pool.Wake w =>
         match Pool.workers st' !! w with
         | Some (Pool.Awaiting my _) => [my]
         | _ => []
         end
     | _ => []
     end = seq (Pool.i st) (Pool.i st' - Pool.i st).
Proof.
  destruct e as [|w ev|w]; simpl.
  - destruct (Pool.canceled st || Pool.returned st); [done |].
    intros [= <-]. simpl. by rewrite Nat.sub_diag.
  - destruct (Pool.workers st !! w) as [[my f| |]|]; try done.
    destruct (Fetch.promise (Fetch.handle ev f)); intros [= <-]; pool_simpl;
      by rewrite Nat.sub_diag.
  - destruct (Pool.workers st !! w) as [[my f| |]|] eqn:Hw; try done.
    assert (w < length (Pool.workers st)) as Hlt by by eapply lookup_lt_Some.
    unfold Pool.enterLoop.
    destruct (negb (Pool.canceled st) && (Pool.i st <? length queries));
      intros [= <-]; pool_simpl; rewrite list_lookup_insert_eq by done.
    + split; [lia |]. by replace (S (Pool.i st) - Pool.i st) with 1 by lia.
    + by rewrite Nat.sub_diag.
Qed.

Lemma exec_dispatched (cfg : Config) (queries : list string)
    (es : list Pool.event) (st st' : Pool.t) :
  Pool.exec cfg queries es st = Some st' ->
  Pool.i st <= Pool.i st'
  /\ dispatched cfg queries es st = seq (Pool.i st) (Pool.i st' - Pool.i st).
Proof.
  revert st. induction es as [|e es IH]; intros st.
  - intros [= <-]. simpl. by rewrite Nat.sub_diag.
  - cbn [Pool.exec dispatched].
    destruct (Pool.step cfg queries e st) as [s1|] eqn:Hstep; [| done].
    intros Hexec. destruct (step_dispatched _ _ _ _ _ Hstep) as [Hle1 ->].
    destruct (IH _ Hexec) as [Hle2 ->]. split; [lia |].
    replace (Pool.i st' - Pool.i st)
      with ((Pool.i s1 - Pool.i st) + (Pool.i st' - Pool.i s1)) by lia.
    rewrite seq_app. by replace (Pool.i st + (Pool.i s1 - Pool.i st)) with (Pool.i s1) by lia.
Qed.

(** X9. No query is dispatched twice, and every fetch is that of a query
    of the list.  At the start worker [w] fetches the query at index [w],
    for the first [threads] indices; the indices claimed in the course of
    a run continue them in ascending order without gap or repetition up
    to the cursor, so that every index below the cursor has been claimed
    exactly once and no other.  In every state the call reaches, a worker
    that awaits a fetch holds an index below the cursor, the fetch is the
    one [loadSuggest] made for the query at that index with the
    configured timeout, and two workers that hold the same index are the
    same worker. *)
Theorem loadAll_no_double_dispatch (cfg : Config) (queries : list string)
    (es : list Pool.event) (st : Pool.t) :
  Pool.exec cfg queries es (Pool.start cfg queries) = Some st ->
  (forall w my f, Pool.workers st !! w = Some (Pool.Awaiting my f) ->
     my < Pool.i st
     /\ exists q, queries !! my = Some q
                  /\ f = Fetch.loadSuggest q (perRequestTimeoutMs cfg)
                  /\ Fetch.url f = buildJSONPUrl q
                  /\ Fetch.cbName f = jsonpCallbackName q)
  /\ (forall w1 w2 my f1 f2,
        Pool.workers st !! w1 = Some (Pool.Awaiting my f1) ->
        Pool.workers st !! w2 = Some (Pool.Awaiting my f2) -> w1 = w2)
  /\ Pool.workers (Pool.start cfg queries)
     = (fun w => Pool.Awaiting w
                   (Fetch.loadSuggest (default "" (queries !! w))
                      (perRequestTimeoutMs cfg)))
       <$> seq 0 (Pool.threads cfg queries)
  /\ seq 0 (Pool.threads cfg queries)
       ++ dispatched cfg queries es (Pool.start cfg queries)
     = seq 0 (Pool.i st)
  /\ NoDup (seq 0 (Pool.threads cfg queries)
            ++ dispatched cfg queries es (Pool.start cfg queries))
  /\ Pool.i st <= length queries.
Proof.
  intros Hexec.
  pose proof (exec_claimsOk _ _ _ _ _ (start_claimsOk cfg queries) Hexec)
    as [Hin Hdis].
  pose proof (exec_Inv cfg queries es _ st (start_Inv cfg queries) Hexec)
    as [Hcur _ _ _ _ _].
  assert (seq 0 (Pool.threads cfg queries)
            ++ dispatched cfg queries es (Pool.start cfg queries)
          = seq 0 (Pool.i st)) as Hall.
  { destruct (exec_dispatched _ _ _ _ _ Hexec) as [Hle ->].
    destruct (start_facts cfg queries) as (Hi & _). rewrite Hi in *.
    rewrite <- seq_app. f_equal. lia. }
  split; [| split; [exact Hdis | split; [| split; [exact Hall | split; [| done]]]]].
  - intros w my f Hw. destruct (Hin _ _ _ Hw) as [Hlt ->]. split; [done |].
    destruct (lookup_lt_is_Some_2 queries my) as [q Hq]; [lia |].
    exists q. rewrite Hq. by repeat split.
  - apply spawn_iter_workers. unfold Pool.threads. lia.
  - rewrite Hall. apply NoDup_seq.
Qed.

Lemma loadAll_no_double_dispatch_witness :
  exists st,
    Pool.exec CONFIG (Str.chars "abcdefgh")
      [Pool.Transport 2 Fetch.TimerFires; Pool.Wake 2]
      (Pool.start CONFIG (Str.chars "abcdefgh")) = Some st
    /\ Pool.workers st !! 2
       = Some (Pool.Awaiting 6 (Fetch.loadSuggest "g" 2500))
    /\ dispatched CONFIG (Str.chars "abcdefgh")
         [Pool.Transport 2 Fetch.TimerFires; Pool.Wake 2]
         (Pool.start CONFIG (Str.chars "abcdefgh")) = [6]
    /\ forall w f, Pool.workers st !! w = Some (Pool.Awaiting 6 f) -> w = 2.
Proof.
  match goal with
  | |- exists st, ?run = Some st /\ _ =>
      let r := eval vm_compute in run in
      match r with
      | Some ?s => exists s; assert (run = Some s) as Hexec by (vm_compute; reflexivity)
      end
  end.
  split; [exact Hexec |]. split; [reflexivity |]. split; [reflexivity |].
  intros w f Hw.
  exact (proj1 (proj2 (loadAll_no_double_dispatch _ _ _ _ Hexec)) w 2 6 f _ Hw eq_refl).
Defined.

(** X10. A call of [loadAll] neither hangs nor runs on: whatever the
    network does, a run consists of at most two events per query and the
    global timer; a call that has not returned can always take a further
    step; and a call that has returned has completed every query it
    claimed, with no fetch left under way. *)
Theorem loadAll_run_is_finite (cfg : Config) (queries : list string)
    (es : list Pool.event) (st : Pool.t) :
  Pool.exec cfg queries es (Pool.start cfg queries) = Some st ->
  length es <= 2 * length queries + 1
  /\ (Pool.returned st = false ->
      exists e st', Pool.step cfg queries e st = Some st')
  /\ (Pool.returned st = true ->
      Pool.done st = Pool.i st /\ Pool.inFlight st = 0
      /\ length (Pool.emitted st) = Pool.done st).
Proof.
  intros Hexec.
  pose proof (exec_bounded _ _ _ _ Hexec) as Hb.
  pose proof (exec_Inv cfg queries es _ st (start_Inv cfg queries) Hexec) as HI.
  split; [lia |]. split; [apply pool_never_stuck |].
  intros Hret. pose proof (returned_done _ _ _ HI Hret) as Hd.
  destruct HI as [_ Hdone Hem _ _ _].
  split; [done |]. split; [lia |].
  rewrite Hem. by rewrite length_fmap, length_seq.
Qed.

Lemma loadAll_run_is_finite_witness :
  exists st,
    Pool.exec CONFIG ["a"; "b"]
      [Pool.Transport 1 Fetch.ScriptError; Pool.Transport 0 Fetch.TimerFires;
       Pool.Wake 0; Pool.Wake 1]
      (Pool.start CONFIG ["a"; "b"]) = Some st
    /\ Pool.returned st = true /\ Pool.done st = 2 /\ Pool.inFlight st = 0.
Proof.
  match goal with
  | |- exists st, ?run = Some st /\ _ =>
      let r := eval vm_compute in run in
      match r with
      | Some ?s => exists s; assert (run = Some s) as Hexec by (vm_compute; reflexivity)
      end
  end.
  split; [exact Hexec |]. split; [reflexivity |].
  destruct (loadAll_run_is_finite _ _ _ _ Hexec) as (_ & _ & Hret).
  destruct (Hret eq_refl) as (Hd & Hf & _). split; [exact Hd | exact Hf].
Defined.

Lemma delivered_cons (e : Pool.event) (es : list Pool.event) :
  delivered (e :: es) = delivered [e] ++ delivered es.
Proof. unfold delivered. simpl. by rewrite app_nil_r. Qed.

Lemma step_results (cfg : Config) (queries : list string)
    (e : Pool.event) (st st' : Pool.t) :
  Forall Pool.fetchPending (Pool.workers st) ->
  Pool.step cfg queries e st = Some st' ->
  Pool.results st' = Pool.results st ++ delivered [e].
Proof.
  intros Hall. unfold delivered. destruct e as [|w ev|w]; simpl.
  - destruct (Pool.canceled st || Pool.returned st); [done |].
    intros [= <-]. simpl. by rewrite app_nil_r.
  - destruct (Pool.workers st !! w) as [[my f| |]|] eqn:Hw; try done.
    pose proof (Forall_lookup_1 _ _ _ _ Hall Hw) as [Hd Hp].
    rewrite app_nil_r.
    destruct ev as [| |arg]; simpl; unfold Fetch.finish; rewrite Hd; simpl;
      rewrite Hp; intros [= <-]; pool_simpl; rewrite ?app_nil_r; try done.
    destruct arg as [| | | | |[[items|]]]; simpl; by rewrite ?app_nil_r.
  - destruct (Pool.workers st !! w) as [[my f| |]|] eqn:Hw; try done.
    unfold Pool.enterLoop. destruct (negb _ && _); intros [= <-]; simpl;
      by rewrite app_nil_r.
Qed.

Lemma exec_results (cfg : Config) (queries : list string)
    (es : list Pool.event) (st st' : Pool.t) :
  Forall Pool.fetchPending (Pool.workers st) ->
  Pool.exec cfg queries es st = Some st' ->
  Pool.results st' = Pool.results st ++ delivered es.
Proof.
  revert st. induction es as [|e es IH]; intros st Hall.
  - intros [= <-]. by rewrite app_nil_r.
  - rewrite (delivered_cons e es). cbn [Pool.exec].
    destruct (Pool.step cfg queries e st) as [s1|] eqn:Hstep; [| done].
    intros Hexec. rewrite (IH s1); [| by eapply step_fetchPending | done].
    rewrite (step_results _ _ _ _ _ Hall Hstep).
    by rewrite app_assoc.
Qed.

(** X11. What [loadAll] returns is what the callbacks delivered, in the
    order of their arrival and not in the order of the queries: after any
    run the array [results] is the concatenation of the arrays [d] of the
    callback arguments of the run, a timer or a script error adding
    nothing; and on the loop with its clock the call returns the array
    and the progress events of a run of the step function that has
    reached a returned state, of at most two events per query and the
    global timer. *)
Theorem loadAll_results_in_arrival_order (cfg : Config) (queries : list string) :
  (forall es st,
     Pool.exec cfg queries es (Pool.start cfg queries) = Some st ->
     Pool.results st = delivered es)
  /\ (forall net, exists es st raw events,
        Timed.loadAll cfg queries net = Some (raw, events)
        /\ Pool.exec cfg queries es (Pool.start cfg queries) = Some st
        /\ Pool.returned st = true
        /\ raw = Pool.results st
        /\ events = Pool.emitted st
        /\ raw = delivered es
        /\ length es <= 2 * length queries + 1).
Proof.
  assert (forall es st,
            Pool.exec cfg queries es (Pool.start cfg queries) = Some st ->
            Pool.results st = delivered es) as Hres.
  { intros es st Hexec.
    rewrite (exec_results _ _ _ _ _ (start_fetchPending cfg queries) Hexec).
    by destruct (start_facts cfg queries) as (_ & _ & _ & _ & -> & _). }
  split; [exact Hres |].
  intros net. destruct (timed_loadAll_returns cfg queries net) as (raw & events & Hrun).
  destruct (loadAll_traced _ _ _ _ _ Hrun) as (es & st & Hexec & Hret & <- & <-).
  exists es, st, (Pool.results st), (Pool.emitted st).
  split; [done |]. split; [done |]. split; [done |]. split; [done |].
  split; [done |]. split; [by apply Hres |].
  pose proof (exec_bounded _ _ _ _ Hexec). lia.
Qed.

(** ** The time [loadAll] takes *)

Lemma popNext_min (ps : list Timed.Pending) (p : Timed.Pending)
    (rest : list Timed.Pending) :
  Timed.popNext ps = Some (p, rest) ->
  Forall (fun q => Timed.due p <= Timed.due q) rest.
Proof.
  revert p rest. induction ps as [|x ps IH]; intros p rest; simpl; [done |].
  destruct (Timed.popNext ps) as [[m r]|] eqn:Hpop.
  - pose proof (IH m r eq_refl) as Hm. pose proof (popNext_perm _ _ _ Hpop) as Hperm.
    destruct (Timed.earlier x m) eqn:Hearlier; intros [= <- <-].
    + assert (Timed.due x <= Timed.due m) as Hxm.
      { unfold Timed.earlier in Hearlier.
        apply orb_true_iff in Hearlier as [H%Nat.ltb_lt|[H%Nat.eqb_eq _]%andb_true_iff];
          lia. }
      rewrite Hperm. constructor; [done |].
      eapply Forall_impl; [exact Hm |]. simpl. intros. lia.
    + constructor; [| done].
      unfold Timed.earlier in Hearlier.
      apply orb_false_iff in Hearlier as [H%Nat.ltb_ge _]. done.
  - by intros [= <- <-].
Qed.

Lemma firstEvent_delay (timeoutMs : nat) (b : Timed.Behaviour) :
  (Timed.firstEvent timeoutMs b).1 <= timeoutMs.
Proof.
  destruct b as [afterMs data|afterMs|]; simpl; [| | done];
    destruct (afterMs <? timeoutMs) eqn:Hlt; simpl; try done;
    apply Nat.ltb_lt in Hlt; lia.
Qed.

Lemma step_canceled (cfg : Config) (queries : list string)
    (e : Pool.event) (st st' : Pool.t) :
  Pool.step cfg queries e st = Some st' ->
  Pool.canceled st' = match e with Pool.Deadline => true | _ => Pool.canceled st end.
Proof.
  destruct e as [|w ev|w]; simpl.
  - destruct (Pool.canceled st || Pool.returned st); [done |]. by intros [= <-].
  - destruct (Pool.workers st !! w) as [[my f| |]|]; try done.
    by destruct (Fetch.promise (Fetch.handle ev f)); intros [= <-].
  - destruct (Pool.workers st !! w) as [[my f| |]|]; try done.
    unfold Pool.enterLoop. by destruct (negb _ && _); intros [= <-].
Qed.

Lemma handle_timeoutMs (ev : Fetch.event) (f : Fetch.t) :
  Fetch.timeoutMs (Fetch.handle ev f) = Fetch.timeoutMs f.
Proof. destruct ev; simpl; unfold Fetch.finish; by destruct (Fetch.done f). Qed.

Lemma step_timeouts (cfg : Config) (queries : list string)
    (e : Pool.event) (st st' : Pool.t) :
  timeoutsOk cfg (Pool.workers st) ->
  Pool.step cfg queries e st = Some st' ->
  timeoutsOk cfg (Pool.workers st').
Proof.
  unfold timeoutsOk. intros Hall. destruct e as [|w ev|w]; simpl.
  - destruct (Pool.canceled st || Pool.returned st); [done |]. by intros [= <-].
  - destruct (Pool.workers st !! w) as [[my f| |]|] eqn:Hw; try done.
    pose proof (Forall_lookup_1 _ _ _ _ Hall Hw) as Hf. simpl in Hf.
    destruct (Fetch.promise (Fetch.handle ev f)); intros [= <-]; simpl;
      apply Forall_insert; try done. by rewrite handle_timeoutMs.
  - destruct (Pool.workers st !! w) as [[my f| |]|] eqn:Hw; try done.
    unfold Pool.enterLoop. destruct (negb _ && _); intros [= <-]; simpl;
      by apply Forall_insert.
Qed.

Lemma wake_claims (cfg : Config) (queries : list string)
    (w my : nat) (f : Fetch.t) (st st' : Pool.t) :
  Pool.step cfg queries (Pool.Wake w) st = Some st' ->
  Pool.workers st' !! w = Some (Pool.Awaiting my f) ->
  Pool.canceled st = false.
Proof.
  simpl. destruct (Pool.workers st !! w) as [[my' f'| |]|] eqn:Hw; try done.
  assert (w < length (Pool.workers st)) as Hlt by by eapply lookup_lt_Some.
  unfold Pool.enterLoop. destruct (Pool.canceled st); [| done]. simpl.
  intros [= <-]. simpl. by rewrite list_lookup_insert_eq.
Qed.

Section Latency.
Context (cfg : Config) (queries : list string) (net : string -> Timed.Behaviour).

Lemma timely_schedule (delay : nat) (e : Pool.event) (st : Timed.t) :
  Timely cfg st ->
  match e with
  | Pool.Deadline => False
  | Pool.Transport _ _ =>
      Timed.now st + delay <= globalTimeoutMs cfg + perRequestTimeoutMs cfg
  | Pool.Wake _ => Timed.now st + delay <= latencyBound cfg
  end ->
  Timely cfg (Timed.schedule delay e st).
Proof.
  intros [Hfut Hdl Hpend Htr Hwk Hnow Hto] He.
  split; simpl; try done.
  - apply Forall_app. split; [done |]. apply Forall_singleton. simpl. lia.
  - apply Forall_app. split; [done |]. apply Forall_singleton.
    unfold Timed.isDeadline. simpl. by destruct e.
  - intros Hc. apply Exists_app. left. by apply Hpend.
  - apply Forall_app. split; [done |]. apply Forall_singleton. simpl.
    intros w ev ->. done.
  - apply Forall_app. split; [done |]. apply Forall_singleton. simpl.
    intros w ->. done.
Qed.

Lemma timely_arm (w : nat) (st : Timed.t) :
  Timely cfg st ->
  (forall my f, Pool.workers (Timed.pool st) !! w = Some (Pool.Awaiting my f) ->
                Timed.now st <= globalTimeoutMs cfg) ->
  Timely cfg (Timed.arm queries net w st).
Proof.
  intros HT Hnow. unfold Timed.arm.
  destruct (Pool.workers (Timed.pool st) !! w) as [[my f| |]|] eqn:Hw; try done.
  pose proof (firstEvent_delay (Fetch.timeoutMs f) (net (default "" (queries !! my))))
    as Hd.
  destruct (Timed.firstEvent _ _) as [delay ev]. simpl in Hd.
  apply timely_schedule; [done |].
  pose proof (Forall_lookup_1 _ _ _ _ (tm_timeouts _ _ HT) Hw) as Hf. simpl in Hf.
  specialize (Hnow _ _ eq_refl). lia.
Qed.

Lemma timely_snooze (w : nat) (st : Timed.t) :
  Timely cfg st ->
  (Pool.workers (Timed.pool st) !! w = Some Pool.Sleeping ->
   Timed.now st <= globalTimeoutMs cfg + perRequestTimeoutMs cfg) ->
  Timely cfg (Timed.snooze cfg w st).
Proof.
  intros HT Hnow. unfold Timed.snooze.
  destruct (Pool.workers (Timed.pool st) !! w) as [[my f| |]|] eqn:Hw; try done.
  apply timely_schedule; [done |]. specialize (Hnow eq_refl).
  unfold latencyBound. lia.
Qed.

Lemma start_timely : Timely cfg (Timed.start cfg queries net).
Proof.
  unfold Timed.start.
  match goal with
  | |- Timely cfg (foldl _ ?st0 _) =>
      assert (Timely cfg st0 /\ Timed.now st0 = 0) as H0; [| revert H0; generalize st0]
  end.
  { split; [| done]. split; simpl; unfold latencyBound; try lia.
    - apply Forall_singleton. simpl. lia.
    - by apply Forall_singleton.
    - intros _. by apply Exists_cons_hd.
    - by apply Forall_singleton.
    - by apply Forall_singleton.
    - unfold Pool.start.
      rewrite spawn_iter_workers by (unfold Pool.threads; lia).
      apply Forall_fmap, Forall_forall. done. }
  generalize (seq 0 (Pool.threads cfg queries)). intros ws.
  induction ws as [|w ws IH]; intros st [HT Hnow]; simpl; [done |].
  apply IH. split.
  - apply timely_arm; [done |]. intros. lia.
  - unfold Timed.arm. destruct (Pool.workers (Timed.pool st) !! w) as [[my f| |]|];
      try done. by destruct (Timed.firstEvent _ _).
Qed.

Lemma fire_timely (p : Timed.Pending) (rest : list Timed.Pending) (st : Timed.t) :
  Timely cfg st -> Pool.returned (Timed.pool st) = false ->
  Timed.popNext (Timed.agenda st) = Some (p, rest) ->
  Timely cfg (Timed.fire cfg queries net p rest st).
Proof.
  intros [Hfut Hdl Hpend Htr Hwk Hnow Hto] Hret Hpop.
  pose proof (popNext_min _ _ _ Hpop) as Hmin.
  pose proof (popNext_perm _ _ _ Hpop) as Hperm.
  rewrite Hperm in Hfut, Hdl, Htr, Hwk.
  apply Forall_cons in Hfut as [_ Hfut]. apply Forall_cons in Hdl as [Hdlp Hdl].
  apply Forall_cons in Htr as [Htrp Htr]. apply Forall_cons in Hwk as [Hwkp Hwk].
  assert (Timed.due p <= latencyBound cfg) as Hdue.
  { unfold latencyBound. destruct (Timed.event p) as [|w ev|w] eqn:He.
    - rewrite Hdlp; [lia |]. unfold Timed.isDeadline. by rewrite He.
    - specialize (Htrp _ _ eq_refl). lia.
    - by specialize (Hwkp _ eq_refl). }
  assert (Timed.isDeadline p = false -> Pool.canceled (Timed.pool st) = false ->
          Exists (fun q => Timed.isDeadline q = true) rest) as Hkeep.
  { intros Hp Hc. specialize (Hpend Hc). rewrite Hperm in Hpend.
    apply Exists_cons in Hpend as [Hpend|Hpend]; [congruence | done]. }
  assert (Timed.isDeadline p = false -> Pool.canceled (Timed.pool st) = false ->
          Timed.due p <= globalTimeoutMs cfg) as Hbefore.
  { intros Hp Hc. pose proof (Hkeep Hp Hc) as (q & Hq & Hqd)%Exists_exists.
    rewrite <- (proj1 (Forall_forall _ _) Hdl q Hq Hqd).
    by apply (proj1 (Forall_forall _ _) Hmin q Hq). }
  unfold Timed.fire.
  destruct (Pool.step cfg queries (Timed.event p) (Timed.pool st)) as [pool'|] eqn:Hstep.
  - pose proof (step_canceled _ _ _ _ _ Hstep) as Hc'.
    pose proof (step_timeouts _ _ _ _ _ Hto Hstep) as Hto'.
    assert (Timely cfg {| Timed.pool := pool'; Timed.now := Timed.due p;
                          Timed.agenda := rest; Timed.nextSeq := Timed.nextSeq st;
                          Timed.trace := Timed.trace st ++ [Timed.event p] |}) as HT'.
    { split; simpl; try done. intros Hcp. rewrite Hcp in Hc'.
      unfold Timed.isDeadline in Hkeep.
      destruct (Timed.event p); [done | |]; by apply Hkeep. }
    destruct (Timed.event p) as [|w ev|w] eqn:He; [done | |].
    + apply timely_snooze; [done |]. intros _. simpl. by apply (Htrp w ev).
    + apply timely_arm; [done |]. simpl. intros my f Hw.
      apply Hbefore; [unfold Timed.isDeadline; by rewrite He |].
      by eapply wake_claims.
  - split; simpl; try done. intros Hc. apply Hkeep; [| done].
    unfold Timed.isDeadline. destruct (Timed.event p) eqn:He; try done.
    simpl in Hstep. by rewrite Hc, Hret in Hstep.
Qed.

Lemma run_timely (fuel : nat) (st : Timed.t) :
  Timely cfg st -> Timely cfg (Timed.run cfg queries net fuel st).
Proof.
  revert st. induction fuel as [|fuel IH]; intros st HT; simpl; [done |].
  destruct (Pool.returned (Timed.pool st)) eqn:Hret; [done |].
  destruct (Timed.popNext (Timed.agenda st)) as [[p rest]|] eqn:Hpop; [| done].
  by apply IH, fire_timely.
Qed.

End Latency.

(** X12. The time a call of [loadAll] takes is bounded, whatever the
    list of queries and however the remote end behaves: on the event loop
    with its clock the call returns, and it does so no later than
    [globalTimeoutMs + perRequestTimeoutMs + interRequestDelayMs]
    milliseconds after it was made (14530 ms with the values of [CONFIG]);
    a call that returns without having been canceled returns before the
    global timer is due. *)
Theorem loadAll_returns_in_bounded_time (cfg : Config) (queries : list string)
    (net : string -> Timed.Behaviour) :
  Pool.returned
    (Timed.pool (Timed.run cfg queries net (Timed.fuel queries)
                   (Timed.start cfg queries net))) = true
  /\ Timed.now (Timed.run cfg queries net (Timed.fuel queries)
                  (Timed.start cfg queries net))
     <= latencyBound cfg
  /\ (Pool.canceled
        (Timed.pool (Timed.run cfg queries net (Timed.fuel queries)
                       (Timed.start cfg queries net))) = false ->
      Timed.now (Timed.run cfg queries net (Timed.fuel queries)
                   (Timed.start cfg queries net))
      <= globalTimeoutMs cfg).
Proof.
  pose proof (run_timely cfg queries net (Timed.fuel queries) _
                (start_timely cfg queries net)) as [Hfut Hdl Hpend _ _ Hnow _].
  split; [| split; [exact Hnow |]].
  - apply run_returns; [apply start_consistent | apply start_traced |].
    unfold Timed.fuel. lia.
  - intros Hc. pose proof (Hpend Hc) as (q & Hq & Hqd)%Exists_exists.
    rewrite <- (proj1 (Forall_forall _ _) Hdl q Hq Hqd).
    by apply (proj1 (Forall_forall _ _) Hfut q Hq).
Qed.

Example latencyBound_CONFIG : latencyBound CONFIG = 14530.
Proof. reflexivity. Qed.

(** ** Local storage and the search history *)

Lemma safeSet_stored (key : string) (value : App.Json) (app : App.t) :
  App.safeSet key value app
  = (App.Ret (negb (App.full (App.storage app))),
     withStorage (stored key value (App.storage app)) app).
Proof. destruct app as [last b d [its []] fr]; reflexivity. Qed.

Lemma setStatusIfPresent_withStatus (v : App.StatusText) (app : App.t) :
  Page.setStatusIfPresent v app = (App.Ret (), withStatus v app).
Proof. destruct app as [last b [q wv wi [s|] m] sto fr]; reflexivity. Qed.

Lemma stored_history_other (key : string) (value : App.Json) (st : App.Storage) :
  key <> App.STORAGE.history ->
  App.items (stored key value st) !! App.STORAGE.history
  = App.items st !! App.STORAGE.history.
Proof.
  intros Hne. unfold stored. destruct (App.full st); [done |]. simpl.
  by rewrite lookup_insert_ne.
Qed.

Lemma app_cons_snoc {A} (l : list A) (x : A) (k : list A) :
  l ++ x :: k = (l ++ [x]) ++ k.
Proof. by rewrite <- app_assoc. Qed.

Section History.
Context (cfg : Config).

(** The loop of [pushHistory] with its [break] keeps the first entry of
    each key, up to the limit, and one entry at least. *)
Lemma dedupHistory_take (hist deduped : list App.HistEntry) (seen : gset string) :
  length deduped < historyLimit cfg \/ (deduped = [] /\ seen = ∅) ->
  App.dedupHistory cfg seen deduped hist
  = take (max 1 (historyLimit cfg)) (deduped ++ firstSeen App.historyKey seen hist).
Proof.
  revert deduped seen. induction hist as [|h hist IH]; intros deduped seen Hpre.
  - simpl. rewrite app_nil_r, take_ge; [done |].
    destruct Hpre as [?|[-> _]]; simpl; lia.
  - cbn [App.dedupHistory firstSeen].
    destruct (decide (App.historyKey h ∈ seen)) as [Hin|Hout].
    + destruct Hpre as [Hlt|[_ ->]]; [| set_solver].
      assert ((historyLimit cfg <=? length deduped) = false) as ->
        by (apply Nat.leb_gt; lia).
      apply IH. by left.
    + rewrite length_app. simpl.
      destruct (historyLimit cfg <=? length deduped + 1) eqn:Hle.
      * apply Nat.leb_le in Hle.
        assert (max 1 (historyLimit cfg) = length (deduped ++ [h])) as ->.
        { rewrite length_app. simpl. destruct Hpre as [?|[-> _]]; simpl in *; lia. }
        by rewrite (app_cons_snoc deduped h (firstSeen _ _ _)), take_app_length.
      * apply Nat.leb_gt in Hle. rewrite (app_cons_snoc deduped h (firstSeen _ _ _)).
        apply IH. left. rewrite length_app. simpl. lia.
Qed.

Lemma pushHistory_run (entry : App.HistEntry) (app : App.t) :
  App.historyReadable (App.storage app) ->
  App.pushHistory cfg entry app
  = (App.Ret (App.dedupHistory cfg ∅ [] (entry :: storedHistory (App.storage app))),
     withStorage
       (stored App.STORAGE.history
          (App.JHistory
             (App.dedupHistory cfg ∅ [] (entry :: storedHistory (App.storage app))))
          (App.storage app)) app).
Proof.
  destruct app as [last b d [its fl] fr].
  unfold App.historyReadable, storedHistory, App.pushHistory, App.safeGet,
    App.safeSet, App.bind, App.get, stored, withStorage. simpl. intros Hr.
  destruct (its !! App.STORAGE.history) as [[|[c|m|h|]]|] eqn:Hh;
    try done; by destruct fl.
Qed.

End History.

Section LooseHistoryLoop.
Context (cfg : Config).





End LooseHistoryLoop.



Section Persistence.
Context (cfg : Config).

Lemma autosave_run (m : App.Meta) (app : App.t) :
  App.historyReadable (App.storage app) ->
  App.autosave cfg m app
  = (App.Ret (negb (App.full (App.storage app))),
     withStorage (afterAutosave cfg m (App.lastJSON app) (App.storage app)) app).
Proof.
  intros Hr. unfold App.autosave, App.bind at 1, App.get.
  unfold App.bind at 1. rewrite safeSet_stored.
  unfold App.bind at 1. rewrite safeSet_stored.
  unfold App.bind. rewrite pushHistory_run.
  - unfold afterAutosave, withStorage, App.ret. simpl.
    unfold storedHistory.
    rewrite !stored_history_other by apply storage_keys_distinct.
    unfold stored. simpl. by destruct (App.full (App.storage app)).
  - unfold App.historyReadable. simpl.
    by rewrite !stored_history_other by apply storage_keys_distinct.
Qed.

Lemma afterAutosave_full (m : App.Meta) (last : Catalog) (st : App.Storage) :
  App.full st = true -> afterAutosave cfg m last st = st.
Proof. destruct st as [its fl]. simpl. by intros ->. Qed.

Lemma afterAutosave_items (m : App.Meta) (last : Catalog) (st : App.Storage) :
  App.full st = false ->
  parsedItem App.STORAGE.lastResults (afterAutosave cfg m last st)
  = Some (App.JCatalog last)
  /\ parsedItem App.STORAGE.lastMeta (afterAutosave cfg m last st)
     = Some (App.JMeta m)
  /\ storedHistory (afterAutosave cfg m last st)
     = App.dedupHistory cfg ∅ []
         ({| App.meta := m; App.results := len last |} :: storedHistory st)
  /\ App.full (afterAutosave cfg m last st) = false
  /\ (forall k, k <> App.STORAGE.lastResults -> k <> App.STORAGE.lastMeta ->
                k <> App.STORAGE.history ->
                App.items (afterAutosave cfg m last st) !! k = App.items st !! k).
Proof.
  destruct st as [its fl]. simpl. intros ->.
  unfold afterAutosave, stored, parsedItem, storedHistory. simpl.
  repeat split.
  - rewrite lookup_insert_ne by compute_done.
    rewrite lookup_insert_ne by compute_done. by rewrite lookup_insert_eq.
  - rewrite lookup_insert_ne by compute_done. by rewrite lookup_insert_eq.
  - by rewrite lookup_insert_eq.
  - intros k H1 H2 H3. by rewrite !lookup_insert_ne.
Qed.

Lemma autoload_run (app : App.t) :
  Page.autoload app
  = (App.Ret (parsedItem App.STORAGE.lastResults (App.storage app),
              parsedItem App.STORAGE.lastMeta (App.storage app)), app).
Proof.
  unfold Page.autoload, App.safeGet, parsedItem. cbv [App.bind App.get].
  destruct (App.items (App.storage app) !! App.STORAGE.lastResults) as [[|v1]|];
    cbv [App.ret];
    destruct (App.items (App.storage app) !! App.STORAGE.lastMeta) as [[|v2]|];
    reflexivity.
Qed.

End Persistence.

Lemma dedupHistory_head (cfg : Config) (entry : App.HistEntry)
    (old : list App.HistEntry) :
  head (App.dedupHistory cfg ∅ [] (entry :: old)) = Some entry.
Proof.
  rewrite dedupHistory_take by (by right). rewrite app_nil_l.
  cbn [firstSeen]. rewrite decide_False by set_solver.
  by destruct (historyLimit cfg) as [|[|n]].
Qed.

Lemma dedupHistory_single (cfg : Config) (entry : App.HistEntry) :
  App.dedupHistory cfg ∅ [] [entry] = [entry].
Proof.
  rewrite dedupHistory_take by (by right). rewrite app_nil_l.
  cbn [firstSeen]. rewrite decide_False by set_solver.
  by destruct (historyLimit cfg) as [|[|n]].
Qed.

Lemma withStorage_same (app : App.t) : withStorage (App.storage app) app = app.
Proof. by destruct app. Qed.

Lemma setRoom_run (r : bool) (app : App.t) :
  Page.setRoom r app = (App.Ret (), withStorage (roomy r (App.storage app)) app).
Proof. by destruct app as [last b d [its fl] fr]. Qed.

Lemma roomy_same (st : App.Storage) : roomy (App.full st) st = st.
Proof. by destruct st. Qed.

Lemma parsedItem_stored (k key : string) (v : App.Json) (st : App.Storage) :
  parsedItem k (stored key v st)
  = if decide (k = key) then (if App.full st then parsedItem k st else Some v)
    else parsedItem k st.
Proof.
  unfold parsedItem, stored.
  destruct (App.full st); simpl; destruct (decide (k = key)) as [->|Hne]; try done.
  - by rewrite lookup_insert_eq.
  - by rewrite lookup_insert_ne.
Qed.

Lemma storedHistory_stored (key : string) (v : App.Json) (st : App.Storage) :
  key <> App.STORAGE.history -> storedHistory (stored key v st) = storedHistory st.
Proof. intros Hne. unfold storedHistory. by rewrite stored_history_other. Qed.

Lemma readable_stored (key : string) (v : App.Json) (st : App.Storage) :
  key <> App.STORAGE.history ->
  App.historyReadable (stored key v st) <-> App.historyReadable st.
Proof. intros Hne. unfold App.historyReadable. by rewrite stored_history_other. Qed.

Section PersistenceWith.
Context (cfg : Config).

Lemma autosaveWith_run (r1 r2 r3 : bool) (m : App.Meta) (app : App.t) :
  App.historyReadable (App.storage app) ->
  Page.autosaveWith cfg r1 r2 r3 m app
  = (App.Ret (negb r1 && negb r2),
     withStorage (afterAutosaveWith cfg r1 r2 r3 m (App.lastJSON app)
                    (App.storage app)) app).
Proof.
  intros Hr. unfold Page.autosaveWith, App.bind at 1, App.get.
  unfold App.bind at 1. rewrite setRoom_run.
  unfold App.bind at 1. rewrite safeSet_stored.
  unfold App.bind at 1. rewrite setRoom_run.
  unfold App.bind at 1. rewrite safeSet_stored.
  unfold App.bind at 1. rewrite setRoom_run.
  unfold App.bind. rewrite pushHistory_run.
  - cbn [withStorage App.storage App.lastJSON App.busy App.dom App.frame
         roomy App.full App.items].
    unfold afterAutosaveWith, App.ret.
    change (storedHistory (roomy r3 ?st)) with (storedHistory st).
    rewrite storedHistory_stored by apply storage_keys_distinct.
    change (storedHistory (roomy r2 ?st)) with (storedHistory st).
    rewrite storedHistory_stored by apply storage_keys_distinct.
    reflexivity.
  - cbn [withStorage App.storage].
    apply readable_stored; [apply storage_keys_distinct |].
    apply (readable_stored App.STORAGE.lastResults
             (App.JCatalog (App.lastJSON app)) (roomy r1 (App.storage app)));
      [apply storage_keys_distinct | exact Hr].
Qed.

Lemma afterAutosaveWith_items (r1 r2 r3 : bool) (m : App.Meta) (last : Catalog)
    (st : App.Storage) :
  parsedItem App.STORAGE.lastResults (afterAutosaveWith cfg r1 r2 r3 m last st)
  = (if r1 then parsedItem App.STORAGE.lastResults st else Some (App.JCatalog last))
  /\ parsedItem App.STORAGE.lastMeta (afterAutosaveWith cfg r1 r2 r3 m last st)
     = (if r2 then parsedItem App.STORAGE.lastMeta st else Some (App.JMeta m))
  /\ storedHistory (afterAutosaveWith cfg r1 r2 r3 m last st)
     = (if r3 then storedHistory st
        else App.dedupHistory cfg ∅ []
               ({| App.meta := m; App.results := len last |} :: storedHistory st))
  /\ (forall k, k <> App.STORAGE.lastResults -> k <> App.STORAGE.lastMeta ->
                k <> App.STORAGE.history ->
                App.items (afterAutosaveWith cfg r1 r2 r3 m last st) !! k
                = App.items st !! k)
  /\ (App.historyReadable st ->
      App.historyReadable (afterAutosaveWith cfg r1 r2 r3 m last st)).
Proof.
  destruct st as [its fl].
  unfold afterAutosaveWith, stored, roomy, parsedItem, storedHistory,
    App.historyReadable.
  cbn [App.items App.full].
  destruct r1, r2, r3; cbn [App.items App.full];
    repeat split; try (intros k H1 H2 H3);
    rewrite ?lookup_insert_eq;
    rewrite ?(lookup_insert_ne _ App.STORAGE.history App.STORAGE.lastMeta)
      by compute_done;
    rewrite ?(lookup_insert_ne _ App.STORAGE.history App.STORAGE.lastResults)
      by compute_done;
    rewrite ?(lookup_insert_ne _ App.STORAGE.lastMeta App.STORAGE.lastResults)
      by compute_done;
    rewrite ?lookup_insert_eq;
    rewrite ?lookup_insert_ne by done;
    done.
Qed.

Lemma autosave_autosaveWith (m : App.Meta) (app : App.t) :
  App.autosave cfg m app
  = Page.autosaveWith cfg (App.full (App.storage app)) (App.full (App.storage app))
      (App.full (App.storage app)) m app.
Proof. destruct app as [last b d [its []] fr]; reflexivity. Qed.

End PersistenceWith.

(** X14. What [autosave] stores, [autoload] reads back, whichever of
    the three [setItem] calls of [autosave] the storage refuses ([r1] for
    the catalog, [r2] for the metadata, [r3] for the history).  When the
    stored history is readable, [autosave] does not raise and leaves the
    catalog, the flag and the page alone; it returns [true] exactly when
    the catalog and the metadata were both stored, whatever happened to
    the history; each of the three items holds the new value if its write
    was taken and is as before if it was refused; if the history was
    written it starts with the search just made; and when the catalog and
    the metadata were stored a following [autoload] returns them.  The
    [autosave] of this development is the case in which the three writes
    fare alike. *)
Theorem autosave_then_autoload (cfg : Config) (r1 r2 r3 : bool) (m : App.Meta)
    (app : App.t) :
  App.historyReadable (App.storage app) ->
  exists app',
    Page.autosaveWith cfg r1 r2 r3 m app = (App.Ret (negb r1 && negb r2), app')
    /\ App.lastJSON app' = App.lastJSON app /\ App.busy app' = App.busy app
    /\ App.dom app' = App.dom app /\ App.frame app' = App.frame app
    /\ parsedItem App.STORAGE.lastResults (App.storage app')
       = (if r1 then parsedItem App.STORAGE.lastResults (App.storage app)
          else Some (App.JCatalog (App.lastJSON app)))
    /\ parsedItem App.STORAGE.lastMeta (App.storage app')
       = (if r2 then parsedItem App.STORAGE.lastMeta (App.storage app)
          else Some (App.JMeta m))
    /\ storedHistory (App.storage app')
       = (if r3 then storedHistory (App.storage app)
          else App.dedupHistory cfg ∅ []
                 ({| App.meta := m; App.results := len (App.lastJSON app) |}
                  :: storedHistory (App.storage app)))
    /\ (r3 = false ->
        head (storedHistory (App.storage app'))
        = Some {| App.meta := m; App.results := len (App.lastJSON app) |})
    /\ App.historyReadable (App.storage app')
    /\ (r1 = false -> r2 = false ->
        Page.autoload app'
        = (App.Ret (Some (App.JCatalog (App.lastJSON app)), Some (App.JMeta m)), app'))
    /\ (r1 = true -> r2 = true -> r3 = true ->
        App.items (App.storage app') = App.items (App.storage app))
    /\ App.autosave cfg m app
       = Page.autosaveWith cfg (App.full (App.storage app))
           (App.full (App.storage app)) (App.full (App.storage app)) m app.
Proof.
  intros Hr. eexists. split; [by apply autosaveWith_run |].
  destruct (afterAutosaveWith_items cfg r1 r2 r3 m (App.lastJSON app)
              (App.storage app)) as (Hres & Hmeta & Hhist & _ & Hread).
  cbn [withStorage App.lastJSON App.busy App.dom App.frame App.storage].
  split; [done |]. split; [done |]. split; [done |]. split; [done |].
  split; [exact Hres |]. split; [exact Hmeta |]. split; [exact Hhist |].
  split; [intros ->; rewrite Hhist; apply dedupHistory_head |].
  split; [by apply Hread |].
  split.
  { intros -> ->. rewrite autoload_run. cbn [withStorage App.storage].
    by rewrite Hres, Hmeta. }
  split; [| apply autosave_autosaveWith].
  intros -> -> ->. by destruct (App.storage app).
Qed.

Lemma autosave_then_autoload_witness :
  exists app',
    Page.autosaveWith CONFIG false false true
      {| App.query := "dune"; App.variations := true; App.images := false;
         App.timestamp := 1730000000000 |}
      (samplePage "dune"
         {[ App.STORAGE.history := App.Parsed (App.JHistory [sampleSearch "matrix" false 3]) ]}
         false)
    = (App.Ret true, app')
    /\ storedHistory (App.storage app') = [sampleSearch "matrix" false 3]
    /\ parsedItem App.STORAGE.lastMeta (App.storage app')
       = Some (App.JMeta {| App.query := "dune"; App.variations := true;
                            App.images := false; App.timestamp := 1730000000000 |}).
Proof.
  edestruct (autosave_then_autoload CONFIG false false true
               {| App.query := "dune"; App.variations := true; App.images := false;
                  App.timestamp := 1730000000000 |}
               (samplePage "dune"
                  {[ App.STORAGE.history :=
                       App.Parsed (App.JHistory [sampleSearch "matrix" false 3]) ]}
                  false))
    as (app' & Hrun & _ & _ & _ & _ & _ & Hmeta & Hhist & _).
  { vm_compute. exact I. }
  exists app'. split; [exact Hrun |].
  split; [rewrite Hhist; vm_compute; reflexivity | exact Hmeta].
Defined.

(** X15. [clearHistory] never raises and reports success whatever
    happened: the status element, if the page has one, reads "History
    cleared."; with room in the storage the stored history becomes the
    empty array, whatever was stored before (an unreadable or non-array
    item as well), the saved catalog and metadata stay, and the next
    [pushHistory] returns the one new entry; without room the storage is
    left as it was, the status line saying otherwise. *)
Theorem clearHistory_resets_history (app : App.t) :
  exists app',
    Page.clearHistory app = (App.Ret (), app')
    /\ App.el_status (App.dom app')
       = (fun _ => App.OtherStatus "History cleared.") <$> App.el_status (App.dom app)
    /\ App.lastJSON app' = App.lastJSON app /\ App.busy app' = App.busy app
    /\ (App.full (App.storage app) = true -> App.storage app' = App.storage app)
    /\ (App.full (App.storage app) = false ->
        storedHistory (App.storage app') = []
        /\ parsedItem App.STORAGE.lastResults (App.storage app')
           = parsedItem App.STORAGE.lastResults (App.storage app)
        /\ parsedItem App.STORAGE.lastMeta (App.storage app')
           = parsedItem App.STORAGE.lastMeta (App.storage app)
        /\ forall cfg entry, exists app'',
             App.pushHistory cfg entry app' = (App.Ret [entry], app'')).
Proof.
  eexists. split.
  { unfold Page.clearHistory, App.bind. rewrite safeSet_stored.
    apply setStatusIfPresent_withStatus. }
  repeat (split; [done |]).
  destruct app as [last b d [its fl] fr]. simpl. split; intros ->; [done |].
  unfold stored, storedHistory, parsedItem. simpl.
  rewrite lookup_insert_eq, !lookup_insert_ne by compute_done.
  repeat (split; [done |]). intros cfg entry. eexists.
  rewrite pushHistory_run.
  - cbn [App.storage withStatus withStorage].
    match goal with
    | |- context [storedHistory ?st] =>
        assert (storedHistory st = []) as ->
          by (unfold storedHistory; simpl; by rewrite lookup_insert_eq)
    end.
    by rewrite dedupHistory_single.
  - unfold App.historyReadable. simpl. by rewrite lookup_insert_eq.
Qed.

(** ** The end of a search *)

Section Resume.
Context (cfg : Config).

Lemma autosave_unreadable (m : App.Meta) (app : App.t) :
  ~ App.historyReadable (App.storage app) ->
  App.autosave cfg m app
  = (App.Throw,
     withStorage
       (stored App.STORAGE.lastMeta (App.JMeta m)
          (stored App.STORAGE.lastResults (App.JCatalog (App.lastJSON app))
             (App.storage app))) app).
Proof.
  intros Hr. unfold App.autosave, App.bind at 1, App.get.
  unfold App.bind at 1. rewrite safeSet_stored.
  unfold App.bind at 1. rewrite safeSet_stored.
  unfold App.bind at 1, App.pushHistory, App.bind at 1 2, App.safeGet.
  unfold App.bind at 1, App.get. cbn [withStorage App.storage].
  rewrite !stored_history_other by apply storage_keys_distinct.
  unfold App.historyReadable in Hr.
  destruct (App.items (App.storage app) !! App.STORAGE.history)
    as [[|[c|m'|h|]]|]; try (by destruct Hr); reflexivity.
Qed.

Lemma resume_readable (app : App.t) (f : App.Frame) (raw : list Raw.Item) (now : Z) :
  App.frame app = Some f ->
  is_Some (App.el_status (App.dom app)) -> is_Some (App.el_results (App.dom app)) ->
  App.historyReadable (App.storage app) ->
  App.onSubmit_resume cfg (App.Fulfilled raw) now app
  = (App.Ret (),
     {| App.lastJSON := normalize raw (App.f_wantImg f); App.busy := false;
        App.dom := shown (App.Found (len (normalize raw (App.f_wantImg f))))
                     (App.renderCards (normalize raw (App.f_wantImg f)))
                     (App.dom app);
        App.storage := afterAutosave cfg (metaOf f now)
                         (normalize raw (App.f_wantImg f)) (App.storage app);
        App.frame := None |}).
Proof.
  destruct app as [last b [q wv wi s m] sto fr]. simpl.
  intros -> [s0 ->] [m0 ->] Hr.
  unfold App.onSubmit_resume, App.bind at 1, App.get. simpl.
  unfold App.bind at 1. simpl. unfold App.tryCatchFinally.
  unfold App.bind at 1 2 3 4. simpl.
  unfold App.bind at 1.
  match goal with |- context [App.autosave cfg ?m ?a] =>
    rewrite (autosave_run cfg m a Hr) end.
  reflexivity.
Qed.

Lemma resume_unreadable (app : App.t) (f : App.Frame) (raw : list Raw.Item) (now : Z) :
  App.frame app = Some f ->
  is_Some (App.el_status (App.dom app)) -> is_Some (App.el_results (App.dom app)) ->
  ~ App.historyReadable (App.storage app) ->
  App.onSubmit_resume cfg (App.Fulfilled raw) now app
  = (App.Ret (),
     {| App.lastJSON := normalize raw (App.f_wantImg f); App.busy := false;
        App.dom := shown App.ErrorLoading App.FailedToLoad (App.dom app);
        App.storage :=
          stored App.STORAGE.lastMeta (App.JMeta (metaOf f now))
            (stored App.STORAGE.lastResults
               (App.JCatalog (normalize raw (App.f_wantImg f))) (App.storage app));
        App.frame := None |}).
Proof.
  destruct app as [last b [q wv wi s m] sto fr]. simpl.
  intros -> [s0 ->] [m0 ->] Hr.
  unfold App.onSubmit_resume, App.bind at 1, App.get. simpl.
  unfold App.bind at 1. simpl. unfold App.tryCatchFinally.
  unfold App.bind at 1 2 3 4. simpl.
  unfold App.bind at 1.
  match goal with |- context [App.autosave cfg ?m ?a] =>
    rewrite (autosave_unreadable m a Hr) end.
  reflexivity.
Qed.

Lemma resume_rejected (app : App.t) (f : App.Frame) (now : Z) :
  App.frame app = Some f ->
  is_Some (App.el_status (App.dom app)) -> is_Some (App.el_results (App.dom app)) ->
  App.onSubmit_resume cfg App.Rejected now app
  = (App.Ret (),
     {| App.lastJSON := App.lastJSON app; App.busy := false;
        App.dom := shown App.ErrorLoading App.FailedToLoad (App.dom app);
        App.storage := App.storage app; App.frame := None |}).
Proof.
  destruct app as [last b [q wv wi s m] sto fr]. simpl.
  intros -> [s0 ->] [m0 ->]. reflexivity.
Qed.

End Resume.

(** X16. How a suspended call of [onSubmit] ends, on a page that has
    the status element and the result area: it never raises, and it
    clears [busy].  When [loadAll] was rejected the page shows the
    failure, and the catalog and the storage are as before.  When
    [loadAll] was fulfilled the catalog is the normalized result; the page
    shows the count and the cards and the search is saved if the stored
    history is readable; if the stored history is valid JSON but not an
    array, [pushHistory] raises inside [try], so the page shows "Error
    while loading data." although the catalog was replaced and saved. *)
Theorem onSubmit_resume_outcomes (cfg : Config) (app : App.t) (f : App.Frame)
    (awaited : App.Awaited) (now : Z) :
  App.frame app = Some f ->
  is_Some (App.el_status (App.dom app)) ->
  is_Some (App.el_results (App.dom app)) ->
  exists app',
    App.onSubmit_resume cfg awaited now app = (App.Ret (), app')
    /\ App.busy app' = false /\ App.frame app' = None
    /\ match awaited with
       | App.Rejected =>
           App.dom app' = shown App.ErrorLoading App.FailedToLoad (App.dom app)
           /\ App.lastJSON app' = App.lastJSON app
           /\ App.storage app' = App.storage app
       | App.Fulfilled raw =>
           let model := normalize raw (App.f_wantImg f) in
           App.lastJSON app' = model
           /\ (App.historyReadable (App.storage app) ->
               App.dom app'
               = shown (App.Found (len model)) (App.renderCards model) (App.dom app)
               /\ App.storage app'
                  = afterAutosave cfg (metaOf f now) model (App.storage app))
           /\ (~ App.historyReadable (App.storage app) ->
               App.dom app' = shown App.ErrorLoading App.FailedToLoad (App.dom app)
               /\ App.storage app'
                  = stored App.STORAGE.lastMeta (App.JMeta (metaOf f now))
                      (stored App.STORAGE.lastResults (App.JCatalog model)
                         (App.storage app)))
       end.
Proof.
  intros Hf Hs Hm. destruct awaited as [raw|].
  - assert (Decision (App.historyReadable (App.storage app))) as [Hr|Hr].
    { unfold App.historyReadable.
      destruct (App.items (App.storage app) !! App.STORAGE.history)
        as [[|[c|m|h|]]|]; apply _. }
    + rewrite (resume_readable cfg app f raw now Hf Hs Hm Hr).
      eexists. split; [done |]. split; [done |]. split; [done |]. cbv zeta.
      split; [done |]. split; [done | intros Hn; contradiction].
    + rewrite (resume_unreadable cfg app f raw now Hf Hs Hm Hr).
      eexists. split; [done |]. split; [done |]. split; [done |]. cbv zeta.
      split; [done |]. split; [intros Hn; contradiction | done].
  - rewrite (resume_rejected cfg app f now Hf Hs Hm).
    eexists. by repeat split.
Qed.

Lemma onSubmit_resume_outcomes_witness :
  exists app',
    App.onSubmit_resume CONFIG
      (App.Fulfilled [sampleItem "tt0133093" "The Matrix" (Some 200%Z)]) 1730000000000
      {| App.lastJSON := {| len := 0; titles := [] |}; App.busy := true;
         App.dom := {| App.el_q := Some "matrix"; App.el_variations := Some false;
                       App.el_images := Some false;
                       App.el_status := Some App.Loading;
                       App.el_results := Some App.Blank |};
         App.storage := {| App.items := {[ App.STORAGE.history := App.Parsed App.JOther ]};
                           App.full := false |};
         App.frame := Some {| App.f_q := "matrix"; App.f_wantVar := false;
                              App.f_wantImg := false; App.f_qs := ["matrix"] |} |}
    = (App.Ret (), app')
    /\ App.el_status (App.dom app') = Some App.ErrorLoading
    /\ len (App.lastJSON app') = 1
    /\ App.busy app' = false.
Proof.
  edestruct (onSubmit_resume_outcomes CONFIG
      {| App.lastJSON := {| len := 0; titles := [] |}; App.busy := true;
         App.dom := {| App.el_q := Some "matrix"; App.el_variations := Some false;
                       App.el_images := Some false;
                       App.el_status := Some App.Loading;
                       App.el_results := Some App.Blank |};
         App.storage := {| App.items := {[ App.STORAGE.history := App.Parsed App.JOther ]};
                           App.full := false |};
         App.frame := Some {| App.f_q := "matrix"; App.f_wantVar := false;
                              App.f_wantImg := false; App.f_qs := ["matrix"] |} |}
      {| App.f_q := "matrix"; App.f_wantVar := false;
         App.f_wantImg := false; App.f_qs := ["matrix"] |}
      (App.Fulfilled [sampleItem "tt0133093" "The Matrix" (Some 200%Z)]) 1730000000000
      eq_refl (ltac:(by eexists)) (ltac:(by eexists)))
    as (app' & Hrun & Hb & _ & Hlast & _ & Hbad).
  exists app'. split; [exact Hrun |].
  destruct Hbad as [Hdom _]; [vm_compute; tauto |].
  split; [by rewrite Hdom |].
  split; [rewrite Hlast; vm_compute; reflexivity | exact Hb].
Defined.

Lemma orElse_empty (s : string) : orElse s "" = s.
Proof. by destruct s. Qed.

Lemma save_saveWith (cfg : Config) (now : Z) (app : App.t) :
  Page.save cfg now app
  = Page.saveWith cfg (App.full (App.storage app)) (App.full (App.storage app))
      (App.full (App.storage app)) now app.
Proof.
  unfold Page.save, Page.saveWith, App.bind at 1 3, App.get.
  unfold App.bind at 1 3. by rewrite autosave_autosaveWith.
Qed.

(** X18. [save] works on any page, whichever of the three [setItem]
    calls of [autosave] the storage refuses ([r1] for the catalog, [r2]
    for the metadata, [r3] for the history).  When the stored history is
    readable it does not raise, also on a page without the form fields or
    the status element (a missing field counts as an empty term or an
    unchecked box); it returns [true] exactly when the catalog and the
    metadata were both stored, and the status element, if there is one,
    then reads "Saved locally." and otherwise "Save failed (storage).";
    the rest of the page and the catalog are as before; each stored item
    holds the new value if its write was taken and is as before if it
    was refused; and when it returns [true] a following [autoload]
    returns the current catalog and the metadata read off the form.  The
    [save] of this development is the case in which the three writes
    fare alike. *)
Theorem save_reports_outcome (cfg : Config) (r1 r2 r3 : bool) (now : Z)
    (app : App.t) :
  App.historyReadable (App.storage app) ->
  exists m app',
    Page.saveWith cfg r1 r2 r3 now app = (App.Ret (negb r1 && negb r2), app')
    /\ App.query m = default "" (Str.trim <$> App.el_q (App.dom app))
    /\ App.variations m = default false (App.el_variations (App.dom app))
    /\ App.images m = default false (App.el_images (App.dom app))
    /\ App.timestamp m = now
    /\ App.dom app'
       = App.dom (withStatus
                    (App.OtherStatus (if negb r1 && negb r2 then "Saved locally."
                                      else "Save failed (storage)."))
                    app)
    /\ App.el_status (App.dom app')
       = (fun _ => App.OtherStatus (if negb r1 && negb r2 then "Saved locally."
                                    else "Save failed (storage)."))
           <$> App.el_status (App.dom app)
    /\ App.lastJSON app' = App.lastJSON app
    /\ App.busy app' = App.busy app /\ App.frame app' = App.frame app
    /\ parsedItem App.STORAGE.lastResults (App.storage app')
       = (if r1 then parsedItem App.STORAGE.lastResults (App.storage app)
          else Some (App.JCatalog (App.lastJSON app)))
    /\ parsedItem App.STORAGE.lastMeta (App.storage app')
       = (if r2 then parsedItem App.STORAGE.lastMeta (App.storage app)
          else Some (App.JMeta m))
    /\ storedHistory (App.storage app')
       = (if r3 then storedHistory (App.storage app)
          else App.dedupHistory cfg ∅ []
                 ({| App.meta := m; App.results := len (App.lastJSON app) |}
                  :: storedHistory (App.storage app)))
    /\ (r1 = false -> r2 = false ->
        Page.autoload app'
        = (App.Ret (Some (App.JCatalog (App.lastJSON app)), Some (App.JMeta m)), app'))
    /\ Page.save cfg now app
       = Page.saveWith cfg (App.full (App.storage app))
           (App.full (App.storage app)) (App.full (App.storage app)) now app.
Proof.
  intros Hr.
  exists {| App.query := default "" (Str.trim <$> App.el_q (App.dom app));
            App.variations := default false (App.el_variations (App.dom app));
            App.images := default false (App.el_images (App.dom app));
            App.timestamp := now |}.
  eexists. split.
  { unfold Page.saveWith, App.bind at 1, App.get. rewrite orElse_empty.
    unfold App.bind at 1. rewrite autosaveWith_run by done.
    unfold App.bind. rewrite setStatusIfPresent_withStatus. reflexivity. }
  cbn [withStatus withStorage App.dom App.lastJSON App.storage App.el_status
       App.busy App.frame App.query App.variations App.images App.timestamp].
  match goal with |- context [afterAutosaveWith cfg r1 r2 r3 ?m ?c ?st] =>
    destruct (afterAutosaveWith_items cfg r1 r2 r3 m c st)
      as (Hres & Hmeta & Hhist & _)
  end.
  split; [done |]. split; [done |]. split; [done |]. split; [done |].
  split; [done |]. split; [done |]. split; [done |].
  split; [done |]. split; [done |].
  split; [exact Hres |]. split; [exact Hmeta |]. split; [exact Hhist |].
  split; [| apply save_saveWith].
  intros -> ->. rewrite autoload_run. cbn [App.storage withStatus withStorage].
  by rewrite Hres, Hmeta.
Qed.

Lemma save_reports_outcome_witness :
  exists app',
    Page.saveWith CONFIG false false true 1730000000000
      {| App.lastJSON := {| len := 0; titles := [] |}; App.busy := false;
         App.dom := {| App.el_q := None; App.el_variations := None;
                       App.el_images := Some true; App.el_status := None;
                       App.el_results := None |};
         App.storage := {| App.items := ∅; App.full := false |};
         App.frame := None |}
    = (App.Ret true, app')
    /\ parsedItem App.STORAGE.lastMeta (App.storage app')
       = Some (App.JMeta {| App.query := ""; App.variations := false;
                            App.images := true; App.timestamp := 1730000000000 |})
    /\ storedHistory (App.storage app') = []
    /\ App.el_status (App.dom app') = None.
Proof.
  edestruct (save_reports_outcome CONFIG false false true 1730000000000
      {| App.lastJSON := {| len := 0; titles := [] |}; App.busy := false;
         App.dom := {| App.el_q := None; App.el_variations := None;
                       App.el_images := Some true; App.el_status := None;
                       App.el_results := None |};
         App.storage := {| App.items := ∅; App.full := false |};
         App.frame := None |})
    as (m & app' & Hrun & _).
  { vm_compute. exact I. }
  exists app'. split; [exact Hrun |].
  apply (f_equal snd) in Hrun. simpl in Hrun. subst app'.
  repeat split; vm_compute; reflexivity.
Defined.

(** ** The request address *)

Lemma encodeURIComponent_cons (c : ascii) (s : string) :
  Str.encodeURIComponent (String c s) = encodeUnit c +:+ Str.encodeURIComponent s.
Proof. reflexivity. Qed.

Lemma allUnits_all (c : ascii) : c ∈ allUnits.
Proof.
  unfold allUnits. apply list_elem_of_fmap. exists (nat_of_ascii c).
  split; [by rewrite ascii_nat_embedding |].
  apply elem_of_seq. pose proof (nat_ascii_bounded c). lia.
Qed.

Lemma forallb_allUnits (p : ascii -> bool) (c : ascii) :
  forallb p allUnits = true -> p c = true.
Proof.
  intros H. rewrite forallb_forall in H. apply H.
  apply list_elem_of_In, allUnits_all.
Qed.

Lemma encodeUnit_prefix_free (c1 c2 : ascii) :
  String.prefix (encodeUnit c1) (encodeUnit c2) = true -> c1 = c2.
Proof.
  intros Hp. apply Ascii.eqb_eq.
  assert (forallb (fun a => forallb (fun b =>
            implb (String.prefix (encodeUnit a) (encodeUnit b)) (Ascii.eqb a b))
            allUnits) allUnits = true) as Hall by (vm_compute; reflexivity).
  apply (forallb_allUnits _ c1) in Hall. apply (forallb_allUnits _ c2) in Hall.
  cbv beta in Hall. by rewrite Hp in Hall.
Qed.

Lemma encodeUnit_safe (c : ascii) :
  forallb urlSafe (list_ascii_of_string (encodeUnit c)) = true
  /\ encodeUnit c <> EmptyString.
Proof.
  assert (forallb (fun a =>
            forallb urlSafe (list_ascii_of_string (encodeUnit a))
            && Str.truthy (encodeUnit a)) allUnits = true) as Hall
    by (vm_compute; reflexivity).
  apply (forallb_allUnits _ c) in Hall. apply andb_true_iff in Hall as [H1 H2].
  split; [done |]. by destruct (encodeUnit c).
Qed.

Lemma append_common_prefix (a b s t : string) :
  a +:+ s = b +:+ t -> String.prefix a b = true \/ String.prefix b a = true.
Proof.
  revert b. induction a as [|x a IH]; intros b; [intros _; left; by destruct b |].
  destruct b as [|y b]; [intros _; by right |]. rewrite !append_cons. intros [= -> H].
  simpl. destruct (IH b H) as [Hp|Hp]; [left | right];
    by rewrite ?Ascii.eqb_refl; destruct (ascii_dec y y).
Qed.

Lemma encodeURIComponent_inj (q1 q2 : string) :
  Str.encodeURIComponent q1 = Str.encodeURIComponent q2 -> q1 = q2.
Proof.
  revert q2. induction q1 as [|c1 q1 IH]; intros [|c2 q2]; [done | | |].
  - rewrite encodeURIComponent_cons. simpl. intros H.
    destruct (encodeUnit_safe c2) as [_ Hne]. destruct (encodeUnit c2); [done |].
    by rewrite append_cons in H.
  - rewrite encodeURIComponent_cons. simpl. intros H.
    destruct (encodeUnit_safe c1) as [_ Hne]. destruct (encodeUnit c1); [done |].
    by rewrite append_cons in H.
  - rewrite !encodeURIComponent_cons. intros H.
    assert (c1 = c2) as ->.
    { destruct (append_common_prefix _ _ _ _ H) as [Hp|Hp];
        [| symmetry]; by apply encodeUnit_prefix_free. }
    f_equal. by apply IH, (append_inj_r (encodeUnit c2)).
Qed.

Lemma encodeURIComponent_safe (q : string) :
  forallb urlSafe (list_ascii_of_string (Str.encodeURIComponent q)) = true.
Proof.
  induction q as [|c q IH]; [done |]. rewrite encodeURIComponent_cons.
  destruct (encodeUnit_safe c) as [Hc _]. revert Hc.
  induction (encodeUnit c) as [|x e IHe]; [done |]. rewrite append_cons. simpl.
  intros [-> He]%andb_true_iff. by apply IHe.
Qed.

Lemma first_segment_length (q : string) :
  String.length (orElse (Str.toLowerCase (Str.charAt0 (Str.trim q))) "a") = 1.
Proof. by destruct (Str.trim q). Qed.

(** X19. The address [buildJSONPUrl] makes for a query of code units
    below 256: it is the fixed prefix, one code unit for the directory, a
    slash, the encoded query and ".json".  The directory is the first
    code unit of the trimmed query in lower case, not encoded, and "a"
    when the trimmed query is empty; the encoded query consists of
    unreserved characters and percent escapes only; and different
    queries have different addresses, so that no two queries of a search
    share a request. *)
Theorem buildJSONPUrl_injective_and_safe :
  (forall q1 q2, buildJSONPUrl q1 = buildJSONPUrl q2 -> q1 = q2)
  /\ (forall q, forallb urlSafe (list_ascii_of_string (urlencode q)) = true)
  /\ (forall q c rest,
        Str.trim q = String c rest ->
        buildJSONPUrl q
        = "https://sg.media-imdb.com/suggests/"
          +:+ String (Str.lowerUnit c) EmptyString +:+ "/"
          +:+ urlencode q +:+ ".json")
  /\ (forall q,
        Str.trim q = "" ->
        buildJSONPUrl q
        = "https://sg.media-imdb.com/suggests/" +:+ "a" +:+ "/"
          +:+ urlencode q +:+ ".json")
  /\ (forall q, exists seg,
        String.length seg = 1
        /\ buildJSONPUrl q
           = "https://sg.media-imdb.com/suggests/" +:+ seg +:+ "/"
             +:+ urlencode q +:+ ".json")
  /\ buildJSONPUrl " ?x" = "https://sg.media-imdb.com/suggests/?/%20%3Fx.json"
  /\ buildJSONPUrl "Matrix" = "https://sg.media-imdb.com/suggests/m/Matrix.json"
  /\ buildJSONPUrl "  " = "https://sg.media-imdb.com/suggests/a/%20%20.json".
Proof.
  split; [| split; [apply encodeURIComponent_safe |]].
  - intros q1 q2. unfold buildJSONPUrl. cbv zeta.
    pose proof (first_segment_length q1) as H1.
    pose proof (first_segment_length q2) as H2.
    destruct (orElse _ "a") as [|x1 [|? ?]]; try done.
    destruct (orElse _ "a") as [|x2 [|? ?]]; try done.
    intros H%append_inj_r.
    rewrite !append_cons in H. injection H as _ H.
    change (urlencode q1 +:+ ".json" = urlencode q2 +:+ ".json") in H.
    apply append_inj_l in H. by apply encodeURIComponent_inj.
  - split; [| split; [| split; [| split; [by vm_compute | split; by vm_compute]]]].
    + intros q c rest Hq. unfold buildJSONPUrl. cbv zeta. by rewrite Hq.
    + intros q Hq. unfold buildJSONPUrl. cbv zeta. by rewrite Hq.
    + intros q. eexists. split; [apply (first_segment_length q) | done].
Qed.

(** ** Strings beyond code unit 255 *)

Lemma ofString_append (s t : string) :
  Utf16.ofString (s +:+ t) = Utf16.ofString s ++ Utf16.ofString t.
Proof.
  unfold Utf16.ofString. induction s as [|c s IH]; [done |].
  rewrite append_cons. simpl. by f_equal.
Qed.

Lemma ofString_mapUnits (f : ascii -> ascii) (s : string) :
  Utf16.ofString (Str.mapUnits f s)
  = (fun u => N_of_ascii (f (ascii_of_N u))) <$> Utf16.ofString s.
Proof.
  unfold Utf16.ofString. induction s as [|c s IH]; [done |].
  simpl. rewrite ascii_N_embedding. by f_equal.
Qed.

(** On a code unit below 256 the operations on 16-bit code units are
    those on the strings of this development. *)
Lemma unit_operations (c : ascii) :
  Utf16.isTrailSurrogate (N_of_ascii c) = false
  /\ Utf16.isLeadSurrogate (N_of_ascii c) = false
  /\ Utf16.escape (N_of_ascii c) = encodeUnit c
  /\ Utf16.isSpace (N_of_ascii c) = Str.isSpace c
  /\ Utf16.isLowerAlnum (N_of_ascii c) = Str.isLowerAlnum c
  /\ (N_of_ascii c <? 256)%N = true.
Proof.
  assert (forallb (fun a =>
            negb (Utf16.isTrailSurrogate (N_of_ascii a))
            && negb (Utf16.isLeadSurrogate (N_of_ascii a))
            && String.eqb (Utf16.escape (N_of_ascii a)) (encodeUnit a)
            && Bool.eqb (Utf16.isSpace (N_of_ascii a)) (Str.isSpace a)
            && Bool.eqb (Utf16.isLowerAlnum (N_of_ascii a)) (Str.isLowerAlnum a)
            && (N_of_ascii a <? 256)%N) allUnits = true) as Hall
    by (vm_compute; reflexivity).
  apply (forallb_allUnits _ c) in Hall.
  repeat (apply andb_true_iff in Hall as [Hall ?]).
  repeat split;
    try (by apply negb_true_iff); try (by apply String.eqb_eq);
    try (by apply Bool.eqb_prop); done.
Qed.

Lemma encodeURIComponent_ofString (s : string) :
  Utf16.encodeURIComponent (Utf16.ofString s) = Some (Str.encodeURIComponent s).
Proof.
  induction s as [|c s IH]; [done |].
  change (Utf16.ofString (String c s)) with (N_of_ascii c :: Utf16.ofString s).
  destruct (unit_operations c) as (Ht & Hl & He & _).
  cbn [Utf16.encodeURIComponent]. rewrite Ht, Hl, IH, He. done.
Qed.

Lemma trimStart_ofString (s : string) :
  Utf16.trimStart (Utf16.ofString s) = Utf16.ofString (Str.trimStart s).
Proof.
  induction s as [|c s IH]; [done |].
  change (Utf16.ofString (String c s)) with (N_of_ascii c :: Utf16.ofString s).
  destruct (unit_operations c) as (_ & _ & _ & Hs & _).
  cbn [Utf16.trimStart Str.trimStart]. rewrite Hs. by destruct (Str.isSpace c).
Qed.

Lemma trimEnd_ofString (s : string) :
  Utf16.trimEnd (Utf16.ofString s) = Utf16.ofString (Str.trimEnd s).
Proof.
  induction s as [|c s IH]; [done |].
  change (Utf16.ofString (String c s)) with (N_of_ascii c :: Utf16.ofString s).
  destruct (unit_operations c) as (_ & _ & _ & Hs & _).
  cbn [Utf16.trimEnd Str.trimEnd]. rewrite IH, Hs.
  destruct (Str.trimEnd s) as [|a r]; [by destruct (Str.isSpace c) | done].
Qed.

Lemma trim_ofString (s : string) :
  Utf16.trim (Utf16.ofString s) = Utf16.ofString (Str.trim s).
Proof. unfold Utf16.trim, Str.trim. by rewrite trimStart_ofString, trimEnd_ofString. Qed.

Lemma replaceNonAlnum_ofString (s : string) :
  Utf16.replaceNonAlnum (Utf16.ofString s) = Utf16.ofString (Str.replaceNonAlnum s).
Proof.
  unfold Utf16.replaceNonAlnum, Str.replaceNonAlnum. rewrite ofString_mapUnits.
  unfold Utf16.ofString. apply list_fmap_ext. intros k u Hu.
  apply list_lookup_fmap_Some in Hu as (c & -> & _). rewrite ascii_N_embedding.
  destruct (unit_operations c) as (_ & _ & _ & _ & -> & _).
  by destruct (Str.isLowerAlnum c).
Qed.

Lemma lowerLatin1_ofString (s : string) :
  Utf16.lowerLatin1 (Utf16.ofString s) = Utf16.ofString (Str.toLowerCase s).
Proof.
  unfold Utf16.lowerLatin1, Str.toLowerCase. rewrite ofString_mapUnits.
  unfold Utf16.ofString. apply list_fmap_ext. intros k u Hu.
  apply list_lookup_fmap_Some in Hu as (c & -> & _).
  by destruct (unit_operations c) as (_ & _ & _ & _ & _ & ->).
Qed.

Section Latin1.
Context (toLowerCase : Utf16.t -> Utf16.t).
Hypothesis toLowerCase_latin1 :
  forall s, toLowerCase (Utf16.ofString s) = Utf16.ofString (Str.toLowerCase s).

Lemma buildJSONPUrl_ofString (q : string) :
  Utf16.buildJSONPUrl toLowerCase (Utf16.ofString q)
  = Some (Utf16.ofString (buildJSONPUrl q)).
Proof.
  unfold Utf16.buildJSONPUrl, buildJSONPUrl. cbv zeta.
  rewrite encodeURIComponent_ofString, trim_ofString. cbn [mbind option_bind].
  assert (Utf16.charAt0 (Utf16.ofString (Str.trim q))
          = Utf16.ofString (Str.charAt0 (Str.trim q))) as ->
    by by destruct (Str.trim q).
  rewrite toLowerCase_latin1, !ofString_append. unfold urlencode. f_equal. f_equal.
  unfold orElse. by destruct (Str.toLowerCase (Str.charAt0 (Str.trim q))).
Qed.

Lemma jsonpCallbackName_ofString (q : string) :
  Utf16.jsonpCallbackName toLowerCase (Utf16.ofString q)
  = Utf16.ofString (jsonpCallbackName q).
Proof.
  unfold Utf16.jsonpCallbackName, jsonpCallbackName.
  by rewrite toLowerCase_latin1, replaceNonAlnum_ofString, ofString_append.
Qed.

(** On a query of code units below 256 the promise starts pending, with
    the address and the callback name [Fetch.loadSuggest] has. *)
Lemma loadSuggest_ofString (q : string) (timeoutMs : nat) :
  Utf16.loadSuggest toLowerCase (Utf16.ofString q) timeoutMs
  = Utf16.Started (Utf16.ofString (Fetch.url (Fetch.loadSuggest q timeoutMs)))
      (Utf16.ofString (Fetch.cbName (Fetch.loadSuggest q timeoutMs))) timeoutMs.
Proof.
  unfold Utf16.loadSuggest.
  by rewrite buildJSONPUrl_ofString, jsonpCallbackName_ofString.
Qed.

End Latin1.

Section SessionWith.
Context (cfg : Config).

Lemma afterAutosaveWith_same (m : App.Meta) (last : Catalog) (st : App.Storage) :
  afterAutosaveWith cfg (App.full st) (App.full st) (App.full st) m last st
  = afterAutosave cfg m last st.
Proof. by destruct st as [its []]. Qed.

Lemma resumeWith_readable (r1 r2 r3 : bool) (app : App.t) (f : App.Frame)
    (raw : list Raw.Item) (now : Z) :
  App.frame app = Some f ->
  is_Some (App.el_status (App.dom app)) -> is_Some (App.el_results (App.dom app)) ->
  App.historyReadable (App.storage app) ->
  Page.onSubmit_resumeWith cfg r1 r2 r3 (App.Fulfilled raw) now app
  = (App.Ret (),
     {| App.lastJSON := normalize raw (App.f_wantImg f); App.busy := false;
        App.dom := shown (App.Found (len (normalize raw (App.f_wantImg f))))
                     (App.renderCards (normalize raw (App.f_wantImg f)))
                     (App.dom app);
        App.storage := afterAutosaveWith cfg r1 r2 r3 (metaOf f now)
                         (normalize raw (App.f_wantImg f)) (App.storage app);
        App.frame := None |}).
Proof.
  destruct app as [last b [q wv wi s m] sto fr]. simpl.
  intros -> [s0 ->] [m0 ->] Hr.
  unfold Page.onSubmit_resumeWith, App.bind at 1, App.get. simpl.
  unfold App.bind at 1. simpl. unfold App.tryCatchFinally.
  unfold App.bind at 1 2 3 4. simpl.
  unfold App.bind at 1.
  match goal with |- context [Page.autosaveWith cfg r1 r2 r3 ?m ?a] =>
    rewrite (autosaveWith_run cfg r1 r2 r3 m a Hr) end.
  reflexivity.
Qed.

Lemma sessionWith_run (r1 r2 r3 : bool) (net : string -> Timed.Behaviour) (now : Z)
    (app : App.t) (v : string) (wantVar wantImg : bool) (s0 : App.StatusText)
    (m0 : App.Markup) (raw : list Raw.Item) (events : list ProgressEvent) :
  App.busy app = false ->
  App.dom app = {| App.el_q := Some v; App.el_variations := Some wantVar;
                   App.el_images := Some wantImg; App.el_status := Some s0;
                   App.el_results := Some m0 |} ->
  App.historyReadable (App.storage app) ->
  Timed.loadAll cfg (expandQueries cfg (Str.trim v) wantVar) net = Some (raw, events) ->
  Page.sessionWith cfg r1 r2 r3 net now app
  = (App.Ret events,
     {| App.lastJSON := normalize raw wantImg; App.busy := false;
        App.dom := shown (App.Found (len (normalize raw wantImg)))
                     (App.renderCards (normalize raw wantImg)) (App.dom app);
        App.storage :=
          afterAutosaveWith cfg r1 r2 r3
            {| App.query := Str.trim v; App.variations := wantVar;
               App.images := wantImg; App.timestamp := now |}
            (normalize raw wantImg) (App.storage app);
        App.frame := None |}).
Proof.
  intros Hb Hd Hr Hload.
  unfold Page.sessionWith. unfold App.bind at 1.
  rewrite (onSubmit_enter_started cfg app v wantVar wantImg s0 m0 Hb Hd).
  cbv beta iota. unfold App.bind at 1, App.get.
  cbn [App.frame mbind option_bind App.f_qs]. rewrite Hload.
  unfold App.bind at 1.
  match goal with |- context [foldr _ _ events ?a] =>
    destruct (onProgress_fold events a (Some v) (Some wantVar) (Some wantImg)
                App.Loading (Some App.Blank) eq_refl) as (s1 & ->)
  end.
  cbn [App.lastJSON App.busy App.storage App.frame].
  unfold App.bind at 1.
  match goal with |- context [Page.onSubmit_resumeWith cfg r1 r2 r3 ?aw now ?a] =>
    rewrite (resumeWith_readable r1 r2 r3 a _ raw now eq_refl
               ltac:(by eexists) ltac:(by eexists) Hr)
  end.
  cbn [App.lastJSON App.dom App.busy App.frame App.storage App.f_wantImg].
  by rewrite Hd.
Qed.

Lemma session_run (net : string -> Timed.Behaviour) (now : Z)
    (app : App.t) (v : string) (wantVar wantImg : bool) (s0 : App.StatusText)
    (m0 : App.Markup) (raw : list Raw.Item) (events : list ProgressEvent) :
  App.busy app = false ->
  App.dom app = {| App.el_q := Some v; App.el_variations := Some wantVar;
                   App.el_images := Some wantImg; App.el_status := Some s0;
                   App.el_results := Some m0 |} ->
  App.historyReadable (App.storage app) ->
  Timed.loadAll cfg (expandQueries cfg (Str.trim v) wantVar) net = Some (raw, events) ->
  App.session cfg net now app
  = (App.Ret events,
     {| App.lastJSON := normalize raw wantImg; App.busy := false;
        App.dom := shown (App.Found (len (normalize raw wantImg)))
                     (App.renderCards (normalize raw wantImg)) (App.dom app);
        App.storage :=
          afterAutosave cfg
            {| App.query := Str.trim v; App.variations := wantVar;
               App.images := wantImg; App.timestamp := now |}
            (normalize raw wantImg) (App.storage app);
        App.frame := None |}).
Proof.
  intros Hb Hd Hr Hload.
  unfold App.session. unfold App.bind at 1.
  rewrite (onSubmit_enter_started cfg app v wantVar wantImg s0 m0 Hb Hd).
  cbv beta iota. unfold App.bind at 1, App.get.
  cbn [App.frame mbind option_bind App.f_qs]. rewrite Hload.
  unfold App.bind at 1.
  match goal with |- context [foldr _ _ events ?a] =>
    destruct (onProgress_fold events a (Some v) (Some wantVar) (Some wantImg)
                App.Loading (Some App.Blank) eq_refl) as (s1 & ->)
  end.
  cbn [App.lastJSON App.busy App.storage App.frame].
  unfold App.bind at 1.
  match goal with |- context [App.onSubmit_resume cfg ?aw now ?a] =>
    rewrite (resume_readable cfg a _ raw now eq_refl
               ltac:(by eexists) ltac:(by eexists) Hr)
  end.
  cbn [App.lastJSON App.dom App.busy App.frame App.storage App.f_wantImg].
  by rewrite Hd.
Qed.

End SessionWith.

(** X17. A search from submit to display, for a term of code units
    below 256 (every query of such a term is one [loadSuggest] starts and
    does not reject), whatever the remote end does and whichever of the three
    [setItem] calls of [autosave] the storage refuses ([r1] for the
    catalog, [r2] for the metadata, [r3] for the history): on an idle
    page that has the five elements and a readable history, a submit runs
    [loadAll] on the queries of the trimmed term, which returns; the call
    then publishes the normalized result as the catalog, shows its count
    and its cards, leaves the form fields alone and clears [busy]; each
    stored item holds the new value if its write was taken and is as
    before if it was refused; and when the catalog and the metadata were
    stored a following [autoload] returns exactly what was shown, with
    the term, the flags and the time of the search.  The [session] of
    this development is the case in which the three writes fare alike. *)
Theorem session_shows_what_was_found (cfg : Config) (r1 r2 r3 : bool)
    (net : string -> Timed.Behaviour) (now : Z) (app : App.t) (v : string)
    (wantVar wantImg : bool) (s0 : App.StatusText) (m0 : App.Markup) :
  App.busy app = false ->
  App.dom app = {| App.el_q := Some v; App.el_variations := Some wantVar;
                   App.el_images := Some wantImg; App.el_status := Some s0;
                   App.el_results := Some m0 |} ->
  App.historyReadable (App.storage app) ->
  exists raw events app',
    Timed.loadAll cfg (expandQueries cfg (Str.trim v) wantVar) net = Some (raw, events)
    /\ Page.sessionWith cfg r1 r2 r3 net now app = (App.Ret events, app')
    /\ App.lastJSON app' = normalize raw wantImg
    /\ App.dom app'
       = shown (App.Found (length (titles (normalize raw wantImg))))
           (App.renderCards (normalize raw wantImg)) (App.dom app)
    /\ App.busy app' = false /\ App.frame app' = None
    /\ parsedItem App.STORAGE.lastResults (App.storage app')
       = (if r1 then parsedItem App.STORAGE.lastResults (App.storage app)
          else Some (App.JCatalog (normalize raw wantImg)))
    /\ parsedItem App.STORAGE.lastMeta (App.storage app')
       = (if r2 then parsedItem App.STORAGE.lastMeta (App.storage app)
          else Some (App.JMeta {| App.query := Str.trim v;
                                  App.variations := wantVar;
                                  App.images := wantImg;
                                  App.timestamp := now |}))
    /\ storedHistory (App.storage app')
       = (if r3 then storedHistory (App.storage app)
          else App.dedupHistory cfg ∅ []
                 ({| App.meta := {| App.query := Str.trim v;
                                    App.variations := wantVar;
                                    App.images := wantImg;
                                    App.timestamp := now |};
                     App.results := len (normalize raw wantImg) |}
                  :: storedHistory (App.storage app)))
    /\ (r1 = false -> r2 = false ->
        Page.autoload app'
        = (App.Ret (Some (App.JCatalog (normalize raw wantImg)),
                    Some (App.JMeta {| App.query := Str.trim v;
                                       App.variations := wantVar;
                                       App.images := wantImg;
                                       App.timestamp := now |})), app'))
    /\ App.session cfg net now app
       = Page.sessionWith cfg (App.full (App.storage app))
           (App.full (App.storage app)) (App.full (App.storage app)) net now app
    /\ (forall toLowerCase q timeoutMs,
          q ∈ expandQueries cfg (Str.trim v) wantVar ->
          Utf16.loadSuggest toLowerCase (Utf16.ofString q) timeoutMs
          <> Utf16.Rejected).
Proof.
  intros Hb Hd Hr.
  destruct (timed_loadAll_returns cfg (expandQueries cfg (Str.trim v) wantVar) net)
    as (raw & events & Hload).
  exists raw, events. eexists. split; [exact Hload |].
  split; [by apply (sessionWith_run cfg r1 r2 r3 net now app v wantVar wantImg s0 m0) |].
  cbn [App.lastJSON App.dom App.busy App.frame App.storage].
  match goal with |- context [afterAutosaveWith cfg r1 r2 r3 ?m ?c ?st] =>
    destruct (afterAutosaveWith_items cfg r1 r2 r3 m c st)
      as (Hres & Hmeta & Hhist & _)
  end.
  split; [done |]. split; [done |]. split; [done |]. split; [done |].
  split; [exact Hres |]. split; [exact Hmeta |]. split; [exact Hhist |].
  split.
  { intros -> ->. rewrite autoload_run. cbn [App.storage].
    by rewrite Hres, Hmeta. }
  split.
  { rewrite (session_run cfg net now app v wantVar wantImg s0 m0 raw events)
      by done.
    rewrite (sessionWith_run cfg _ _ _ net now app v wantVar wantImg s0 m0 raw events)
      by done.
    by rewrite afterAutosaveWith_same. }
  intros toLowerCase q timeoutMs _.
  unfold Utf16.loadSuggest, Utf16.buildJSONPUrl. cbv zeta.
  by rewrite encodeURIComponent_ofString.
Qed.

Lemma session_shows_what_was_found_witness :
  exists events app',
    Page.sessionWith CONFIG false true false
      (fun _ => Timed.Answers 120
                  (ArgObject {| d := Some [sampleItem "tt0133093" "The Matrix" (Some 200%Z);
                                           sampleItem "tt0234215" "Reloaded" (Some 900%Z);
                                           sampleItem "tt0133093" "The Matrix" (Some 200%Z)] |}))
      1730000000000 (samplePage " matrix " ∅ false)
    = (App.Ret events, app')
    /\ App.el_status (App.dom app') = Some (App.Found 2)
    /\ pct <$> events = [100%Z]
    /\ len (App.lastJSON app') = 2
    /\ parsedItem App.STORAGE.lastMeta (App.storage app') = None
    /\ storedHistory (App.storage app') = [sampleSearch "matrix" false 2].
Proof.
  edestruct (session_shows_what_was_found CONFIG false true false
      (fun _ => Timed.Answers 120
                  (ArgObject {| d := Some [sampleItem "tt0133093" "The Matrix" (Some 200%Z);
                                           sampleItem "tt0234215" "Reloaded" (Some 900%Z);
                                           sampleItem "tt0133093" "The Matrix" (Some 200%Z)] |}))
      1730000000000 (samplePage " matrix " ∅ false) " matrix " false false
      (App.OtherStatus "Ready") App.NoResults eq_refl eq_refl)
    as (raw & events & app' & Hload & Hrun & Hlast & Hdom & _ & _ & _ & Hmeta
        & Hhist & _).
  { vm_compute. exact I. }
  exists events, app'. split; [exact Hrun |].
  vm_compute in Hload. injection Hload as <- <-.
  rewrite Hdom, Hlast, Hmeta, Hhist. repeat split; vm_compute; reflexivity.
Defined.

(** C8 fails on the code. The query that consists of the lone surrogate
    U+D800 is a string of the language; [encodeURIComponent] raises on it
    inside the executor of the promise, at [buildJSONPUrl(q)], so the
    promise of [loadSuggest] is rejected, whatever [toLowerCase] does and
    before any transport outcome.  The promise is rejected exactly when
    [encodeURIComponent] raises on the query, which it does not on a
    query of code units below 256 nor on a surrogate pair. *)
Theorem loadSuggest_rejects_lone_surrogate :
  (forall toLowerCase timeoutMs,
     Utf16.loadSuggest toLowerCase [55296%N] timeoutMs = Utf16.Rejected)
  /\ (forall toLowerCase timeoutMs,
        Utf16.loadSuggest toLowerCase (Utf16.ofString "x" ++ [56832%N]) timeoutMs
        = Utf16.Rejected)
  /\ (forall toLowerCase q timeoutMs,
        Utf16.loadSuggest toLowerCase q timeoutMs = Utf16.Rejected
        <-> Utf16.encodeURIComponent q = None)
  /\ Utf16.encodeURIComponent [55357%N; 56832%N] = Some "%F0%9F%98%80"
  /\ (forall q, Utf16.encodeURIComponent (Utf16.ofString q)
                = Some (Str.encodeURIComponent q))
  /\ (forall q timeoutMs,
        Utf16.loadSuggest Utf16.lowerLatin1 (Utf16.ofString q) timeoutMs
        = Utf16.Started (Utf16.ofString (Fetch.url (Fetch.loadSuggest q timeoutMs)))
            (Utf16.ofString (Fetch.cbName (Fetch.loadSuggest q timeoutMs)))
            timeoutMs).
Proof.
  split; [done |]. split; [done |]. split.
  { intros toLowerCase q timeoutMs. unfold Utf16.loadSuggest, Utf16.buildJSONPUrl.
    cbv zeta. by destruct (Utf16.encodeURIComponent q). }
  split; [by vm_compute |]. split; [apply encodeURIComponent_ofString |].
  intros q timeoutMs. apply loadSuggest_ofString, lowerLatin1_ofString.
Qed.
